(** * stomp-websocket: the STOMP frame codec and client engine of [src/stomp.js]

    A shallow embedding of the JavaScript source.  JavaScript strings are
    sequences of UTF-16 code units, held here as lists of [N]; the string
    methods the source calls ([substring], [search], [split], [indexOf],
    [replace] through [trim], [parseInt], [encodeURI], [match]) are written out
    with the clamping, the [-1] and the [NaN] results they have in the
    language.  An object used as a dictionary is the list of its own
    properties in the order [Object.keys] reports them; what it inherits
    from [Object.prototype] is written out where the source reads or
    assigns a key it does not choose: the headers of a parsed frame and the
    table of subscriptions.  A function that can raise returns a [result];
    a method that mutates an object it shares with its caller returns the
    new state of that object next to its value. *)

From Stdlib Require Import String Ascii List NArith ZArith Lia Bool.
Import ListNotations.

(** ** JavaScript strings *)

Module JS.

(** A string: its UTF-16 code units. *)
Abbreviation jsstring := (list N).

(** A string literal of the source (ASCII), as code units. *)
Definition lit (s : string) : jsstring :=
  map N_of_ascii (list_ascii_of_string s).

Fixpoint str_eqb (a b : jsstring) : bool :=
  match a, b with
  | [], [] => true
  | x :: a', y :: b' => N.eqb x y && str_eqb a' b'
  | _, _ => false
  end.

(** Exceptions of the language that the modelled code can raise, and a
    value that a function of the application throws, known by a name. *)
Inductive exn := URIError | TypeError | ReferenceError | Thrown (value : nat).

Inductive result (A : Type) :=
| Ret (a : A)
| Throw (e : exn).
Arguments Ret {A} a.
Arguments Throw {A} e.

Definition bind {A B} (r : result A) (k : A -> result B) : result B :=
  match r with
  | Ret a => k a
  | Throw e => Throw e
  end.

(** Values stored in the objects of the source: header values are strings,
    the boolean [false] is the content-length sentinel, and a missing
    argument is [undefined]. *)
Inductive jsval :=
| VUndefined
| VBool (b : bool)
| VStr (s : jsstring).

(** [ToString], as applied by a template literal or a string method. *)
Definition to_string (v : jsval) : jsstring :=
  match v with
  | VUndefined => lit "undefined"
  | VBool true => lit "true"
  | VBool false => lit "false"
  | VStr s => s
  end.

(** [ToBoolean]. *)
Definition truthy (v : jsval) : bool :=
  match v with
  | VUndefined => false
  | VBool b => b
  | VStr [] => false
  | VStr (_ :: _) => true
  end.

(** A property read: an absent property reads as [undefined]. *)
Definition read (o : option jsval) : jsval :=
  match o with
  | Some v => v
  | None => VUndefined
  end.

(** [x === false]. *)
Definition is_false (v : jsval) : bool :=
  match v with
  | VBool false => true
  | _ => false
  end.

(** *** Indices: [ToIntegerOrInfinity] and the clamping of [substring] *)

(** A number that is an integer or [NaN] ([None]). *)
Definition jsnum := option Z.

Definition num_add (a : Z) (b : jsnum) : jsnum :=
  match b with
  | Some z => Some (a + z)%Z
  | None => None
  end.

Definition to_integer (n : jsnum) : Z :=
  match n with
  | Some z => z
  | None => 0%Z
  end.

Definition clamp (len : nat) (i : Z) : nat :=
  Z.to_nat (Z.min (Z.max i 0) (Z.of_nat len)).

(** [s.substring(start, end)]: both ends clamped to [0, s.length] and
    swapped when [start > end]. *)
Definition substring (s : jsstring) (start fin : Z) : jsstring :=
  let a := clamp (length s) start in
  let b := clamp (length s) fin in
  firstn (Nat.max a b - Nat.min a b) (skipn (Nat.min a b) s).

(** [s.substring(start)]. *)
Definition substring_from (s : jsstring) (start : Z) : jsstring :=
  skipn (clamp (length s) start) s.

(** *** Searching *)

Fixpoint starts_with (p s : jsstring) : bool :=
  match p, s with
  | [], _ => true
  | x :: p', y :: s' => N.eqb x y && starts_with p' s'
  | _ :: _, [] => false
  end.

(** Position of the first occurrence of [p] in [s]. *)
Fixpoint find_substr (p s : jsstring) : option nat :=
  if starts_with p s then Some 0
  else match s with
       | [] => None
       | _ :: r => option_map S (find_substr p r)
       end.

(** [s.indexOf(p)] and [s.search(/p/)] for a pattern of literal characters:
    the index of the first occurrence, or [-1]. *)
Definition indexOf (s p : jsstring) : Z :=
  match find_substr p s with
  | Some i => Z.of_nat i
  | None => (-1)%Z
  end.

(** [s.split(c)] for a one-character separator; the result is never empty. *)
Fixpoint split (c : N) (s : jsstring) : list jsstring :=
  match s with
  | [] => [[]]
  | x :: r =>
      if N.eqb x c then [] :: split c r
      else match split c r with
           | h :: t => (x :: h) :: t
           | [] => [[x]]
           end
  end.

(** [lines.join(sep)]. *)
Fixpoint join (sep : jsstring) (lines : list jsstring) : jsstring :=
  match lines with
  | [] => []
  | [l] => l
  | l :: rest => l ++ sep ++ join sep rest
  end.

(** *** White space, [trim] and [parseInt] *)

(** The class [\s] of regular expressions, which is also the white space
    [parseInt] skips: WhiteSpace and LineTerminator code units. *)
Definition is_space (c : N) : bool :=
  ((9 <=? c) && (c <=? 13) || (c =? 32) || (c =? 160) || (c =? 5760)
   || ((8192 <=? c) && (c <=? 8202)) || (c =? 8232) || (c =? 8233)
   || (c =? 8239) || (c =? 8287) || (c =? 12288) || (c =? 65279))%N.

Fixpoint drop_while (p : N -> bool) (s : jsstring) : jsstring :=
  match s with
  | [] => []
  | c :: r => if p c then drop_while p r else s
  end.

Fixpoint take_while (p : N -> bool) (s : jsstring) : jsstring :=
  match s with
  | [] => []
  | c :: r => if p c then c :: take_while p r else []
  end.

(** [str.replace(/^\s+|\s+$/g, '')]: the leading run and the trailing run of
    white space are removed. *)
Definition strip_spaces (s : jsstring) : jsstring :=
  rev (drop_while is_space (rev (drop_while is_space s))).

Definition is_digit (c : N) : bool := ((48 <=? c) && (c <=? 57))%N.

(** Value of a run of decimal digits, most significant first. *)
Definition digit_step (acc : Z) (d : N) : Z := (10 * acc + (Z.of_N d - 48))%Z.

Definition digits_value (ds : jsstring) : Z := fold_left digit_step ds 0%Z.

(** An optional sign at the head of a numeral. *)
Definition strip_sign (s : jsstring) : Z * jsstring :=
  match s with
  | 45%N :: r => ((-1)%Z, r)
  | 43%N :: r => (1%Z, r)
  | _ => (1%Z, s)
  end.

(** [parseInt(s, 10)]: leading white space skipped, an optional sign, then
    the longest run of decimal digits; [NaN] when that run is empty. *)
Definition parseInt (s : jsstring) : jsnum :=
  let '(sign, s2) := strip_sign (drop_while is_space s) in
  match take_while is_digit s2 with
  | [] => None
  | ds => Some (sign * digits_value ds)%Z
  end.

(** Decimal digits of a natural number, as [String(n)] prints an integer. *)
Fixpoint digits_of (fuel : nat) (n : N) (acc : jsstring) : jsstring :=
  match fuel with
  | O => acc
  | S fuel' =>
      let acc' := (48 + n mod 10)%N :: acc in
      if (n / 10 =? 0)%N then acc' else digits_of fuel' (n / 10)%N acc'
  end.

(** [String(z)] for an integer [z]. *)
Definition number_to_string (z : Z) : jsstring :=
  let n := Z.to_N (Z.abs z) in
  let ds := digits_of (S (N.to_nat (N.log2 n))) n [] in
  if (z <? 0)%Z then 45%N :: ds else ds.

(** *** [encodeURI] and the match of [/%..|./g] *)

(** Code units [encodeURI] leaves as they are: the reserved and the
    unescaped characters of a URI, and [#]. *)
Definition uri_unescaped (c : N) : bool :=
  ((65 <=? c) && (c <=? 90) || (97 <=? c) && (c <=? 122) || is_digit c
   || existsb (N.eqb c) (lit ";/?:@&=+$,-_.!~*'()#"))%N.

Definition is_high_surrogate (c : N) : bool :=
  ((55296 <=? c) && (c <=? 56319))%N.

Definition is_low_surrogate (c : N) : bool :=
  ((56320 <=? c) && (c <=? 57343))%N.

(** The code point of a surrogate pair. *)
Definition pair_code_point (hi lo : N) : N :=
  ((hi - 55296) * 1024 + (lo - 56320) + 65536)%N.

(** The UTF-8 octets of a code point. *)
Definition utf8_octets (v : N) : list N :=
  if (v <? 128)%N then [v]
  else if (v <? 2048)%N then
    [192 + v / 64; 128 + v mod 64]%N
  else if (v <? 65536)%N then
    [224 + v / 4096; 128 + (v / 64) mod 64; 128 + v mod 64]%N
  else
    [240 + v / 262144; 128 + (v / 4096) mod 64; 128 + (v / 64) mod 64;
     128 + v mod 64]%N.

Definition hex_digit (d : N) : N :=
  if (d <? 10)%N then (48 + d)%N else (55 + d)%N.

(** An octet as [%XX], in upper-case hexadecimal. *)
Definition percent_octet (b : N) : jsstring :=
  [37%N; hex_digit (b / 16); hex_digit (b mod 16)].

Definition percent_octets (bs : list N) : jsstring :=
  flat_map percent_octet bs.

(** [encodeURI(s)]: a code unit of the unescaped set is kept, any other code
    point is replaced by the escapes of its UTF-8 octets, and a surrogate
    that is not part of a pair raises [URIError]. *)
Fixpoint encodeURI (s : jsstring) : result jsstring :=
  match s with
  | [] => Ret []
  | c :: r =>
      if uri_unescaped c then bind (encodeURI r) (fun e => Ret (c :: e))
      else if is_low_surrogate c then Throw URIError
      else if negb (is_high_surrogate c) then
        bind (encodeURI r) (fun e => Ret (percent_octets (utf8_octets c) ++ e))
      else
        match r with
        | [] => Throw URIError
        | k :: r' =>
            if is_low_surrogate k then
              bind (encodeURI r')
                (fun e => Ret (percent_octets (utf8_octets (pair_code_point c k)) ++ e))
            else Throw URIError
        end
  end.

(** [.] of a regular expression without flags: any code unit but a line
    terminator. *)
Definition re_dot (c : N) : bool :=
  negb ((c =? 10) || (c =? 13) || (c =? 8232) || (c =? 8233))%N.

(** The successive matches of [/%..|./g], scanning from the left: at each
    position the first alternative is tried before the second, and a position
    where neither matches is passed over. *)
Fixpoint match_all (s : jsstring) : list jsstring :=
  match s with
  | [] => []
  | c :: r =>
      let single := if re_dot c then [c] :: match_all r else match_all r in
      match r with
      | d1 :: d2 :: r' =>
          if (c =? 37)%N && re_dot d1 && re_dot d2
          then [c; d1; d2] :: match_all r'
          else single
      | _ => single
      end
  end.

(** [s.match(/%..|./g)]: the array of matches, or [null] when there is
    none. *)
Definition match_global (s : jsstring) : option (list jsstring) :=
  match match_all s with
  | [] => None
  | ms => Some ms
  end.

End JS.

(** ** Objects used as dictionaries *)

Module Obj.

Import JS.

Section Dictionary.

Variable V : Type.

(** The own properties of an object, in the order of [Object.keys]. *)
Definition t := list (jsstring * V).

Definition empty : t := [].

Definition keys (o : t) : list jsstring := map fst o.

(** [o[k]], with [None] for an absent property. *)
Fixpoint get (o : t) (k : jsstring) : option V :=
  match o with
  | [] => None
  | (k', v) :: r => if str_eqb k' k then Some v else get r k
  end.

Definition has (o : t) (k : jsstring) : bool :=
  existsb (fun kv => str_eqb (fst kv) k) o.

(** [delete o[k]]. *)
Definition delete (o : t) (k : jsstring) : t :=
  filter (fun kv => negb (str_eqb (fst kv) k)) o.

(** A key that is an array index: a canonical decimal numeral below
    [2^32 - 1].  [Object.keys] lists such keys first, in ascending order. *)
Definition array_index (k : jsstring) : option N :=
  match k with
  | [] => None
  | d :: r =>
      if forallb is_digit k && (negb (d =? 48)%N || match r with [] => true | _ => false end)
      then let n := Z.to_N (digits_value k) in
           if (n <? 4294967295)%N then Some n else None
      else None
  end.

Definition update (o : t) (k : jsstring) (v : V) : t :=
  map (fun kv => if str_eqb (fst kv) k then (fst kv, v) else kv) o.

Fixpoint insert_index (n : N) (k : jsstring) (v : V) (o : t) : t :=
  match o with
  | [] => [(k, v)]
  | (k', v') :: r =>
      match array_index k' with
      | Some m => if (m <? n)%N then (k', v') :: insert_index n k v r
                  else (k, v) :: o
      | None => (k, v) :: o
      end
  end.

(** A property written as the object's own: an existing property keeps its
    place; a new one goes after the others, or among the array indices when
    its key is one. *)
Definition put (o : t) (k : jsstring) (v : V) : t :=
  if has o k then update o k v
  else match array_index k with
       | Some n => insert_index n k v o
       | None => o ++ [(k, v)]
       end.

End Dictionary.

Arguments empty {V}.
Arguments keys {V} o.
Arguments get {V} o k.
Arguments has {V} o k.
Arguments delete {V} o k.
Arguments update {V} o k v.
Arguments insert_index {V} n k v o.
Arguments put {V} o k v.

(** The one accessor of [Object.prototype]. *)
Definition proto_key : jsstring := lit "__proto__".

(** [o[k] = v] on an object that inherits from [Object.prototype], for a
    value that is not an object, as every [jsval] is.  The assignment
    writes an own property, but for the key [__proto__] on an object that
    has no own property of that name: it then reaches the inherited
    setter, which ignores a value that is neither an object nor [null]. *)
Definition set (o : t jsval) (k : jsstring) (v : jsval) : t jsval :=
  if negb (has o k) && str_eqb k proto_key then o else put o k v.

End Obj.

Import JS.

(** ** The frame codec: class [Frame] *)

(** [const BYTES_LF = '\x0A'] and [const BYTES_NULL = '\x00']. *)
Definition BYTES_LF : jsstring := [10%N].
Definition BYTES_NULL : jsstring := [0%N].

Definition LF : N := 10%N.
Definition NUL : N := 0%N.

(** Modelled from the spec: the object [BYTES], whose field [LF] [toString]
    reads, is declared nowhere in the source files.  The spec has the lines
    of a frame joined with a single line-terminator byte (value 10), so the
    field is the line feed. *)
Definition BYTES_obj_LF : jsstring := [10%N].

(** Modelled from the spec: the object [Byte], whose field [LF] [unmarshall]
    and the message handler read, is declared nowhere in the source files.
    The spec has a bare heartbeat be a single line-terminator byte (0x0A),
    so the field is the line feed. *)
Definition Byte_obj_LF : jsstring := [10%N].

(** [const trim = (str) => str.replace(/^\s+|\s+$/g,'')]. *)
Definition trim (str : jsstring) : jsstring := strip_spaces str.

Record Frame := mkFrame {
  command : jsstring;
  headers : Obj.t jsval;
  body : jsstring
}.

Definition content_length : jsstring := lit "content-length".
Definition colon : jsstring := lit ":".

(** [Frame.sizeOfUTF8(s)]. *)
Definition sizeOfUTF8 (s : jsstring) : result Z :=
  match s with
  | [] => Ret 0%Z
  | _ =>
      bind (encodeURI s) (fun e =>
        match match_global e with
        | Some ms => Ret (Z.of_nat (length ms))
        | None => Throw TypeError
        end)
  end.

(** The line [`${name}:${value}`] of one header. *)
Definition header_line (hs : Obj.t jsval) (name : jsstring) : jsstring :=
  let value := read (Obj.get hs name) in
  name ++ colon ++ to_string value.

(** [frame.toString()].  The headers object belongs to the caller of
    [marshall] as much as to the frame, and [toString] deletes the sentinel
    from it; the frame as the call leaves it is returned with the text. *)
Definition toString (this : Frame) : result jsstring * Frame :=
  let lines := [command this] in
  let skipContentLength :=
    is_false (read (Obj.get (headers this) content_length)) in
  let this :=
    if skipContentLength
    then mkFrame (command this) (Obj.delete (headers this) content_length) (body this)
    else this in
  let lines := lines ++ map (header_line (headers this)) (Obj.keys (headers this)) in
  let lines :=
    if truthy (VStr (body this)) && negb skipContentLength
    then bind (sizeOfUTF8 (body this)) (fun n =>
           Ret (lines ++ [lit "content-length:" ++ number_to_string n]))
    else Ret lines in
  (bind lines (fun lines =>
     Ret (join BYTES_obj_LF (lines ++ [BYTES_obj_LF ++ body this]))),
   this).

(** The header loop of [unmarshallSingle]: one assignment per line. *)
Definition parse_header (hs : Obj.t jsval) (line : jsstring) : Obj.t jsval :=
  let idx := indexOf line colon in
  Obj.set hs (trim (substring line 0 idx))
             (VStr (trim (substring_from line (idx + 1)))).

(** The body loop of [unmarshallSingle]: characters are appended up to the
    first NULL. *)
Fixpoint scan_body (rest body : jsstring) : jsstring :=
  match rest with
  | [] => body
  | chr :: rest' =>
      if N.eqb chr NUL then body else scan_body rest' (body ++ [chr])
  end.

(** [Frame.unmarshallSingle(data)]. *)
Definition unmarshallSingle (data : jsstring) : Frame :=
  let divider := indexOf data (BYTES_LF ++ BYTES_LF) in
  let headerLines := split LF (substring data 0 divider) in
  let command := hd [] headerLines in
  let headerLines := tl headerLines in
  let bodyIndex := (divider + 2)%Z in
  let headers := fold_left parse_header (rev headerLines) Obj.empty in
  let body :=
    if truthy (read (Obj.get headers content_length)) then
      let len := parseInt (to_string (read (Obj.get headers content_length))) in
      substring data bodyIndex (to_integer (num_add bodyIndex len))
    else scan_body (substring_from data bodyIndex) [] in
  mkFrame command headers body.

(** [datas.split(/\0\n*/)]: the pieces between the separators, a separator
    being a NULL with all the line feeds that follow it. *)
Fixpoint split_frames (skip : bool) (piece datas : jsstring) : list jsstring :=
  match datas with
  | [] => [rev piece]
  | c :: r =>
      if skip && N.eqb c LF then split_frames true piece r
      else if N.eqb c NUL then rev piece :: split_frames true [] r
      else split_frames false (c :: piece) r
  end.

(** [s.search(/\0\n*$/)]: the first NULL that only line feeds follow. *)
Fixpoint search_null_end (s : jsstring) : Z :=
  match s with
  | [] => (-1)%Z
  | c :: r =>
      if N.eqb c NUL && forallb (N.eqb LF) r then 0%Z
      else let i := search_null_end r in
           if (i =? -1)%Z then (-1)%Z else (i + 1)%Z
  end.

Record unmarshalled := mkUnmarshalled {
  frames : list Frame;
  partial : jsstring
}.

(** The call [unmarshallSingle(f)] in [unmarshall]: the name stands without
    its class, and no declaration of the source files binds it (the method
    is [Frame.unmarshallSingle]); evaluating the call raises
    [ReferenceError], whatever the piece. *)
Definition unmarshallSingle_unbound (f : jsstring) : result Frame :=
  Throw ReferenceError.

(** [array.map(f)] for a function that can raise. *)
Fixpoint map_result {A B} (f : A -> result B) (l : list A) : result (list B) :=
  match l with
  | [] => Ret []
  | a :: l' =>
      bind (f a) (fun b => bind (map_result f l') (fun bs => Ret (b :: bs)))
  end.

(** [Frame.unmarshall(datas)]. *)
Definition unmarshall (datas : jsstring) : result unmarshalled :=
  let pieces := split_frames false [] datas in
  let firstFrames := removelast pieces in
  let lastFrame := last pieces [] in
  bind (map_result unmarshallSingle_unbound firstFrames) (fun fs =>
    let r := mkUnmarshalled fs [] in
    if str_eqb lastFrame Byte_obj_LF
       || negb (search_null_end lastFrame =? -1)%Z
    then bind (unmarshallSingle_unbound lastFrame) (fun f =>
           Ret (mkUnmarshalled (frames r ++ [f]) (partial r)))
    else Ret (mkUnmarshalled (frames r) lastFrame)).

(** [Frame.marshall(command, headers, body)]: the text, and the frame built
    around the caller's headers object as [toString] leaves it. *)
Definition marshall (command : jsstring) (headers : Obj.t jsval) (body : jsstring)
  : result jsstring * Frame :=
  let frame := mkFrame command headers body in
  let '(text, frame) := toString frame in
  (bind text (fun text => Ret (text ++ BYTES_NULL)), frame).

(** ** The connection engine: class [Client] *)

(** A function the client calls: one of the application (a subscription
    callback, [onreceive], [onreceipt], the callbacks given to [connect])
    or one of the engine found in its place, known by a name. *)
Definition handler := nat.

Inductive timer_task := SendPing | CheckPong.

(** A call [setInterval(task, delay)]; the delay is [None] when the call
    passes no second argument. *)
Record timer := mkTimer {
  task : timer_task;
  delay : option Z
}.

(** What the client does to its collaborators, in the order it does it. *)
Inductive event :=
| Send (data : jsstring)
| Log (message : jsstring)
| Invoke (f : handler) (frame : Frame)
| InvokeMessage (f : handler) (frame : Frame) (messageID subscription : jsval).

Record Client := mkClient {
  counter : Z;
  connected : bool;
  heartbeat_outgoing : Z;
  heartbeat_incoming : Z;
  maxWebSocketFrameSize : Z;
  subscriptions : Obj.t handler;
  partialData : jsstring;
  onreceive : option handler;
  onreceipt : option handler;
  pinger : option timer;
  ponger : option timer;
  serverActivity : Z;
  trace : list event
}.

(** [new Client(ws)]. *)
Definition new_Client : Client :=
  mkClient 0 false 10000 10000 (16 * 1024) Obj.empty [] None None None None 0 [].

(** The result of a method: it returns, it raises, or the fuel given to
    its loop ran out.  The client is as the method left it. *)
Inductive outcome (A : Type) :=
| Done (a : A) (this : Client)
| Raised (e : exn) (this : Client)
| OutOfFuel.
Arguments Done {A} a this.
Arguments Raised {A} e this.
Arguments OutOfFuel {A}.

Definition M (A : Type) := Client -> outcome A.

Definition ret {A} (a : A) : M A := fun this => Done a this.

Definition seq {A B} (m : M A) (k : A -> M B) : M B :=
  fun this =>
    match m this with
    | Done a this' => k a this'
    | Raised e this' => Raised e this'
    | OutOfFuel => OutOfFuel
    end.

Notation "x <- m ;; k" := (seq m (fun x => k))
  (at level 61, m at next level, right associativity).
Notation "m ;;; k" := (seq m (fun _ => k))
  (at level 61, right associativity).

Definition with_trace (this : Client) (tr : list event) : Client :=
  mkClient (counter this) (connected this) (heartbeat_outgoing this)
    (heartbeat_incoming this) (maxWebSocketFrameSize this)
    (subscriptions this) (partialData this) (onreceive this)
    (onreceipt this) (pinger this) (ponger this)
    (serverActivity this) tr.

Definition emit (e : event) : M unit :=
  fun this => Done tt (with_trace this (trace this ++ [e])).

Definition lift {A} (r : result A) : M A :=
  fun this =>
    match r with
    | Ret a => Done a this
    | Throw e => Raised e this
    end.

Definition set_counter (n : Z) : M unit :=
  fun this =>
    Done tt (mkClient n (connected this) (heartbeat_outgoing this)
               (heartbeat_incoming this) (maxWebSocketFrameSize this)
               (subscriptions this) (partialData this) (onreceive this)
               (onreceipt this) (pinger this) (ponger this)
               (serverActivity this) (trace this)).

Definition set_connected (b : bool) : M unit :=
  fun this =>
    Done tt (mkClient (counter this) b (heartbeat_outgoing this)
               (heartbeat_incoming this) (maxWebSocketFrameSize this)
               (subscriptions this) (partialData this) (onreceive this)
               (onreceipt this) (pinger this) (ponger this)
               (serverActivity this) (trace this)).

Definition set_subscriptions (s : Obj.t handler) : M unit :=
  fun this =>
    Done tt (mkClient (counter this) (connected this) (heartbeat_outgoing this)
               (heartbeat_incoming this) (maxWebSocketFrameSize this)
               s (partialData this) (onreceive this)
               (onreceipt this) (pinger this) (ponger this)
               (serverActivity this) (trace this)).

Definition set_partialData (d : jsstring) : M unit :=
  fun this =>
    Done tt (mkClient (counter this) (connected this) (heartbeat_outgoing this)
               (heartbeat_incoming this) (maxWebSocketFrameSize this)
               (subscriptions this) d (onreceive this)
               (onreceipt this) (pinger this) (ponger this)
               (serverActivity this) (trace this)).

Definition set_pinger (t : timer) : M unit :=
  fun this =>
    Done tt (mkClient (counter this) (connected this) (heartbeat_outgoing this)
               (heartbeat_incoming this) (maxWebSocketFrameSize this)
               (subscriptions this) (partialData this) (onreceive this)
               (onreceipt this) (Some t) (ponger this)
               (serverActivity this) (trace this)).

Definition set_ponger (t : timer) : M unit :=
  fun this =>
    Done tt (mkClient (counter this) (connected this) (heartbeat_outgoing this)
               (heartbeat_incoming this) (maxWebSocketFrameSize this)
               (subscriptions this) (partialData this) (onreceive this)
               (onreceipt this) (pinger this) (Some t)
               (serverActivity this) (trace this)).

Definition set_serverActivity (now : Z) : M unit :=
  fun this =>
    Done tt (mkClient (counter this) (connected this) (heartbeat_outgoing this)
               (heartbeat_incoming this) (maxWebSocketFrameSize this)
               (subscriptions this) (partialData this) (onreceive this)
               (onreceipt this) (pinger this) (ponger this)
               now (trace this)).

Definition the (A : Type) (field : Client -> A) : M A :=
  fun this => Done (field this) this.
Arguments the {A} field.

(** [this.debug(message)] and [this.ws.send(data)]. *)
Definition debug (message : jsstring) : M unit := emit (Log message).
Definition ws_send (data : jsstring) : M unit := emit (Send data).

(** The loop of [_transmit]. *)
Fixpoint transmit_loop (fuel : nat) (out : jsstring) : M unit :=
  match fuel with
  | O => fun _ => OutOfFuel
  | S fuel' =>
      size <- the maxWebSocketFrameSize ;;
      if (Z.of_nat (length out) >? size)%Z then
        ws_send (substring out 0 size) ;;;
        let out := substring_from out size in
        debug (lit "remaining = " ++ number_to_string (Z.of_nat (length out))) ;;;
        transmit_loop fuel' out
      else ws_send out
  end.

(** [this._transmit(command, headers, body)]; a call without a body passes
    [undefined], which the constructor of [Frame] replaces by the empty
    string.  The headers object of the caller is returned as the call
    leaves it. *)
Definition _transmit (fuel : nat) (command : jsstring) (headers : Obj.t jsval)
    (body : jsstring) : M (Obj.t jsval) :=
  let '(text, mkFrame _ headers _) := marshall command headers body in
  out <- lift text ;;
  debug (lit ">>> " ++ out) ;;;
  transmit_loop fuel out ;;;
  ret headers.

(** *** The table of subscriptions

    [this.subscriptions] starts as [{}], and the source only assigns to it
    and deletes from it: it never has an own property [__proto__].
    Assigning a function under that key reaches the setter it inherits
    from [Object.prototype], which makes the function the prototype of the
    table.  In the model an entry under [__proto__] stands for that
    prototype; without one the prototype is [Object.prototype]. *)

(** [this.subscriptions[id] = callback], for a callback that is a
    function. *)
Definition table_assign (subs : Obj.t handler) (id : jsstring) (callback : handler)
  : Obj.t handler :=
  Obj.put subs id callback.

(** [delete this.subscriptions[id]]: own properties only, so the prototype
    stays. *)
Definition table_delete (subs : Obj.t handler) (id : jsstring) : Obj.t handler :=
  if str_eqb id Obj.proto_key then subs else Obj.delete subs id.

(** The functions of [Object.prototype], which every object made by [{}]
    inherits; its one other property is the accessor [__proto__]. *)
Definition Object_prototype_functions : list jsstring :=
  [lit "constructor"; lit "hasOwnProperty"; lit "isPrototypeOf";
   lit "propertyIsEnumerable"; lit "toLocaleString"; lit "toString";
   lit "valueOf"; lit "__defineGetter__"; lit "__defineSetter__";
   lit "__lookupGetter__"; lit "__lookupSetter__"].

(** [this.subscribe(destination, callback, headers)]; the value is the [id]
    of the handle it returns. *)
Definition subscribe (fuel : nat) (destination : jsstring) (callback : handler)
    (headers : Obj.t jsval) : M jsval :=
  headers <-
    (if negb (truthy (read (Obj.get headers (lit "id")))) then
       n <- the counter ;;
       set_counter (n + 1) ;;;
       ret (Obj.set headers (lit "id") (VStr (lit "sub-" ++ number_to_string n)))
     else ret headers) ;;
  let headers := Obj.set headers (lit "destination") (VStr destination) in
  let id := read (Obj.get headers (lit "id")) in
  subs <- the subscriptions ;;
  set_subscriptions (table_assign subs (to_string id) callback) ;;;
  headers <- _transmit fuel (lit "SUBSCRIBE") headers [] ;;
  ret (read (Obj.get headers (lit "id"))).

(** [this.unsubscribe(id)]. *)
Definition unsubscribe (fuel : nat) (id : jsval) : M unit :=
  subs <- the subscriptions ;;
  set_subscriptions (table_delete subs (to_string id)) ;;;
  _transmit fuel (lit "UNSUBSCRIBE") (Obj.set Obj.empty (lit "id") id) [] ;;;
  ret tt.

(** [`${frame}`]: the text of a frame inside a log message. *)
Definition frame_text (frame : Frame) : M jsstring :=
  lift (fst (toString frame)).

(** What a truthy value found in the table of subscriptions is when the
    handler calls it: a function, or a value that cannot be called. *)
Inductive callee :=
| Fn (f : handler)
| NotCallable.

(** A statement that assigns to a variable declared nowhere: the body of a
    class is strict code, so once the right-hand side is evaluated the
    assignment raises [ReferenceError]. *)
Definition assign_undeclared {A} (value : A) : M A :=
  lift (Throw ReferenceError).

Section Versions.

(** [Stomp.VERSIONS.V1_1] and [Stomp.VERSIONS.V1_2]: the object [Stomp] is
    declared nowhere in the source files, so the two version strings are
    parameters. *)
Variables V1_1 V1_2 : jsval.

(** The functions the handler calls are not in the source files either:
    [builtin name] is the function [Object.prototype] has under [name];
    [member f k] is what reading the property [k] of the application
    function [f] finds, along its own prototype chain, when that is
    truthy; [run f frame] is what calling [f] with [frame] does, to the
    client among others. *)
Variable builtin : jsstring -> handler.
Variable member : handler -> jsstring -> option callee.
Variable run : handler -> Frame -> M unit.

(** [this.subscriptions[id]] when it is truthy: an own property; else what
    the prototype of the table gives, which for [__proto__] is that
    prototype itself. *)
Definition lookup (subs : Obj.t handler) (id : jsstring) : option callee :=
  if str_eqb id Obj.proto_key then
    match Obj.get subs Obj.proto_key with
    | Some f => Some (Fn f)
    | None => Some NotCallable
    end
  else
    match Obj.get subs id with
    | Some f => Some (Fn f)
    | None =>
        match Obj.get subs Obj.proto_key with
        | Some f => member f id
        | None =>
            if existsb (str_eqb id) Object_prototype_functions
            then Some (Fn (builtin id))
            else None
        end
    end.

(** [f(frame)] for a function of the application. *)
Definition call (f : handler) (frame : Frame) : M unit :=
  emit (Invoke f frame) ;;; run f frame.

(** [a !== b] on the values of the model. *)
Definition strict_neq (a b : jsval) : bool :=
  match a, b with
  | VUndefined, VUndefined => false
  | VBool x, VBool y => negb (Bool.eqb x y)
  | VStr x, VStr y => negb (str_eqb x y)
  | _, _ => true
  end.

(** [headers['heart-beat'].split(',').map(v => parseInt(v, 10))], of which
    the first two elements are read; a header that is not a string has no
    [split] to call, which raises [TypeError], and an element that is
    missing counts as [NaN]. *)
Definition server_heartbeat (headers : Obj.t jsval) : result (jsnum * jsnum) :=
  match Obj.get headers (lit "heart-beat") with
  | Some (VStr v) =>
      let parts := map parseInt (split 44%N v) in
      Ret (hd None parts, hd None (tl parts))
  | _ => Throw TypeError
  end.

(** [a === 0] and [Math.max(a, b)] on a number that may be [NaN]. *)
Definition is_zero (n : jsnum) : bool :=
  match n with
  | Some z => (z =? 0)%Z
  | None => false
  end.

(** [this._setupHeartbeat(headers)].  [serverOutgoing] and [serverIncoming]
    are assigned without a declaration; both calls of [setInterval] pass
    the function alone. *)
Definition _setupHeartbeat (headers : Obj.t jsval) : M unit :=
  let version := read (Obj.get headers (lit "version")) in
  if strict_neq version V1_1 || strict_neq version V1_2 then ret tt
  else
    sv <- lift (server_heartbeat headers) ;;
    sv <- assign_undeclared sv ;;
    let '(serverOutgoing, serverIncoming) := sv in
    outgoing <- the heartbeat_outgoing ;;
    (if negb ((outgoing =? 0)%Z || is_zero serverIncoming) then
       debug (lit "send PING every #{ttl}ms") ;;;
       set_pinger (mkTimer SendPing None)
     else ret tt) ;;;
    incoming <- the heartbeat_incoming ;;
    (if negb ((incoming =? 0)%Z || is_zero serverOutgoing) then
       debug (lit "check PONG every #{ttl}ms") ;;;
       set_ponger (mkTimer CheckPong None)
     else ret tt).

(** The body of the [forEach] in the message handler: one frame
    dispatched on its command. *)
Definition dispatch (connectCallback errorCallback : option handler)
    (frame : Frame) : M unit :=
  if str_eqb (command frame) (lit "CONNECTED") then
    debug (lit "connected to server "
           ++ to_string (read (Obj.get (headers frame) (lit "server")))) ;;;
    set_connected true ;;;
    _setupHeartbeat (headers frame) ;;;
    match connectCallback with
    | Some f => call f frame
    | None => ret tt
    end
  else if str_eqb (command frame) (lit "MESSAGE") then
    let subscription := read (Obj.get (headers frame) (lit "subscription")) in
    subs <- the subscriptions ;;
    default <- the onreceive ;;
    let onreceive :=
      match lookup subs (to_string subscription) with
      | Some found => Some found
      | None => option_map Fn default
      end in
    match onreceive with
    | Some found =>
        let messageID := read (Obj.get (headers frame) (lit "message-id")) in
        match found with
        | Fn f =>
            emit (InvokeMessage f frame messageID subscription) ;;;
            run f frame
        | NotCallable => lift (Throw TypeError)
        end
    | None =>
        text <- frame_text frame ;;
        debug (lit "Unhandled received MESSAGE: " ++ text)
    end
  else if str_eqb (command frame) (lit "RECEIPT") then
    f <- the onreceipt ;;
    match f with
    | Some f => call f frame
    | None => ret tt
    end
  else if str_eqb (command frame) (lit "ERROR") then
    match errorCallback with
    | Some f => call f frame
    | None => ret tt
    end
  else
    text <- frame_text frame ;;
    debug (lit "Unhandled frame: " ++ text).

Fixpoint for_each {A} (f : A -> M unit) (l : list A) : M unit :=
  match l with
  | [] => ret tt
  | a :: l' => f a ;;; for_each f l'
  end.

(** [this.ws.onmessage], as [connect] installs it, for a text message
    [data] that arrives at time [now]. *)
Definition onmessage (connectCallback errorCallback : option handler)
    (now : Z) (data : jsstring) : M unit :=
  set_serverActivity now ;;;
  if str_eqb data Byte_obj_LF then debug (lit "<<< PONG")
  else
    debug (lit "<<< " ++ data) ;;;
    partialData <- the partialData ;;
    unmarshalledData <- lift (unmarshall (partialData ++ data)) ;;
    set_partialData (partial unmarshalledData) ;;;
    for_each (dispatch connectCallback errorCallback) (frames unmarshalledData).

End Versions.

(** ** Notions the properties are stated with *)

(** The name and the value [unmarshallSingle] reads from one header line. *)
Definition header_name (line : jsstring) : jsstring :=
  trim (substring line 0 (indexOf line colon)).

Definition header_value (line : jsstring) : jsstring :=
  trim (substring_from line (indexOf line colon + 1)).

(** The header lines of a wire frame, in wire order: the lines between the
    command and the first blank line. *)
Definition header_lines (data : jsstring) : list jsstring :=
  tl (split LF (substring data 0 (indexOf data (BYTES_LF ++ BYTES_LF)))).

(** A text without two consecutive line feeds has no divider between
    headers and body. *)
Definition no_divider (data : jsstring) : Prop :=
  forall a b, data <> a ++ [LF; LF] ++ b.

Definition not_nul (c : N) : bool := negb (N.eqb c NUL).

(** A string of the language is made of 16-bit code units. *)
Definition code_units (s : jsstring) : Prop :=
  Forall (fun c => (c < 65536)%N) s.

(** The code points a string encodes in UTF-16; there are none when a
    surrogate stands without its partner. *)
Fixpoint code_points (s : jsstring) : option (list N) :=
  match s with
  | [] => Some []
  | c :: r =>
      if is_high_surrogate c then
        match r with
        | k :: r' =>
            if is_low_surrogate k
            then option_map (cons (pair_code_point c k)) (code_points r')
            else None
        | [] => None
        end
      else if is_low_surrogate c then None
      else option_map (cons c) (code_points r)
  end.

(** Number of bytes of one code point in UTF-8. *)
Definition utf8_size (v : N) : nat :=
  if (v <? 128)%N then 1
  else if (v <? 2048)%N then 2
  else if (v <? 65536)%N then 3
  else 4.

(** The encoded byte count of a text, in the words of the specification:
    every character counted by its encoded byte length. *)
Definition encoded_byte_count (s : jsstring) : option nat :=
  option_map (fun cps => list_sum (map utf8_size cps)) (code_points s).

(** A text of ASCII characters: one byte each in UTF-8. *)
Definition ascii_text (s : jsstring) : Prop := Forall (fun c => (c < 128)%N) s.


(** Header names and values that the wire format carries unchanged: no
    line feed, no colon in a name, and no white space at either end. *)
Definition clean_name (k : jsstring) : Prop :=
  ~ In LF k /\ ~ In 58%N k /\ trim k = k.

Definition clean_value (s : jsstring) : Prop :=
  ~ In LF s /\ trim s = s.

Definition clean_headers (hs : Obj.t jsval) : Prop :=
  forall k, In k (Obj.keys hs) ->
    clean_name k /\ exists s, Obj.get hs k = Some (VStr s) /\ clean_value s.

(** The header [toString] adds for the body of a frame: none for an empty
    body, else a content-length of as many bytes as an ASCII body has
    characters. *)
Definition added_content_length (bd : jsstring) : option jsstring :=
  match bd with
  | [] => None
  | _ => Some (number_to_string (Z.of_nat (length bd)))
  end.

(** An id that names nothing an object made by [{}] inherits. *)
Definition plain_id (id : jsstring) : Prop :=
  str_eqb id Obj.proto_key = false
  /\ existsb (str_eqb id) Object_prototype_functions = false.

(** The length of the text [marshall] returns, and 0 when it raises. *)
Definition text_length (command : jsstring) (headers : Obj.t jsval)
    (body : jsstring) : nat :=
  match fst (marshall command headers body) with
  | Ret text => length text
  | Throw _ => 0
  end.

(** The payloads handed to [ws.send], in order. *)
Fixpoint sends (tr : list event) : list jsstring :=
  match tr with
  | [] => []
  | Send data :: tr' => data :: sends tr'
  | _ :: tr' => sends tr'
  end.

(** The application functions called, in order. *)
Fixpoint invoked (tr : list event) : list handler :=
  match tr with
  | [] => []
  | Invoke f _ :: tr' => f :: invoked tr'
  | InvokeMessage f _ _ _ :: tr' => f :: invoked tr'
  | _ :: tr' => invoked tr'
  end.

(** ** The other methods of [Client] that transmit a frame *)

(** [this.send(destination, headers, body)]; the headers object of the
    caller is returned as the call leaves it. *)
Definition send (fuel : nat) (destination : jsstring) (headers : Obj.t jsval)
    (body : jsstring) : M (Obj.t jsval) :=
  let headers := Obj.set headers (lit "destination") (VStr destination) in
  _transmit fuel (lit "SEND") headers body.

(** [this.begin(transaction)]: the default [`tx-${this.counter++}`] stands
    in for an argument that is [undefined]; the value is the [id] of the
    handle it returns. *)
Definition begin (fuel : nat) (transaction : jsval) : M jsval :=
  transaction <-
    (match transaction with
     | VUndefined =>
         n <- the counter ;;
         set_counter (n + 1) ;;;
         ret (VStr (lit "tx-" ++ number_to_string n))
     | _ => ret transaction
     end) ;;
  _transmit fuel (lit "BEGIN")
    (Obj.set Obj.empty (lit "transaction") transaction) [] ;;;
  ret transaction.

(** [this.commit(transaction)] and [this.abort(transaction)]. *)
Definition commit (fuel : nat) (transaction : jsval) : M unit :=
  _transmit fuel (lit "COMMIT")
    (Obj.set Obj.empty (lit "transaction") transaction) [] ;;;
  ret tt.

Definition abort (fuel : nat) (transaction : jsval) : M unit :=
  _transmit fuel (lit "ABORT")
    (Obj.set Obj.empty (lit "transaction") transaction) [] ;;;
  ret tt.

(** [this.ack(messageID, subscription, headers)] and [this.nack], which
    differs by its command only. *)
Definition ack (fuel : nat) (messageID subscription : jsval)
    (headers : Obj.t jsval) : M (Obj.t jsval) :=
  let headers := Obj.set headers (lit "message-id") messageID in
  let headers := Obj.set headers (lit "subscription") subscription in
  _transmit fuel (lit "ACK") headers [].

Definition nack (fuel : nat) (messageID subscription : jsval)
    (headers : Obj.t jsval) : M (Obj.t jsval) :=
  let headers := Obj.set headers (lit "message-id") messageID in
  let headers := Obj.set headers (lit "subscription") subscription in
  _transmit fuel (lit "NACK") headers [].

(** ** More notions the properties are stated with *)

(** The client as a method leaves it, whether it returns or raises. *)
Definition final_state (A : Type) (o : outcome A) : option Client :=
  match o with
  | Done _ this => Some this
  | Raised _ this => Some this
  | OutOfFuel => None
  end.
Arguments final_state {A} o.

(** * Properties *)

(** ** Strings and objects *)

Lemma str_eqb_eq (a b : jsstring) : str_eqb a b = true <-> a = b.
Proof.
  revert b; induction a as [|x a IH]; intros [|y b]; simpl; split; intro H;
    try discriminate; try reflexivity.
  - apply andb_prop in H as [H1 H2]. apply N.eqb_eq in H1.
    apply IH in H2. congruence.
  - injection H as -> ->. rewrite N.eqb_refl. simpl. now apply IH.
Qed.

Lemma str_eqb_refl (a : jsstring) : str_eqb a a = true.
Proof. now apply str_eqb_eq. Qed.

Lemma str_eqb_neq (a b : jsstring) : a <> b -> str_eqb a b = false.
Proof.
  intro H. destruct (str_eqb a b) eqn:E; [|reflexivity].
  apply str_eqb_eq in E. contradiction.
Qed.

Lemma str_eqb_false (a b : jsstring) : str_eqb a b = false -> a <> b.
Proof. intros H ->. rewrite str_eqb_refl in H. discriminate. Qed.

Ltac case_str a b :=
  let E := fresh "E" in
  destruct (str_eqb a b) eqn:E;
  [apply str_eqb_eq in E | pose proof (str_eqb_false _ _ E)].

Section ObjFacts.

Variable V : Type.
Implicit Types (o : Obj.t V) (k : jsstring) (v : V).

Lemma has_get_none o k : Obj.has o k = false -> Obj.get o k = None.
Proof.
  induction o as [|[k1 v1] o IH]; simpl; [reflexivity|].
  intro H. apply orb_false_elim in H as [H1 H2]. rewrite H1. auto.
Qed.

Lemma get_update o k v k' :
  Obj.get (Obj.update o k v) k'
  = if str_eqb k k' then (if Obj.has o k then Some v else None)
    else Obj.get o k'.
Proof.
  induction o as [|[k1 v1] o IH]; simpl.
  - now destruct (str_eqb k k').
  - case_str k1 k; simpl.
    + subst k1. destruct (str_eqb k k'); simpl; [reflexivity|]. apply IH.
    + case_str k1 k'; simpl.
      * subst k'. rewrite (str_eqb_neq k k1) by congruence. reflexivity.
      * apply IH.
Qed.

Lemma get_insert_index n o k v k' :
  Obj.has o k = false ->
  Obj.get (Obj.insert_index n k v o) k'
  = if str_eqb k k' then Some v else Obj.get o k'.
Proof.
  induction o as [|[k1 v1] o IH]; simpl; intro H.
  - now destruct (str_eqb k k').
  - apply orb_false_elim in H as [H1 H2].
    destruct (Obj.array_index k1) as [m|]; [destruct (m <? n)%N|]; simpl;
      try reflexivity.
    rewrite (IH H2). case_str k k'; [|reflexivity].
    subst k'. now rewrite H1.
Qed.

Lemma get_app o k v k' :
  Obj.get (o ++ [(k, v)]) k'
  = match Obj.get o k' with
    | Some x => Some x
    | None => if str_eqb k k' then Some v else None
    end.
Proof.
  induction o as [|[k1 v1] o IH]; simpl; [reflexivity|].
  now destruct (str_eqb k1 k').
Qed.

Lemma get_put o k v k' :
  Obj.get (Obj.put o k v) k' = if str_eqb k k' then Some v else Obj.get o k'.
Proof.
  unfold Obj.put. destruct (Obj.has o k) eqn:H.
  - rewrite get_update, H. reflexivity.
  - destruct (Obj.array_index k).
    + now apply get_insert_index.
    + rewrite get_app. case_str k k'.
      * subst k'. now rewrite (has_get_none _ _ H).
      * now destruct (Obj.get o k').
Qed.

Lemma get_delete o k k' :
  Obj.get (Obj.delete o k) k' = if str_eqb k k' then None else Obj.get o k'.
Proof.
  induction o as [|[k1 v1] o IH]; simpl.
  - now destruct (str_eqb k k').
  - case_str k1 k; simpl.
    + subst k1. rewrite IH. now destruct (str_eqb k k').
    + rewrite IH. case_str k1 k'; [|reflexivity].
      subst k'. now rewrite (str_eqb_neq k k1) by congruence.
Qed.

Lemma keys_delete o k : ~ In k (Obj.keys (Obj.delete o k)).
Proof.
  unfold Obj.keys, Obj.delete. intro H. apply in_map_iff in H as [[k1 v1] [E H]].
  apply filter_In in H as [_ H]. simpl in *. subst.
  now rewrite str_eqb_refl in H.
Qed.

Lemma has_get o k :
  Obj.has o k = match Obj.get o k with Some _ => true | None => false end.
Proof.
  induction o as [|[k1 v1] o IH]; [reflexivity|].
  cbn [Obj.has existsb Obj.get fst]. destruct (str_eqb k1 k); [reflexivity|].
  exact IH.
Qed.

End ObjFacts.

(** An assignment to a key that is not [__proto__]. *)
Lemma get_set (o : Obj.t jsval) (k : jsstring) (v : jsval) (k' : jsstring) :
  str_eqb k Obj.proto_key = false ->
  Obj.get (Obj.set o k v) k' = if str_eqb k k' then Some v else Obj.get o k'.
Proof.
  intro H. unfold Obj.set. rewrite H, andb_false_r. apply get_put.
Qed.

(** An assignment to any key, on an object without an own [__proto__]. *)
Lemma get_set_any (o : Obj.t jsval) (k : jsstring) (v : jsval) (k' : jsstring) :
  Obj.get o Obj.proto_key = None ->
  Obj.get (Obj.set o k v) k'
  = if str_eqb k' Obj.proto_key then None
    else if str_eqb k k' then Some v else Obj.get o k'.
Proof.
  intro H. unfold Obj.set. destruct (str_eqb k Obj.proto_key) eqn:Ek.
  - apply str_eqb_eq in Ek. subst k.
    rewrite (has_get _ o), H. cbn [negb andb].
    destruct (str_eqb k' Obj.proto_key) eqn:Ek'.
    + apply str_eqb_eq in Ek'. now subst k'.
    + rewrite (str_eqb_neq Obj.proto_key k'); [reflexivity|].
      intros <-. now rewrite str_eqb_refl in Ek'.
  - rewrite andb_false_r, get_put.
    destruct (str_eqb k' Obj.proto_key) eqn:Ek'; [|reflexivity].
    apply str_eqb_eq in Ek'. subst k'. now rewrite Ek.
Qed.

Lemma starts_with_app (p s : jsstring) :
  starts_with p s = true <-> exists b, s = p ++ b.
Proof.
  revert s; induction p as [|x p IH]; intros s; simpl.
  - split; [intros _; now exists s | reflexivity].
  - destruct s as [|y s]; split.
    + discriminate.
    + intros [b H]. discriminate.
    + intro H. apply andb_prop in H as [H1 H2]. apply N.eqb_eq in H1.
      apply IH in H2 as [b ->]. subst. now exists b.
    + intros [b H]. injection H as -> ->. rewrite N.eqb_refl. simpl.
      apply IH. now exists b.
Qed.

Lemma find_substr_some (p s : jsstring) (i : nat) :
  find_substr p s = Some i ->
  exists a b, s = a ++ p ++ b /\ length a = i.
Proof.
  revert i; induction s as [|c s IH]; intros i; simpl.
  - destruct (starts_with p []) eqn:E; [|discriminate].
    intros [= <-]. apply starts_with_app in E as [b ->]. now exists [], b.
  - destruct (starts_with p (c :: s)) eqn:E.
    + intros [= <-]. apply starts_with_app in E as [b ->]. now exists [], b.
    + destruct (find_substr p s) as [j|]; [|discriminate].
      intros [= <-]. destruct (IH j eq_refl) as (a & b & -> & L).
      exists (c :: a), b. simpl. now rewrite L.
Qed.

Lemma find_substr_app (p a b : jsstring) : find_substr p (a ++ p ++ b) <> None.
Proof.
  induction a as [|c a IH]; simpl.
  - assert (E : starts_with p (p ++ b) = true) by (apply starts_with_app; now exists b).
    destruct (p ++ b); simpl; now rewrite E.
  - destruct (starts_with p (c :: a ++ p ++ b)); [discriminate|].
    now destruct (find_substr p (a ++ p ++ b)).
Qed.

Lemma find_substr_none_no_divider (data : jsstring) :
  find_substr [LF; LF] data = None -> no_divider data.
Proof. intros H a b ->. now apply (find_substr_app [LF; LF] a b). Qed.

Lemma no_divider_indexOf (data : jsstring) :
  no_divider data -> indexOf data (BYTES_LF ++ BYTES_LF) = (-1)%Z.
Proof.
  intro H. unfold indexOf.
  destruct (find_substr (BYTES_LF ++ BYTES_LF) data) as [i|] eqn:E; [|reflexivity].
  apply find_substr_some in E as (a & b & E & _). now apply H in E.
Qed.

Lemma clamp_of_nat (len n : nat) : clamp len (Z.of_nat n) = Nat.min n len.
Proof. unfold clamp. lia. Qed.

Lemma clamp_nonpos (len : nat) (i : Z) : (i <= 0)%Z -> clamp len i = 0.
Proof. unfold clamp. lia. Qed.

Lemma substring_firstn_skipn (s : jsstring) (i j : nat) :
  i <= j ->
  substring s (Z.of_nat i) (Z.of_nat j) = firstn (j - i) (skipn i s).
Proof.
  intro H. unfold substring. rewrite !clamp_of_nat.
  set (a := Nat.min i (length s)). set (b := Nat.min j (length s)).
  assert (Hab : a <= b) by lia.
  rewrite (Nat.max_r a b), (Nat.min_l a b) by exact Hab.
  destruct (Nat.le_gt_cases j (length s)) as [Hj|Hj].
  - replace a with i by lia. now replace b with j by lia.
  - destruct (Nat.le_gt_cases i (length s)) as [Hi|Hi].
    + replace a with i by lia.
      rewrite !firstn_all2; try reflexivity; rewrite length_skipn; lia.
    + replace a with (length s) by lia.
      rewrite (skipn_all2 (n := i)) by lia.
      rewrite skipn_all. now rewrite !firstn_nil.
Qed.

Lemma substring_prefix (s : jsstring) (j : nat) :
  substring s 0 (Z.of_nat j) = firstn j s.
Proof.
  change 0%Z with (Z.of_nat 0). rewrite substring_firstn_skipn by lia.
  now rewrite Nat.sub_0_r.
Qed.

Lemma substring_to_nonpos (s : jsstring) (j : Z) :
  (j <= 0)%Z -> substring s 0 j = [].
Proof.
  intro H. unfold substring. rewrite (clamp_nonpos _ _ H).
  now rewrite (clamp_nonpos (length s) 0%Z) by lia.
Qed.

Lemma substring_from_skipn (s : jsstring) (i : nat) :
  substring_from s (Z.of_nat i) = skipn i s.
Proof.
  unfold substring_from. rewrite clamp_of_nat.
  destruct (Nat.le_gt_cases i (length s)) as [Hi|Hi].
  - now replace (Nat.min i (length s)) with i by lia.
  - replace (Nat.min i (length s)) with (length s) by lia.
    now rewrite !skipn_all2 by lia.
Qed.

Lemma substring_from_nonpos (s : jsstring) (i : Z) :
  (i <= 0)%Z -> substring_from s i = s.
Proof. intro H. unfold substring_from. now rewrite (clamp_nonpos _ _ H). Qed.

Lemma split_not_nil (c : N) (s : jsstring) : split c s <> [].
Proof.
  destruct s as [|x s]; simpl; [discriminate|].
  destruct (N.eqb x c); [discriminate|]. now destruct (split c s).
Qed.

Lemma scan_body_take_while (rest body : jsstring) :
  scan_body rest body = body ++ take_while not_nul rest.
Proof.
  revert body; induction rest as [|c rest IH]; intro body; simpl.
  - now rewrite app_nil_r.
  - unfold not_nul at 1. destruct (N.eqb c NUL); simpl.
    + now rewrite app_nil_r.
    + rewrite IH, <- app_assoc. reflexivity.
Qed.

(** ** Headers of a parsed frame *)

Lemma parse_header_eq (hs : Obj.t jsval) (line : jsstring) :
  parse_header hs line
  = Obj.set hs (header_name line) (VStr (header_value line)).
Proof. reflexivity. Qed.

(** The header loop binds a name to the value of the first line, in wire
    order, that carries it. *)
Lemma get_parsed_headers_any (lines : list jsstring) (k : jsstring) :
  Obj.get (fold_left parse_header (rev lines) Obj.empty) k
  = if str_eqb k Obj.proto_key then None
    else match find (fun l => str_eqb (header_name l) k) lines with
         | Some l => Some (VStr (header_value l))
         | None => None
         end.
Proof.
  induction lines as [|l lines IH]; simpl.
  - now destruct (str_eqb k Obj.proto_key).
  - rewrite fold_left_app. simpl. rewrite parse_header_eq, get_set_any.
    + destruct (str_eqb k Obj.proto_key); [reflexivity|].
      destruct (str_eqb (header_name l) k); [reflexivity|].
      rewrite IH. reflexivity.
    + specialize (IH). clear IH.
      induction lines as [|l' lines IH']; [reflexivity|].
      simpl. rewrite fold_left_app. simpl. rewrite parse_header_eq.
      rewrite get_set_any by exact IH'. now rewrite str_eqb_refl.
Qed.

(** No line makes [__proto__] a property of the headers. *)
Lemma parsed_no_proto (lines : list jsstring) :
  Obj.get (fold_left parse_header (rev lines) Obj.empty) Obj.proto_key = None.
Proof. rewrite get_parsed_headers_any. now rewrite str_eqb_refl. Qed.

Lemma get_parsed_headers (lines : list jsstring) (k : jsstring) :
  str_eqb k Obj.proto_key = false ->
  Obj.get (fold_left parse_header (rev lines) Obj.empty) k
  = match find (fun l => str_eqb (header_name l) k) lines with
    | Some l => Some (VStr (header_value l))
    | None => Obj.get Obj.empty k
    end.
Proof. intro H. rewrite get_parsed_headers_any, H. reflexivity. Qed.

Lemma unmarshallSingle_headers (data : jsstring) :
  headers (unmarshallSingle data)
  = fold_left parse_header (rev (header_lines data)) Obj.empty.
Proof. reflexivity. Qed.

(** C3, as amended. Duplicate headers, first occurrence wins: when the
    header block of a wire frame has a line [l1] and, further from the
    command, a line [l2] with the same header name, and no line nearer to
    the command than [l1] has that name, [unmarshallSingle] binds the name
    to the value of [l1]; but for the name [__proto__], which it binds to
    nothing. *)
Theorem duplicate_header_first_wins
    (data : jsstring) (before : list jsstring) (l1 : jsstring)
    (between : list jsstring) (l2 : jsstring) (after : list jsstring) :
  header_lines data = before ++ l1 :: between ++ l2 :: after ->
  header_name l2 = header_name l1 ->
  (forall l, In l before -> header_name l <> header_name l1) ->
  Obj.get (headers (unmarshallSingle data)) (header_name l1)
  = if str_eqb (header_name l1) Obj.proto_key then None
    else Some (VStr (header_value l1)).
Proof.
  intros Hlines _ Hbefore.
  rewrite unmarshallSingle_headers, get_parsed_headers_any, Hlines.
  destruct (str_eqb (header_name l1) Obj.proto_key); [reflexivity|].
  clear Hlines. induction before as [|l before IH]; simpl.
  - now rewrite str_eqb_refl.
  - rewrite str_eqb_neq by (apply Hbefore; now left).
    apply IH. intros l' Hl'. apply Hbefore. now right.
Qed.

(** The example of the specification: [a:1] then [a:2] in wire order. *)
Lemma duplicate_header_first_wins_witness :
  Obj.get
    (headers (unmarshallSingle
       (join BYTES_LF [lit "MESSAGE"; lit "a:1"; lit "a:2"; []; lit "body"])))
    (lit "a")
  = Some (VStr (lit "1")).
Proof.
  apply (duplicate_header_first_wins
           (join BYTES_LF [lit "MESSAGE"; lit "a:1"; lit "a:2"; []; lit "body"])
           [] (lit "a:1") [] (lit "a:2") []).
  - reflexivity.
  - reflexivity.
  - intros l [].
Defined.

(** C3 as stated fails on one name: two lines named [__proto__] are both
    assigned through the setter inherited from [Object.prototype], which
    ignores a string, so the headers bind the name to neither value. *)
Lemma duplicate_proto_binds_nothing :
  let data :=
    join BYTES_LF [lit "MESSAGE"; lit "__proto__:1"; lit "__proto__:2"; []; lit "body"] in
  header_lines data = [lit "__proto__:1"; lit "__proto__:2"]
  /\ header_name (lit "__proto__:1") = header_name (lit "__proto__:2")
  /\ Obj.get (headers (unmarshallSingle data)) (lit "__proto__") = None
  /\ headers (unmarshallSingle data) = Obj.empty.
Proof. repeat split. Qed.

(** ** Input without a divider *)

(** C9. Malformed-input totality: [unmarshallSingle] is a function of every
    input string: the array it shifts the command from is never empty, no
    step of it can raise, and on an input with no two consecutive line feeds
    the result is the frame with an empty command, no header, and for body
    the characters from index 1 up to the first NULL. *)
Theorem unmarshallSingle_total (data : jsstring) :
  (exists c ls,
      split LF (substring data 0 (indexOf data (BYTES_LF ++ BYTES_LF))) = c :: ls
      /\ command (unmarshallSingle data) = c)
  /\ (no_divider data ->
      unmarshallSingle data
      = mkFrame [] Obj.empty (take_while not_nul (skipn 1 data))).
Proof.
  split.
  - destruct (split LF (substring data 0 (indexOf data (BYTES_LF ++ BYTES_LF))))
      as [|c ls] eqn:E.
    + now apply split_not_nil in E.
    + exists c, ls. split; [reflexivity|].
      unfold unmarshallSingle. cbn [command]. now rewrite E.
  - intro H. unfold unmarshallSingle. rewrite (no_divider_indexOf data H).
    rewrite substring_to_nonpos by lia. simpl.
    change 1%Z with (Z.of_nat 1).
    now rewrite substring_from_skipn, scan_body_take_while.
Qed.

Lemma unmarshallSingle_total_witness :
  no_divider (lit "xSEND")
  /\ unmarshallSingle (lit "xSEND") = mkFrame [] Obj.empty (lit "SEND").
Proof.
  assert (H : no_divider (lit "xSEND")).
  { now apply find_substr_none_no_divider. }
  split; [exact H|].
  exact (proj2 (unmarshallSingle_total (lit "xSEND")) H).
Defined.

(** ** [sizeOfUTF8] counts encoded bytes *)

Lemma uri_unescaped_plain (c : N) :
  uri_unescaped c = true -> c <> 37%N /\ re_dot c = true.
Proof.
  intro H. split.
  - intros ->. discriminate H.
  - destruct (re_dot c) eqn:E; [reflexivity|].
    unfold re_dot in E. apply negb_false_iff in E.
    repeat (apply orb_prop in E as [E|E]); apply N.eqb_eq in E; subst c;
      discriminate H.
Qed.

Lemma match_all_plain (c : N) (e : jsstring) :
  c <> 37%N -> re_dot c = true -> match_all (c :: e) = [c] :: match_all e.
Proof.
  intros Hc Hd. simpl. rewrite Hd.
  apply N.eqb_neq in Hc. rewrite Hc. simpl.
  destruct e as [|d1 [|d2 e']]; reflexivity.
Qed.

Lemma hex_digit_dot (d : N) : (d < 16)%N -> re_dot (hex_digit d) = true.
Proof.
  intro H. unfold re_dot, hex_digit.
  destruct (d <? 10)%N; apply negb_true_iff;
    repeat (apply orb_false_intro); apply N.eqb_neq; lia.
Qed.

Lemma match_all_percent (b : N) (e : jsstring) :
  (b < 256)%N ->
  match_all (percent_octet b ++ e) = percent_octet b :: match_all e.
Proof.
  intro H. unfold percent_octet. simpl app.
  cbn [match_all]. rewrite N.eqb_refl.
  rewrite !hex_digit_dot; [reflexivity| |].
  - apply N.mod_lt. discriminate.
  - apply N.Div0.div_lt_upper_bound. lia.
Qed.

Lemma match_all_percent_octets (bs : list N) (e : jsstring) :
  Forall (fun b => (b < 256)%N) bs ->
  match_all (percent_octets bs ++ e) = map percent_octet bs ++ match_all e.
Proof.
  induction 1 as [|b bs Hb _ IH]; [reflexivity|].
  change (percent_octets (b :: bs)) with (percent_octet b ++ percent_octets bs).
  rewrite <- app_assoc, match_all_percent by exact Hb. simpl. now rewrite IH.
Qed.

Lemma mod64_lt (x : N) : (128 + x mod 64 < 256)%N.
Proof. pose proof (N.mod_lt x 64). lia. Qed.

Lemma utf8_octets_bytes (v : N) :
  (v < 1114112)%N -> Forall (fun b => (b < 256)%N) (utf8_octets v).
Proof.
  intro H. unfold utf8_octets.
  destruct (N.ltb_spec v 128); [|destruct (N.ltb_spec v 2048);
    [|destruct (N.ltb_spec v 65536)]];
    repeat constructor; try apply mod64_lt; try lia.
  - assert (v / 64 < 32)%N by (apply N.Div0.div_lt_upper_bound; lia). lia.
  - assert (v / 4096 < 16)%N by (apply N.Div0.div_lt_upper_bound; lia). lia.
  - assert (v / 262144 < 5)%N by (apply N.Div0.div_lt_upper_bound; lia). lia.
Qed.

Lemma utf8_octets_length (v : N) : length (utf8_octets v) = utf8_size v.
Proof.
  unfold utf8_octets, utf8_size.
  destruct (v <? 128)%N; [reflexivity|].
  destruct (v <? 2048)%N; [reflexivity|].
  now destruct (v <? 65536)%N.
Qed.

Lemma uri_unescaped_ascii (c : N) : uri_unescaped c = true -> (c < 128)%N.
Proof.
  unfold uri_unescaped, is_digit. simpl existsb. intro H.
  repeat (apply orb_prop in H as [H|H]);
    try (apply andb_prop in H as [_ H]; apply N.leb_le in H; lia);
    try (apply N.eqb_eq in H; subst c; reflexivity);
    discriminate H.
Qed.

Lemma surrogates_disjoint (c : N) :
  is_high_surrogate c = true -> is_low_surrogate c = false.
Proof.
  unfold is_high_surrogate, is_low_surrogate. intro H.
  apply andb_prop in H as [_ H]. apply N.leb_le in H.
  apply andb_false_intro1. apply N.leb_gt. lia.
Qed.

Lemma pair_code_point_bound (hi lo : N) :
  is_high_surrogate hi = true -> is_low_surrogate lo = true ->
  (65536 <= pair_code_point hi lo < 1114112)%N.
Proof.
  unfold is_high_surrogate, is_low_surrogate, pair_code_point. intros H1 H2.
  apply andb_prop in H1 as [H1 H1'], H2 as [H2 H2'].
  apply N.leb_le in H1, H1', H2, H2'. lia.
Qed.

Lemma length_percent_matches (v : N) (e : jsstring) :
  (v < 1114112)%N ->
  length (match_all (percent_octets (utf8_octets v) ++ e))
  = utf8_size v + length (match_all e).
Proof.
  intro H. rewrite match_all_percent_octets by now apply utf8_octets_bytes.
  now rewrite length_app, length_map, utf8_octets_length.
Qed.

(** [encodeURI] followed by the match of [/%..|./g] yields one match per
    encoded byte, and [encodeURI] raises exactly on the strings that have no
    encoding. *)
Lemma encodeURI_matches (s : jsstring) :
  code_units s ->
  match code_points s with
  | Some cps =>
      exists e, encodeURI s = Ret e
                /\ length (match_all e) = list_sum (map utf8_size cps)
  | None => encodeURI s = Throw URIError
  end.
Proof.
  remember (length s) as n eqn:Hn.
  revert s Hn. induction n as [n IH] using lt_wf_ind. intros s Hn Hs.
  destruct s as [|c r]; [now exists []|].
  inversion Hs as [|? ? Hc Hr]; subst.
  cbn [code_points encodeURI].
  destruct (uri_unescaped c) eqn:Hu.
  - pose proof (uri_unescaped_ascii c Hu) as Hlt.
    destruct (uri_unescaped_plain c Hu) as [H37 Hdot].
    assert (Hh : is_high_surrogate c = false).
    { unfold is_high_surrogate. apply andb_false_intro1, N.leb_gt. lia. }
    assert (Hl : is_low_surrogate c = false).
    { unfold is_low_surrogate. apply andb_false_intro1, N.leb_gt. lia. }
    rewrite Hh, Hl.
    specialize (IH (length r) ltac:(simpl; lia) r eq_refl Hr).
    destruct (code_points r) as [cps|]; simpl.
    + destruct IH as (e & -> & He). exists (c :: e). split; [reflexivity|].
      rewrite match_all_plain by assumption. simpl length.
      unfold utf8_size at 1. apply N.ltb_lt in Hlt. rewrite Hlt. now rewrite He.
    + now rewrite IH.
  - destruct (is_low_surrogate c) eqn:Hl.
    + destruct (is_high_surrogate c) eqn:Hh; [|reflexivity].
      apply surrogates_disjoint in Hh. congruence.
    + destruct (is_high_surrogate c) eqn:Hh; simpl.
      * destruct r as [|k r']; [reflexivity|].
        destruct (is_low_surrogate k) eqn:Hk; [|reflexivity].
        inversion Hr as [|? ? _ Hr']; subst.
        specialize (IH (length r') ltac:(simpl; lia) r' eq_refl Hr').
        pose proof (pair_code_point_bound c k Hh Hk) as Hb.
        destruct (code_points r') as [cps|]; simpl.
        -- destruct IH as (e & -> & He). eexists. split; [reflexivity|].
           rewrite length_percent_matches by lia. now rewrite He.
        -- now rewrite IH.
      * specialize (IH (length r) ltac:(simpl; lia) r eq_refl Hr).
        destruct (code_points r) as [cps|]; simpl.
        -- destruct IH as (e & -> & He). eexists. split; [reflexivity|].
           rewrite length_percent_matches by lia. now rewrite He.
        -- now rewrite IH.
Qed.

Lemma utf8_size_pos (v : N) : 1 <= utf8_size v.
Proof.
  unfold utf8_size.
  destruct (v <? 128)%N; [lia|]. destruct (v <? 2048)%N; [lia|].
  destruct (v <? 65536)%N; lia.
Qed.

Lemma encoded_byte_count_pos (s : jsstring) (n : nat) :
  s <> [] -> encoded_byte_count s = Some n -> 1 <= n.
Proof.
  unfold encoded_byte_count. destruct s as [|c r]; [contradiction|].
  intros _. cbn [code_points].
  destruct (is_high_surrogate c).
  - destruct r as [|k r']; [discriminate|].
    destruct (is_low_surrogate k); [|discriminate].
    destruct (code_points r'); [|discriminate]. simpl. intros [= <-].
    pose proof (utf8_size_pos (pair_code_point c k)). lia.
  - destruct (is_low_surrogate c); [discriminate|].
    destruct (code_points r); [|discriminate]. simpl. intros [= <-].
    pose proof (utf8_size_pos c). lia.
Qed.

(** [sizeOfUTF8] returns the encoded byte count of a text that has one. *)
Lemma sizeOfUTF8_encoded (s : jsstring) (n : nat) :
  code_units s -> encoded_byte_count s = Some n ->
  sizeOfUTF8 s = Ret (Z.of_nat n).
Proof.
  intros Hs Hn. destruct s as [|c r]; [now injection Hn as <-|].
  pose proof (encoded_byte_count_pos (c :: r) n ltac:(discriminate) Hn) as Hpos.
  pose proof (encodeURI_matches (c :: r) Hs) as H.
  unfold encoded_byte_count in Hn.
  destruct (code_points (c :: r)) as [cps|]; [|discriminate].
  simpl in Hn. injection Hn as Hn.
  destruct H as (e & He & Hlen). unfold sizeOfUTF8. rewrite He. simpl.
  unfold match_global. destruct (match_all e) as [|m ms] eqn:Hm.
  - simpl in Hlen. lia.
  - now rewrite Hlen, Hn.
Qed.

(** On a text with an unpaired surrogate [sizeOfUTF8] raises. *)
Lemma sizeOfUTF8_unpaired (s : jsstring) :
  code_units s -> encoded_byte_count s = None ->
  sizeOfUTF8 s = Throw URIError.
Proof.
  intros Hs Hn. destruct s as [|c r]; [discriminate|].
  pose proof (encodeURI_matches (c :: r) Hs) as H.
  unfold encoded_byte_count in Hn.
  destruct (code_points (c :: r)) as [cps|]; [discriminate|].
  unfold sizeOfUTF8. now rewrite H.
Qed.

(** ** The text of a frame *)

Lemma toString_sentinel (cmd : jsstring) (hs : Obj.t jsval) (bd : jsstring) :
  Obj.get hs content_length = Some (VBool false) ->
  toString (mkFrame cmd hs bd)
  = (Ret (join BYTES_LF
            ([cmd]
             ++ map (header_line (Obj.delete hs content_length))
                    (Obj.keys (Obj.delete hs content_length))
             ++ [BYTES_LF ++ bd])),
     mkFrame cmd (Obj.delete hs content_length) bd).
Proof.
  intro H. unfold toString. cbn [headers command body]. rewrite H.
  cbn [read is_false negb]. rewrite andb_false_r. cbn [headers command body bind].
  now rewrite <- app_assoc.
Qed.

Lemma toString_plain (cmd : jsstring) (hs : Obj.t jsval) (bd : jsstring) :
  Obj.get hs content_length <> Some (VBool false) ->
  bd <> [] ->
  toString (mkFrame cmd hs bd)
  = (bind (sizeOfUTF8 bd) (fun n =>
       Ret (join BYTES_LF
              ([cmd] ++ map (header_line hs) (Obj.keys hs)
               ++ [lit "content-length:" ++ number_to_string n]
               ++ [BYTES_LF ++ bd]))),
     mkFrame cmd hs bd).
Proof.
  intros H Hb. unfold toString. cbn [headers command body].
  assert (E : is_false (read (Obj.get hs content_length)) = false).
  { destruct (Obj.get hs content_length) as [[|[|]|]|]; try reflexivity.
    now contradiction H. }
  rewrite E. cbn [negb headers command body].
  destruct bd as [|c bd]; [contradiction|]. cbn [truthy andb].
  destruct (sizeOfUTF8 (c :: bd)); cbn [bind]; [|reflexivity].
  now rewrite <- !app_assoc.
Qed.

Lemma toString_empty_body (cmd : jsstring) (hs : Obj.t jsval) :
  Obj.get hs content_length <> Some (VBool false) ->
  toString (mkFrame cmd hs [])
  = (Ret (join BYTES_LF ([cmd] ++ map (header_line hs) (Obj.keys hs) ++ [BYTES_LF])),
     mkFrame cmd hs []).
Proof.
  intros H. unfold toString. cbn [headers command body].
  assert (E : is_false (read (Obj.get hs content_length)) = false).
  { destruct (Obj.get hs content_length) as [[|[|]|]|]; try reflexivity.
    now contradiction H. }
  rewrite E. cbn [negb headers command body truthy andb bind].
  now rewrite <- app_assoc, app_nil_r.
Qed.

Lemma join_cons (sep l : jsstring) (ls : list jsstring) :
  ls <> [] -> join sep (l :: ls) = l ++ sep ++ join sep ls.
Proof. destruct ls; [contradiction | reflexivity]. Qed.

Lemma join_app (sep : jsstring) (l1 l2 : list jsstring) :
  l1 <> [] -> l2 <> [] ->
  join sep (l1 ++ l2) = join sep l1 ++ sep ++ join sep l2.
Proof.
  intros H1 H2. induction l1 as [|a l1 IH]; [contradiction|].
  destruct l1 as [|b l1].
  - simpl app. now rewrite join_cons.
  - change ((a :: b :: l1) ++ l2) with (a :: (b :: l1) ++ l2).
    rewrite join_cons by discriminate.
    rewrite IH by discriminate.
    rewrite (join_cons sep a (b :: l1)) by discriminate.
    now rewrite <- !app_assoc.
Qed.

(** A text is cut at its first colon in one way only. *)
Lemma first_colon_unique (c : N) (a b x y : jsstring) :
  ~ In c b -> ~ In c y -> a ++ c :: x = b ++ c :: y -> a = b.
Proof.
  revert a; induction b as [|d b IH]; intros a Hb Hy E.
  - destruct a as [|c' a]; [reflexivity|].
    simpl in E. injection E as -> E. exfalso. apply Hy. rewrite <- E.
    apply in_or_app. right. now left.
  - destruct a as [|c' a]; simpl in E.
    + injection E as -> _. exfalso. apply Hb. now left.
    + injection E as -> E. f_equal. apply IH; [|assumption|assumption].
      intro F. apply Hb. now right.
Qed.

Lemma header_line_not_content_length (hs : Obj.t jsval) (name v : jsstring) :
  name <> content_length -> ~ In 58%N v ->
  header_line hs name <> lit "content-length:" ++ v.
Proof.
  intros Hn Hv E. apply Hn. unfold header_line, colon in E.
  change (lit "content-length:" ++ v) with (content_length ++ 58%N :: v) in E.
  change (lit ":" ++ ?x) with (58%N :: x) in E.
  eapply (first_colon_unique 58%N); [| exact Hv | exact E].
  unfold content_length. simpl. intuition discriminate.
Qed.

(** C5. Content-length suppression: when the headers bind [content-length]
    to the sentinel [false] and the body is not empty, [toString] returns the
    command, one line for each header left after the sentinel is deleted,
    and the body; no line is pushed for a header named [content-length], and
    none of the lines pushed is [content-length:] followed by [false], by a
    number, or by any other text without a colon. *)
Theorem content_length_suppressed
    (cmd : jsstring) (hs : Obj.t jsval) (body : jsstring) :
  Obj.get hs content_length = Some (VBool false) ->
  body <> [] ->
  let hs' := Obj.delete hs content_length in
  let lines := map (header_line hs') (Obj.keys hs') in
  toString (mkFrame cmd hs body)
  = (Ret (join BYTES_LF ([cmd] ++ lines ++ [BYTES_LF ++ body])),
     mkFrame cmd hs' body)
  /\ ~ In content_length (Obj.keys hs')
  /\ (forall line v, In line lines -> ~ In 58%N v ->
        line <> lit "content-length:" ++ v).
Proof.
  intros H _ hs' lines. split; [now apply toString_sentinel|].
  split; [apply keys_delete|].
  intros line v Hl Hv. apply in_map_iff in Hl as (name & <- & Hname).
  apply header_line_not_content_length; [|assumption].
  intros ->. now apply (keys_delete _ hs content_length).
Qed.

Lemma content_length_suppressed_witness :
  toString (mkFrame (lit "SEND")
              [(lit "destination", VStr (lit "/queue/a"));
               (content_length, VBool false)]
              (lit "hello"))
  = (Ret (join BYTES_LF [lit "SEND"; lit "destination:/queue/a"; BYTES_LF ++ lit "hello"]),
     mkFrame (lit "SEND") [(lit "destination", VStr (lit "/queue/a"))] (lit "hello")).
Proof.
  apply (content_length_suppressed (lit "SEND")
           [(lit "destination", VStr (lit "/queue/a"));
            (content_length, VBool false)]
           (lit "hello")).
  - reflexivity.
  - discriminate.
Defined.

Lemma toString_with_byte_count
    (cmd : jsstring) (hs : Obj.t jsval) (bd : jsstring) (n : nat) :
  Obj.get hs content_length <> Some (VBool false) ->
  bd <> [] ->
  code_units bd ->
  encoded_byte_count bd = Some n ->
  toString (mkFrame cmd hs bd)
  = (Ret (join BYTES_LF
            ([cmd] ++ map (header_line hs) (Obj.keys hs)
             ++ [lit "content-length:" ++ number_to_string (Z.of_nat n)]
             ++ [BYTES_LF ++ bd])),
     mkFrame cmd hs bd).
Proof.
  intros Hs Hb Hu Hn. rewrite toString_plain by assumption.
  now rewrite (sizeOfUTF8_encoded bd n Hu Hn).
Qed.

(** C4, as amended. Byte-length correctness of content-length: for a body
    that is not empty and has a UTF-8 encoding (no surrogate without its
    partner), and headers without the sentinel, [toString] returns the frame
    text with the line [content-length:N] after the header lines, [N] being
    the encoded byte count of the body and not its length in characters. *)
Theorem content_length_is_byte_count
    (cmd : jsstring) (hs : Obj.t jsval) (bd : jsstring) (n : nat) :
  Obj.get hs content_length <> Some (VBool false) ->
  bd <> [] ->
  code_units bd ->
  encoded_byte_count bd = Some n ->
  toString (mkFrame cmd hs bd)
  = (Ret (join BYTES_LF
            ([cmd] ++ map (header_line hs) (Obj.keys hs)
             ++ [lit "content-length:" ++ number_to_string (Z.of_nat n)]
             ++ [BYTES_LF ++ bd])),
     mkFrame cmd hs bd).
Proof. exact (toString_with_byte_count cmd hs bd n). Qed.

(** A body of one character encoded on three bytes, the euro sign, is
    serialized with [content-length:3]. *)
Lemma content_length_is_byte_count_witness :
  toString (mkFrame (lit "SEND") Obj.empty [8364%N])
  = (Ret (join BYTES_LF [lit "SEND"; lit "content-length:3"; BYTES_LF ++ [8364%N]]),
     mkFrame (lit "SEND") Obj.empty [8364%N]).
Proof.
  apply (content_length_is_byte_count (lit "SEND") Obj.empty [8364%N] 3).
  - discriminate.
  - discriminate.
  - repeat constructor.
  - reflexivity.
Defined.

(** C4 as stated fails on a body with a surrogate that has no partner:
    [encodeURI] raises [URIError] and no frame text is produced. *)
Lemma content_length_unpaired_surrogate :
  let frame := mkFrame (lit "SEND") Obj.empty [55296%N] in
  body frame <> []
  /\ Obj.get (headers frame) content_length <> Some (VBool false)
  /\ fst (toString frame) = Throw URIError
  /\ forall text, fst (toString frame) <> Ret text.
Proof.
  repeat split; try discriminate.
Qed.

Lemma join_extra_line (sep : jsstring) (ls : list jsstring) (a b : jsstring) :
  sep <> [] -> ls <> [] ->
  join sep (ls ++ [a] ++ [b]) <> join sep (ls ++ [b]).
Proof.
  intros Hsep Hl E. rewrite !join_app in E by (assumption || discriminate).
  apply app_inv_head in E. apply app_inv_head in E.
  apply (f_equal (@length N)) in E. cbn [join app] in E.
  rewrite !length_app in E. destruct sep; [contradiction|]. simpl in E. lia.
Qed.

(** C10, as amended. Serializing a frame whose headers bind [content-length]
    to the sentinel [false] deletes that key from the headers object; on a
    frame with a body that is not empty and has a UTF-8 encoding, a second
    call of [toString] on the same frame returns the text of the first call
    with the line [content-length:N] added, so the two texts differ. *)
Theorem toString_deletes_sentinel
    (cmd : jsstring) (hs : Obj.t jsval) (bd : jsstring) (n : nat) :
  Obj.get hs content_length = Some (VBool false) ->
  bd <> [] ->
  code_units bd ->
  encoded_byte_count bd = Some n ->
  let hs' := Obj.delete hs content_length in
  let lines := [cmd] ++ map (header_line hs') (Obj.keys hs') in
  let first := toString (mkFrame cmd hs bd) in
  let second := toString (snd first) in
  first = (Ret (join BYTES_LF (lines ++ [BYTES_LF ++ bd])), mkFrame cmd hs' bd)
  /\ Obj.get hs' content_length = None
  /\ second
     = (Ret (join BYTES_LF
               (lines ++ [lit "content-length:" ++ number_to_string (Z.of_nat n)]
                ++ [BYTES_LF ++ bd])),
        mkFrame cmd hs' bd)
  /\ fst second <> fst first.
Proof.
  intros Hs Hb Hu Hn hs' lines first second.
  assert (Hdel : Obj.get hs' content_length = None).
  { unfold hs'. now rewrite get_delete, str_eqb_refl. }
  assert (H1 : first
               = (Ret (join BYTES_LF (lines ++ [BYTES_LF ++ bd])), mkFrame cmd hs' bd)).
  { unfold first, lines. rewrite toString_sentinel by assumption.
    now rewrite <- app_assoc. }
  assert (H2 : second
               = (Ret (join BYTES_LF
                         (lines ++ [lit "content-length:" ++ number_to_string (Z.of_nat n)]
                          ++ [BYTES_LF ++ bd])),
                  mkFrame cmd hs' bd)).
  { unfold second. rewrite H1. cbn [snd].
    rewrite toString_with_byte_count with (n := n); try assumption.
    - unfold lines. now rewrite <- !app_assoc.
    - rewrite Hdel. discriminate. }
  repeat split; try assumption.
  rewrite H1, H2. cbn [fst]. intro E. injection E; clear E; intro E.
  assert (Hsep : BYTES_LF <> []) by discriminate.
  assert (Hl : lines <> []) by discriminate.
  exact (join_extra_line BYTES_LF lines _ _ Hsep Hl E).
Qed.

Lemma toString_deletes_sentinel_witness :
  let frame := mkFrame (lit "SEND") [(content_length, VBool false)] (lit "hello") in
  snd (toString frame) = mkFrame (lit "SEND") Obj.empty (lit "hello")
  /\ fst (toString frame) = Ret (join BYTES_LF [lit "SEND"; BYTES_LF ++ lit "hello"])
  /\ fst (toString (snd (toString frame)))
     = Ret (join BYTES_LF [lit "SEND"; lit "content-length:5"; BYTES_LF ++ lit "hello"]).
Proof.
  intro frame.
  destruct (toString_deletes_sentinel (lit "SEND") [(content_length, VBool false)]
              (lit "hello") 5)
    as (H1 & _ & H2 & _).
  - reflexivity.
  - discriminate.
  - repeat constructor.
  - reflexivity.
  - unfold frame. cbv zeta in H1, H2. rewrite H2, H1. repeat split.
Defined.

(** C10 as stated fails on a body with a surrogate that has no partner: the
    first call suppresses the header and deletes the sentinel, the second
    call raises [URIError] and appends nothing. *)
Lemma toString_second_call_raises :
  let frame := mkFrame (lit "SEND") [(content_length, VBool false)] [55296%N] in
  body frame <> []
  /\ fst (toString frame) = Ret (join BYTES_LF [lit "SEND"; BYTES_LF ++ [55296%N]])
  /\ headers (snd (toString frame)) = Obj.empty
  /\ fst (toString (snd (toString frame))) = Throw URIError.
Proof.
  repeat split; discriminate.
Qed.

(** ** Transmission *)

Lemma substring_prefix_Z (s : jsstring) (i : Z) :
  (0 <= i)%Z -> substring s 0 i = firstn (Z.to_nat i) s.
Proof.
  intro H. rewrite <- (Z2Nat.id i) at 1 by exact H. apply substring_prefix.
Qed.

Lemma substring_from_Z (s : jsstring) (i : Z) :
  (0 <= i)%Z -> substring_from s i = skipn (Z.to_nat i) s.
Proof.
  intro H. rewrite <- (Z2Nat.id i) at 1 by exact H. apply substring_from_skipn.
Qed.

Lemma substring_split (s : jsstring) (i : Z) :
  (0 <= i)%Z -> substring s 0 i ++ substring_from s i = s.
Proof.
  intro H. rewrite substring_prefix_Z, substring_from_Z by exact H.
  apply firstn_skipn.
Qed.

Lemma transmit_loop_more (fuel : nat) (out : jsstring) (this : Client) :
  (Z.of_nat (length out) > maxWebSocketFrameSize this)%Z ->
  transmit_loop (S fuel) out this
  = transmit_loop fuel (substring_from out (maxWebSocketFrameSize this))
      (with_trace this
         (trace this
          ++ [Send (substring out 0 (maxWebSocketFrameSize this));
              Log (lit "remaining = "
                   ++ number_to_string
                        (Z.of_nat (length (substring_from out (maxWebSocketFrameSize this)))))])).
Proof.
  intro H. cbn [transmit_loop]. unfold seq at 1. unfold the at 1.
  apply Z.gtb_gt in H. rewrite H.
  unfold seq, ws_send, debug, emit. cbn [trace with_trace].
  rewrite <- app_assoc. reflexivity.
Qed.

Lemma transmit_loop_last (fuel : nat) (out : jsstring) (this : Client) :
  (Z.of_nat (length out) <= maxWebSocketFrameSize this)%Z ->
  transmit_loop (S fuel) out this
  = Done tt (with_trace this (trace this ++ [Send out])).
Proof.
  intro H. cbn [transmit_loop]. unfold seq at 1. unfold the at 1.
  destruct (Z.gtb_spec (Z.of_nat (length out)) (maxWebSocketFrameSize this));
    [lia | reflexivity].
Qed.

Lemma sends_app (a b : list event) : sends (a ++ b) = sends a ++ sends b.
Proof.
  induction a as [|e a IH]; [reflexivity|].
  destruct e; simpl; now rewrite IH.
Qed.

Lemma invoked_app (a b : list event) : invoked (a ++ b) = invoked a ++ invoked b.
Proof.
  induction a as [|e a IH]; [reflexivity|].
  destruct e; simpl; now rewrite IH.
Qed.

Lemma marshall_text (cmd : jsstring) (hs : Obj.t jsval) (bd out : jsstring)
    (frame : Frame) :
  marshall cmd hs bd = (Ret out, frame) ->
  exists text, toString (mkFrame cmd hs bd) = (Ret text, frame)
               /\ out = text ++ BYTES_NULL.
Proof.
  unfold marshall. destruct (toString (mkFrame cmd hs bd)) as [[text|e] f].
  - simpl. intros [= <- <-]. now exists text.
  - discriminate.
Qed.

Lemma _transmit_eq (fuel : nat) (cmd : jsstring) (hs : Obj.t jsval)
    (bd out : jsstring) (frame : Frame) (this : Client) :
  marshall cmd hs bd = (Ret out, frame) ->
  _transmit fuel cmd hs bd this
  = match transmit_loop fuel out
            (with_trace this (trace this ++ [Log (lit ">>> " ++ out)])) with
    | Done _ this' => Done (headers frame) this'
    | Raised e this' => Raised e this'
    | OutOfFuel => OutOfFuel
    end.
Proof.
  intro H. unfold _transmit. rewrite H. destruct frame as [c h b].
  unfold seq, lift, debug, emit, ret. cbn [headers].
  now destruct (transmit_loop fuel out _).
Qed.


Lemma ascii_code_units (s : jsstring) : ascii_text s -> code_units s.
Proof. apply Forall_impl. intros c H. lia. Qed.

Lemma encoded_byte_count_ascii (s : jsstring) :
  ascii_text s -> encoded_byte_count s = Some (length s).
Proof.
  unfold encoded_byte_count. induction 1 as [|c s Hc _ IH]; [reflexivity|].
  cbn [code_points].
  assert (Hh : is_high_surrogate c = false).
  { unfold is_high_surrogate. apply andb_false_intro1, N.leb_gt. lia. }
  assert (Hl : is_low_surrogate c = false).
  { unfold is_low_surrogate. apply andb_false_intro1, N.leb_gt. lia. }
  rewrite Hh, Hl. destruct (code_points s) as [cps|]; [|discriminate].
  simpl in *. injection IH as IH. unfold utf8_size at 1.
  apply N.ltb_lt in Hc. now rewrite Hc, IH.
Qed.






(** ** Heart-beat negotiation *)

Lemma strict_neq_false (a b : jsval) : strict_neq a b = false -> a = b.
Proof.
  destruct a as [|x|x], b as [|y|y]; simpl; try discriminate; try reflexivity.
  - intro H. apply negb_false_iff, Bool.eqb_prop in H. now subst.
  - intro H. apply negb_false_iff, str_eqb_eq in H. now subst.
Qed.

(** C6 at the code. Heartbeat negotiation: [_setupHeartbeat] returns at its
    first line whenever the two supported versions differ, because no
    version is different from neither; no call of [setInterval] is reached
    and the client is as it was, with neither the ping timer nor the
    incoming-check timer started. *)
Theorem setupHeartbeat_starts_no_timer
    (V1_1 V1_2 : jsval) (hs : Obj.t jsval) (this : Client) :
  V1_1 <> V1_2 ->
  _setupHeartbeat V1_1 V1_2 hs this = Done tt this.
Proof.
  intro H. unfold _setupHeartbeat.
  destruct (strict_neq (read (Obj.get hs (lit "version"))) V1_1) eqn:E1;
    [reflexivity|].
  destruct (strict_neq (read (Obj.get hs (lit "version"))) V1_2) eqn:E2;
    [reflexivity|].
  apply strict_neq_false in E1, E2. congruence.
Qed.

(** The input of the claim: the client wants 4000 and 4000, the CONNECTED
    frame of a 1.1 server has [heart-beat:3000,0]. *)
Lemma setupHeartbeat_starts_no_timer_witness :
  let this := mkClient 0 true 4000 4000 16384 Obj.empty [] None None None None 0 [] in
  let hs := [(lit "version", VStr (lit "1.1")); (lit "heart-beat", VStr (lit "3000,0"))] in
  VStr (lit "1.1") <> VStr (lit "1.2")
  /\ _setupHeartbeat (VStr (lit "1.1")) (VStr (lit "1.2")) hs this = Done tt this
  /\ ponger this = None.
Proof.
  intros this hs.
  assert (H : VStr (lit "1.1") <> VStr (lit "1.2")) by discriminate.
  split; [exact H|]. split; [|reflexivity].
  exact (setupHeartbeat_starts_no_timer (VStr (lit "1.1")) (VStr (lit "1.2")) hs this H).
Defined.

(** Were the two version constants one and the same string, the guard would
    let that version through, and the next statement would raise: it
    assigns to [serverOutgoing] and [serverIncoming], which nothing
    declares.  No timer is started on that path either. *)
Lemma setupHeartbeat_same_versions :
  let this := mkClient 0 true 4000 4000 16384 Obj.empty [] None None None None 0 [] in
  let hs := [(lit "version", VStr (lit "1.1")); (lit "heart-beat", VStr (lit "3000,0"))] in
  _setupHeartbeat (VStr (lit "1.1")) (VStr (lit "1.1")) hs this
  = Raised ReferenceError this.
Proof. reflexivity. Qed.

(** ** Subscriptions *)

(** With a positive frame size, the loop of [_transmit] ends within as many
    turns as the text is long; it sends the text in pieces and calls no
    function of the application. *)
Lemma transmit_loop_done (fuel : nat) (out : jsstring) (this : Client) :
  (0 < maxWebSocketFrameSize this)%Z ->
  length out < fuel ->
  exists evs,
    transmit_loop fuel out this = Done tt (with_trace this (trace this ++ evs))
    /\ concat (sends evs) = out
    /\ invoked evs = [].
Proof.
  revert out this. induction fuel as [|fuel IH]; intros out this Hmax Hfuel; [lia|].
  destruct (Z.gtb_spec (Z.of_nat (length out)) (maxWebSocketFrameSize this)) as [H|H].
  - rewrite transmit_loop_more by lia.
    set (size := maxWebSocketFrameSize this) in *.
    set (this' := with_trace this _).
    destruct (IH (substring_from out size) this') as (evs & E & Hs & Hi).
    + exact Hmax.
    + rewrite substring_from_Z, length_skipn by lia. lia.
    + eexists. split; [|split].
      * rewrite E. unfold this'. cbn [with_trace trace].
        rewrite <- app_assoc. reflexivity.
      * rewrite sends_app. cbn [sends concat app]. rewrite Hs.
        apply substring_split. lia.
      * rewrite invoked_app. cbn [invoked app]. exact Hi.
  - rewrite transmit_loop_last by lia. exists [Send out].
    split; [reflexivity|]. split; [apply app_nil_r | reflexivity].
Qed.

(** A call of the loop that returns has only added events to the trace, none
    of them a call of the application. *)
Lemma transmit_loop_inv (fuel : nat) (out : jsstring) (this this' : Client) (u : unit) :
  transmit_loop fuel out this = Done u this' ->
  exists evs, this' = with_trace this (trace this ++ evs) /\ invoked evs = [].
Proof.
  revert out this. induction fuel as [|fuel IH]; intros out this; [discriminate|].
  destruct (Z.gtb_spec (Z.of_nat (length out)) (maxWebSocketFrameSize this)) as [H|H].
  - rewrite transmit_loop_more by lia. intro E.
    apply IH in E as (evs & -> & Hi). cbn [with_trace trace].
    eexists. split.
    + rewrite <- app_assoc. reflexivity.
    + rewrite invoked_app. exact Hi.
  - rewrite transmit_loop_last by lia. intros [= <-].
    now exists [Send out].
Qed.

Lemma marshall_headers (cmd : jsstring) (hs : Obj.t jsval) (bd : jsstring) :
  headers (snd (marshall cmd hs bd))
  = if is_false (read (Obj.get hs content_length))
    then Obj.delete hs content_length else hs.
Proof.
  unfold marshall, toString. cbn [headers command body].
  now destruct (is_false (read (Obj.get hs content_length))).
Qed.

Lemma _transmit_inv (fuel : nat) (cmd : jsstring) (hs : Obj.t jsval)
    (bd : jsstring) (this this' : Client) (h : Obj.t jsval) :
  _transmit fuel cmd hs bd this = Done h this' ->
  h = headers (snd (marshall cmd hs bd))
  /\ exists evs, this' = with_trace this (trace this ++ evs) /\ invoked evs = [].
Proof.
  destruct (marshall cmd hs bd) as [[out|e] frame] eqn:Hm.
  - rewrite (_transmit_eq fuel cmd hs bd out frame this Hm).
    destruct (transmit_loop fuel out _) as [u this''| |] eqn:E; try discriminate.
    intros [= <- <-]. split; [reflexivity|].
    apply transmit_loop_inv in E as (evs & -> & Hi). cbn [with_trace trace].
    eexists. split.
    + rewrite <- app_assoc. reflexivity.
    + exact Hi.
  - unfold _transmit. rewrite Hm. destruct frame. discriminate.
Qed.



(** What [subscribe] has done to the table once it has returned. *)
Lemma subscribe_table (fuel : nat) (destination : jsstring) (cb : handler)
    (hs : Obj.t jsval) (this this1 : Client) (id : jsval) :
  subscribe fuel destination cb hs this = Done id this1 ->
  subscriptions this1 = table_assign (subscriptions this) (to_string id) cb
  /\ maxWebSocketFrameSize this1 = maxWebSocketFrameSize this
  /\ onreceive this1 = onreceive this.
Proof.
  unfold subscribe.
  set (hs1 := if negb (truthy (read (Obj.get hs (lit "id"))))
              then Obj.set hs (lit "id")
                     (VStr (lit "sub-" ++ number_to_string (counter this)))
              else hs).
  set (hs2 := Obj.set hs1 (lit "destination") (VStr destination)).
  assert (Hid : forall h, h = headers (snd (marshall (lit "SUBSCRIBE") hs2 [])) ->
                          Obj.get h (lit "id") = Obj.get hs2 (lit "id")).
  { intros h ->. rewrite marshall_headers.
    destruct (is_false _); [|reflexivity]. now rewrite get_delete. }
  destruct (negb (truthy (read (Obj.get hs (lit "id"))))) eqn:Et;
    unfold seq, the, set_counter, set_subscriptions, ret;
    cbn [subscriptions counter];
    fold hs2;
    match goal with |- context [_transmit fuel ?c ?h ?b ?t] =>
      destruct (_transmit fuel c h b t) as [h' t'| |] eqn:E; try discriminate;
      apply _transmit_inv in E as (Hh & evs & -> & _)
    end;
    intros [= <- <-]; cbn [subscriptions with_trace maxWebSocketFrameSize onreceive];
    rewrite (Hid _ Hh); repeat split.
Qed.

(** The callback is found under the id right after [subscribe], whatever
    the id: as an own property of the table, or as its prototype. *)
Lemma lookup_assigned (builtin : jsstring -> handler)
    (member : handler -> jsstring -> option callee)
    (subs : Obj.t handler) (id : jsstring) (cb : handler) :
  lookup builtin member (table_assign subs id cb) id = Some (Fn cb).
Proof.
  unfold lookup, table_assign. destruct (str_eqb id Obj.proto_key) eqn:E.
  - apply str_eqb_eq in E. subst id. now rewrite get_put, str_eqb_refl.
  - now rewrite get_put, str_eqb_refl.
Qed.





(** So it does on the name of a function of [Object.prototype]: after
    [unsubscribe], a MESSAGE frame carrying the id [toString] is handed to
    the function the table inherits under that name. *)
Lemma unsubscribe_inherited_still_dispatches :
  let id := VStr (lit "toString") in
  let hs := [(lit "id", id)] in
  let frame := mkFrame (lit "MESSAGE") [(lit "subscription", id)] (lit "hi") in
  exists this1 this2 this3,
    subscribe 100 (lit "/queue/a") 7 hs new_Client = Done id this1
    /\ unsubscribe 100 id this1 = Done tt this2
    /\ dispatch VUndefined VUndefined (fun _ => 99) (fun _ _ => None)
         (fun _ _ => ret tt) None None frame this2 = Done tt this3
    /\ invoked (trace this3) = [99].
Proof.
  intros id hs frame. do 3 eexists.
  split; [vm_compute; reflexivity|]. split; [vm_compute; reflexivity|].
  split; [vm_compute; reflexivity | reflexivity].
Qed.

(** ** Frames split over several messages *)

Lemma split_frames_no_nul (piece s : jsstring) :
  ~ In NUL s -> split_frames false piece s = [rev piece ++ s].
Proof.
  revert piece. induction s as [|c s IH]; intros piece H; cbn [split_frames].
  - now rewrite app_nil_r.
  - cbn [andb]. destruct (N.eqb_spec c NUL) as [->|_].
    + exfalso. apply H. now left.
    + rewrite IH by (intro F; apply H; now right).
      cbn [rev]. now rewrite <- app_assoc.
Qed.

Lemma split_frames_not_nil (skip : bool) (piece s : jsstring) :
  split_frames skip piece s <> [].
Proof.
  revert skip piece. induction s as [|c s IH]; intros skip piece; cbn [split_frames].
  - discriminate.
  - destruct (skip && N.eqb c LF); [apply IH|].
    destruct (N.eqb c NUL); [discriminate | apply IH].
Qed.

(** A text with a NULL is cut in two pieces at least. *)
Lemma split_frames_two (skip : bool) (piece s : jsstring) :
  In NUL s -> 2 <= length (split_frames skip piece s).
Proof.
  revert skip piece. induction s as [|c s IH]; intros skip piece H; [contradiction|].
  cbn [split_frames]. destruct (skip && N.eqb c LF) eqn:E1.
  - apply andb_prop in E1 as [_ E1]. apply N.eqb_eq in E1.
    destruct H as [H|H]; [subst; discriminate | now apply IH].
  - destruct (N.eqb_spec c NUL) as [->|Hc].
    + pose proof (split_frames_not_nil true [] s).
      cbn [length]. destruct (split_frames true [] s); [contradiction | simpl; lia].
    + destruct H as [H|H]; [congruence | now apply IH].
Qed.

Lemma search_null_end_no_nul (s : jsstring) :
  ~ In NUL s -> search_null_end s = (-1)%Z.
Proof.
  induction s as [|c s IH]; intro H; cbn [search_null_end]; [reflexivity|].
  destruct (N.eqb_spec c NUL) as [->|_].
  - exfalso. apply H. now left.
  - cbn [andb]. now rewrite IH by (intro F; apply H; now right).
Qed.

(** A text without NULL, other than a lone line feed, is kept whole as the
    partial frame: no piece is parsed, so the unbound name is not reached. *)
Lemma unmarshall_partial (s : jsstring) :
  ~ In NUL s -> s <> BYTES_LF -> unmarshall s = Ret (mkUnmarshalled [] s).
Proof.
  intros H Hlf. unfold unmarshall.
  rewrite (split_frames_no_nul [] s H).
  cbn [rev app removelast last map_result bind frames partial].
  rewrite (str_eqb_neq s Byte_obj_LF Hlf), (search_null_end_no_nul s H).
  reflexivity.
Qed.

(** A text with a NULL has a piece to parse, and parsing it raises. *)
Lemma unmarshall_nul (s : jsstring) :
  In NUL s -> unmarshall s = Throw ReferenceError.
Proof.
  intro H. unfold unmarshall.
  pose proof (split_frames_two false [] s H) as L.
  destruct (split_frames false [] s) as [|p1 [|p2 ps]]; simpl in L; try lia.
  reflexivity.
Qed.

(** So does the lone line feed, which is parsed as a last piece. *)
Lemma unmarshall_lone_lf : unmarshall BYTES_LF = Throw ReferenceError.
Proof. reflexivity. Qed.

Lemma join_starts (sep l : jsstring) (ls : list jsstring) :
  exists r, join sep (l :: ls) = l ++ r.
Proof.
  destruct ls as [|l' ls]; simpl.
  - exists []. now rewrite app_nil_r.
  - now eexists.
Qed.

Lemma join_starts_with (sep l : jsstring) (lines : list jsstring) :
  (exists ls, lines = l :: ls) -> exists r, join sep lines = l ++ r.
Proof. intros [ls ->]. apply join_starts. Qed.

Lemma toString_starts_with_command (f f' : Frame) (text : jsstring) :
  toString f = (Ret text, f') -> exists r, text = command f ++ r.
Proof.
  assert (shape : forall (lines : list jsstring) (g : Frame),
             (exists ls, lines = command f :: ls) ->
             (Ret (join BYTES_obj_LF lines), g) = (Ret text, f') ->
             exists r, text = command f ++ r).
  { intros lines g Hl. destruct (join_starts_with BYTES_obj_LF _ _ Hl) as [r ->].
    intros [= <- _]. now exists r. }
  unfold toString.
  destruct (is_false (read (Obj.get (headers f) content_length)));
    cbn [command headers body negb andb bind].
  - rewrite andb_false_r. cbn [bind]. apply shape. eexists. reflexivity.
  - rewrite andb_true_r. destruct (truthy (VStr (body f))).
    + destruct (sizeOfUTF8 (body f)); cbn [bind]; [|discriminate].
      apply shape. eexists. reflexivity.
    + cbn [bind]. apply shape. eexists. reflexivity.
Qed.

Lemma removelast_last (A : Type) (l : list A) (a : A) : removelast (l ++ [a]) = l.
Proof. rewrite removelast_app by discriminate. apply app_nil_r. Qed.

(** The pieces of a frame cut short of its length: the first has no NULL
    and is no lone line feed, the two together are the text. *)
Lemma first_chunk (cmd : jsstring) (hs : Obj.t jsval) (bd wire : jsstring)
    (frame : Frame) (k : nat) :
  marshall cmd hs bd = (Ret wire, frame) ->
  cmd <> [] ->
  (forall r, cmd <> LF :: r) ->
  ~ In NUL (removelast wire) ->
  k < length wire ->
  ~ In NUL (firstn k wire)
  /\ firstn k wire <> BYTES_LF
  /\ In NUL (skipn k wire)
  /\ skipn k wire <> BYTES_LF.
Proof.
  intros Hm Hcmd Hlf Hnul Hk.
  destruct (marshall_text cmd hs bd wire frame Hm) as (text & Ht & ->).
  unfold BYTES_NULL in *. rewrite removelast_last in *.
  rewrite length_app in Hk. cbn [length] in Hk.
  assert (E1 : firstn k (text ++ [0%N]) = firstn k text).
  { rewrite firstn_app.
    replace (k - length text) with 0 by lia. cbn [firstn]. apply app_nil_r. }
  assert (E2 : skipn k (text ++ [0%N]) = skipn k text ++ [NUL]).
  { rewrite skipn_app.
    replace (k - length text) with 0 by lia. reflexivity. }
  rewrite E1, E2. repeat split.
  - intro F. apply Hnul. rewrite <- (firstn_skipn k text).
    apply in_or_app. now left.
  - intro F.
    apply toString_starts_with_command in Ht as (r & ->). cbn [command] in F.
    destruct cmd as [|c cmd]; [contradiction|].
    destruct k as [|k]; [discriminate|]. cbn [app firstn] in F.
    injection F as -> _. now apply (Hlf cmd).
  - apply in_or_app. right. now left.
  - destruct (skipn k text) as [|c [|c' r]]; discriminate.
Qed.

(** C2 at the code. Fragmentation resumability: take a frame serialized by
    [marshall] whose command is not empty and does not begin with a line
    feed, and whose text has no NULL before the terminator, and cut it at
    any offset short of its length.  [unmarshall] on the first chunk emits
    no frame and returns the chunk as the partial text; but [unmarshall] on
    that partial text followed by the second chunk returns no frame: it
    has a piece to parse, calls [unmarshallSingle] by a name that nothing
    binds, and raises [ReferenceError].  So it does on the whole text. *)
Theorem fragmentation_raises
    (cmd : jsstring) (hs : Obj.t jsval) (bd wire : jsstring) (frame : Frame)
    (k : nat) :
  marshall cmd hs bd = (Ret wire, frame) ->
  cmd <> [] ->
  (forall r, cmd <> LF :: r) ->
  ~ In NUL (removelast wire) ->
  k < length wire ->
  let chunk1 := firstn k wire in
  let chunk2 := skipn k wire in
  unmarshall chunk1 = Ret (mkUnmarshalled [] chunk1)
  /\ unmarshall (chunk1 ++ chunk2) = Throw ReferenceError
  /\ unmarshall wire = Throw ReferenceError.
Proof.
  intros Hm Hcmd Hlf Hnul Hk chunk1 chunk2.
  destruct (first_chunk cmd hs bd wire frame k Hm Hcmd Hlf Hnul Hk)
    as (H1 & H2 & H3 & _).
  assert (Hw : In NUL wire).
  { rewrite <- (firstn_skipn k wire). apply in_or_app. now right. }
  split; [now apply unmarshall_partial|].
  unfold chunk1, chunk2. rewrite firstn_skipn.
  split; now apply unmarshall_nul.
Qed.

Lemma fragmentation_raises_witness :
  let hs := [(lit "destination", VStr (lit "/queue/a"))] in
  let wire :=
    join BYTES_LF [lit "SEND"; lit "destination:/queue/a"; lit "content-length:5";
                   BYTES_LF ++ lit "hello"] ++ BYTES_NULL in
  marshall (lit "SEND") hs (lit "hello") = (Ret wire, mkFrame (lit "SEND") hs (lit "hello"))
  /\ unmarshall (firstn 10 wire) = Ret (mkUnmarshalled [] (firstn 10 wire))
  /\ unmarshall (firstn 10 wire ++ skipn 10 wire) = Throw ReferenceError
  /\ unmarshall wire = Throw ReferenceError.
Proof.
  intros hs wire.
  assert (Hm : marshall (lit "SEND") hs (lit "hello")
               = (Ret wire, mkFrame (lit "SEND") hs (lit "hello"))) by reflexivity.
  assert (Hc : lit "SEND" <> []) by discriminate.
  assert (Hlf : forall r, lit "SEND" <> LF :: r) by (intros r; discriminate).
  assert (Hnul : ~ In NUL (removelast wire)) by (cbv; intuition discriminate).
  assert (Hk : 10 < length wire) by (vm_compute; lia).
  destruct (fragmentation_raises (lit "SEND") hs (lit "hello") wire
              (mkFrame (lit "SEND") hs (lit "hello")) 10 Hm Hc Hlf Hnul Hk)
    as (H1 & H2 & H3).
  split; [exact Hm|]. split; [exact H1|]. split; [exact H2 | exact H3].
Defined.

(** ** Decimal numerals *)

Lemma digits_value_eq (ds : jsstring) : digits_value ds = fold_left digit_step ds 0%Z.
Proof. reflexivity. Qed.

Lemma is_digit_mod10 (n : N) : is_digit (48 + n mod 10) = true.
Proof.
  pose proof (N.mod_lt n 10 ltac:(discriminate)).
  pose proof (N.le_0_l (n mod 10)).
  unfold is_digit. apply andb_true_intro. split; apply N.leb_le; lia.
Qed.

(** With fuel for its binary length, [digits_of] puts before the
    accumulator a run of digits, not empty, whose value is the number. *)
Lemma digits_of_spec (fuel : nat) (n : N) (acc : jsstring) :
  (n < 2 ^ N.of_nat fuel)%N -> 1 <= fuel ->
  exists ds,
    digits_of fuel n acc = ds ++ acc
    /\ ds <> []
    /\ Forall (fun d => is_digit d = true) ds
    /\ fold_left digit_step ds 0%Z = Z.of_N n.
Proof.
  revert n acc. induction fuel as [|fuel IH]; intros n acc Hn Hf; [lia|].
  cbn [digits_of]. destruct (N.eqb_spec (n / 10) 0) as [E|E].
  - exists [(48 + n mod 10)%N]. repeat split.
    + discriminate.
    + repeat constructor. apply is_digit_mod10.
    + cbn [fold_left]. unfold digit_step.
      pose proof (N.div_mod n 10 ltac:(discriminate)) as D. rewrite E in D.
      pose proof (N.le_0_l (n mod 10)). lia.
  - pose proof (N.le_0_l (n / 10)) as Hq.
    assert (Hdiv : (n / 10 < 2 ^ N.of_nat fuel)%N).
    { apply N.Div0.div_lt_upper_bound.
      rewrite Nat2N.inj_succ, N.pow_succ_r' in Hn. lia. }
    assert (Hfuel : 1 <= fuel).
    { destruct fuel; [|lia]. simpl in Hdiv. lia. }
    destruct (IH (n / 10)%N ((48 + n mod 10)%N :: acc) Hdiv Hfuel)
      as (ds & -> & Hne & Hd & Hv).
    exists (ds ++ [(48 + n mod 10)%N]). repeat split.
    + now rewrite <- app_assoc.
    + destruct ds; discriminate.
    + apply Forall_app. split; [exact Hd|]. repeat constructor. apply is_digit_mod10.
    + rewrite fold_left_app, Hv. cbn [fold_left]. unfold digit_step.
      pose proof (N.div_mod n 10 ltac:(discriminate)) as D.
      pose proof (N.le_0_l (n mod 10)). lia.
Qed.

Lemma number_to_string_spec (n : nat) :
  exists ds,
    number_to_string (Z.of_nat n) = ds
    /\ ds <> []
    /\ Forall (fun d => is_digit d = true) ds
    /\ digits_value ds = Z.of_nat n.
Proof.
  unfold number_to_string.
  replace (Z.of_nat n <? 0)%Z with false by (symmetry; apply Z.ltb_ge; lia).
  set (m := Z.to_N (Z.abs (Z.of_nat n))).
  destruct (digits_of_spec (S (N.to_nat (N.log2 m))) m []) as (ds & E & Hne & Hd & Hv).
  - rewrite Nat2N.inj_succ, N2Nat.id.
    destruct (N.eq_dec m 0) as [->|Hm]; [reflexivity|].
    apply N.log2_spec. lia.
  - lia.
  - exists ds. rewrite E, app_nil_r. repeat split; try assumption.
    rewrite digits_value_eq, Hv. unfold m. lia.
Qed.

Lemma is_digit_range (d : N) : is_digit d = true -> (48 <= d <= 57)%N.
Proof.
  unfold is_digit. intro H. apply andb_prop in H as [H1 H2].
  apply N.leb_le in H1, H2. lia.
Qed.

Lemma is_digit_not_space (d : N) : is_digit d = true -> is_space d = false.
Proof.
  intro H. apply is_digit_range in H. unfold is_space.
  repeat (match goal with
          | |- context [N.leb ?a ?b] => destruct (N.leb_spec a b)
          | |- context [N.eqb ?a ?b] => destruct (N.eqb_spec a b)
          end; try lia); try reflexivity.
Qed.

Lemma take_while_all (p : N -> bool) (s : jsstring) :
  Forall (fun c => p c = true) s -> take_while p s = s.
Proof. induction 1 as [|c s Hc _ IH]; simpl; [reflexivity|]. now rewrite Hc, IH. Qed.

Lemma drop_while_none (p : N -> bool) (s : jsstring) :
  Forall (fun c => p c = false) s -> drop_while p s = s.
Proof. destruct 1 as [|c s Hc _]; simpl; [reflexivity|]. now rewrite Hc. Qed.

Lemma parseInt_digits (ds : jsstring) :
  ds <> [] -> Forall (fun d => is_digit d = true) ds ->
  parseInt ds = Some (digits_value ds).
Proof.
  intros Hne Hd. unfold parseInt.
  destruct ds as [|d ds]; [contradiction|].
  inversion Hd as [|? ? Hd1 Hd2]; subst.
  cbn [drop_while]. rewrite (is_digit_not_space d Hd1).
  pose proof (is_digit_range d Hd1) as R.
  assert (E : strip_sign (d :: ds) = (1%Z, d :: ds)).
  { unfold strip_sign. destruct d as [|p]; [reflexivity|].
    do 6 (destruct p as [p|p|]; try reflexivity); lia. }
  rewrite E. rewrite (take_while_all is_digit (d :: ds) Hd).
  f_equal. lia.
Qed.

Lemma strip_spaces_none (s : jsstring) :
  Forall (fun c => is_space c = false) s -> strip_spaces s = s.
Proof.
  intro H. unfold strip_spaces. rewrite (drop_while_none is_space s H).
  rewrite drop_while_none by now apply Forall_rev. apply rev_involutive.
Qed.

(** ** Reading back a serialized frame *)

Lemma find_substr_skip (p l rest : jsstring) (c : N) (p' : jsstring) :
  p = c :: p' -> ~ In c l ->
  find_substr p (l ++ rest)
  = option_map (Nat.add (length l)) (find_substr p rest).
Proof.
  intros -> H. induction l as [|x l IH].
  - simpl app. simpl length. now destruct (find_substr (c :: p') rest).
  - change ((x :: l) ++ rest) with (x :: l ++ rest). cbn [find_substr starts_with].
    destruct (N.eqb_spec c x) as [->|_]; [exfalso; apply H; now left|].
    cbn [andb]. rewrite IH by (intro F; apply H; now right).
    now destruct (find_substr (c :: p') rest).
Qed.

Lemma find_substr_here (p rest : jsstring) :
  find_substr p (p ++ rest) = Some 0.
Proof.
  assert (E : starts_with p (p ++ rest) = true) by (apply starts_with_app; now exists rest).
  destruct (p ++ rest); simpl; now rewrite E.
Qed.

Lemma indexOf_char (c : N) (a b : jsstring) :
  ~ In c a -> indexOf (a ++ c :: b) [c] = Z.of_nat (length a).
Proof.
  intro H. unfold indexOf.
  rewrite (find_substr_skip [c] a (c :: b) c [] eq_refl H).
  change (c :: b) with ([c] ++ b).
  rewrite (find_substr_here [c] b). simpl. now rewrite Nat.add_0_r.
Qed.

Lemma find_substr_lf_then (d : N) (x : jsstring) :
  d <> LF ->
  find_substr [LF; LF] (LF :: d :: x)
  = option_map S (find_substr [LF; LF] (d :: x)).
Proof.
  intro H.
  change (find_substr [LF; LF] (LF :: d :: x))
    with (if starts_with [LF; LF] (LF :: d :: x) then Some 0
          else option_map S (find_substr [LF; LF] (d :: x))).
  cbn [starts_with]. rewrite N.eqb_refl.
  destruct (N.eqb_spec LF d) as [E|_]; [congruence | reflexivity].
Qed.

(** The first blank line of a text made of a command, header lines and a
    blank line is that blank line. *)
Lemma indexOf_divider (l : jsstring) (ls : list jsstring) (tail : jsstring) :
  ~ In LF l ->
  Forall (fun x => ~ In LF x /\ x <> []) ls ->
  indexOf (join BYTES_LF (l :: ls) ++ LF :: LF :: tail) (BYTES_LF ++ BYTES_LF)
  = Z.of_nat (length (join BYTES_LF (l :: ls))).
Proof.
  intros Hl Hls. unfold indexOf. change (BYTES_LF ++ BYTES_LF) with [LF; LF].
  enough (find_substr [LF; LF] (join BYTES_LF (l :: ls) ++ LF :: LF :: tail)
          = Some (length (join BYTES_LF (l :: ls)))) as -> by reflexivity.
  revert l Hl. induction Hls as [|l' ls [Hl' Hne] _ IH]; intros l Hl.
  - cbn [join].
    rewrite (find_substr_skip [LF; LF] l _ LF [LF] eq_refl Hl).
    change (LF :: LF :: tail) with ([LF; LF] ++ tail).
    rewrite (find_substr_here [LF; LF] tail). simpl. now rewrite Nat.add_0_r.
  - rewrite join_cons by discriminate. rewrite <- !app_assoc.
    rewrite (find_substr_skip [LF; LF] l _ LF [LF] eq_refl Hl).
    specialize (IH l' Hl').
    destruct (join_starts BYTES_LF l' ls) as [r Hr].
    destruct l' as [|d l']; [contradiction|].
    assert (Hd : d <> LF) by (intro F; apply Hl'; now left).
    rewrite Hr in IH |- *.
    change (BYTES_LF ++ ((d :: l') ++ r) ++ LF :: LF :: tail)
      with (LF :: d :: (l' ++ r) ++ LF :: LF :: tail).
    rewrite (find_substr_lf_then d _ Hd).
    change (d :: (l' ++ r) ++ LF :: LF :: tail)
      with (((d :: l') ++ r) ++ LF :: LF :: tail).
    rewrite IH. cbn [option_map]. rewrite !length_app. cbn [length BYTES_LF].
    f_equal; lia.
Qed.

Lemma split_line (l : jsstring) : ~ In LF l -> split LF l = [l].
Proof.
  induction l as [|c l IH]; intro H; cbn [split]; [reflexivity|].
  destruct (N.eqb_spec c LF) as [->|_]; [exfalso; apply H; now left|].
  now rewrite IH by (intro F; apply H; now right).
Qed.

Lemma split_app_lf (l r : jsstring) :
  ~ In LF l -> split LF (l ++ LF :: r) = l :: split LF r.
Proof.
  induction l as [|c l IH]; intro H; cbn [split app].
  - now rewrite N.eqb_refl.
  - destruct (N.eqb_spec c LF) as [->|_]; [exfalso; apply H; now left|].
    now rewrite IH by (intro F; apply H; now right).
Qed.

Lemma split_join (l : jsstring) (ls : list jsstring) :
  ~ In LF l -> Forall (fun x => ~ In LF x /\ x <> []) ls ->
  split LF (join BYTES_LF (l :: ls)) = l :: ls.
Proof.
  intros Hl Hls. revert l Hl. induction Hls as [|l' ls [Hl' _] _ IH]; intros l Hl.
  - now apply split_line.
  - rewrite join_cons by discriminate. change (BYTES_LF ++ ?x) with (LF :: x).
    rewrite split_app_lf by exact Hl. now rewrite IH.
Qed.

(** The name and the value read from a line [name:value]. *)
Lemma parsed_line (k s : jsstring) :
  ~ In 58%N k ->
  header_name (k ++ colon ++ s) = trim k
  /\ header_value (k ++ colon ++ s) = trim s.
Proof.
  intro H. unfold header_name, header_value, colon.
  change (lit ":" ++ s) with (58%N :: s). change (lit ":") with [58%N].
  rewrite (indexOf_char 58%N k s H). split.
  - rewrite substring_prefix, firstn_app, Nat.sub_diag, firstn_all.
    cbn [firstn]. now rewrite app_nil_r.
  - replace (Z.of_nat (length k) + 1)%Z with (Z.of_nat (S (length k))) by lia.
    rewrite substring_from_skipn.
    change (k ++ 58%N :: s) with (k ++ [58%N] ++ s). rewrite app_assoc.
    rewrite skipn_app, skipn_all2 by (rewrite length_app; simpl; lia).
    rewrite length_app. cbn [length app].
    replace (S (length k) - (length k + 1)) with 0 by lia. reflexivity.
Qed.

(** [unmarshallSingle] on a command, header lines, a blank line and a
    tail. *)
Lemma unmarshallSingle_text (cmd : jsstring) (ls : list jsstring) (tail : jsstring) :
  ~ In LF cmd ->
  Forall (fun x => ~ In LF x /\ x <> []) ls ->
  let data := join BYTES_LF (cmd :: ls) ++ LF :: LF :: tail in
  let hs := fold_left parse_header (rev ls) Obj.empty in
  let bodyIndex := (Z.of_nat (length (join BYTES_LF (cmd :: ls))) + 2)%Z in
  unmarshallSingle data
  = mkFrame cmd hs
      (if truthy (read (Obj.get hs content_length))
       then substring data bodyIndex
              (to_integer
                 (num_add bodyIndex
                    (parseInt (to_string (read (Obj.get hs content_length))))))
       else take_while not_nul tail)
  /\ forall n : nat,
       substring data bodyIndex (bodyIndex + Z.of_nat n) = firstn n tail.
Proof.
  intros Hc Hls data hs bodyIndex.
  set (J := join BYTES_LF (cmd :: ls)) in *.
  assert (Eskip : skipn (length J + 2) data = tail).
  { unfold data.
    change (J ++ LF :: LF :: tail) with (J ++ [LF; LF] ++ tail).
    rewrite app_assoc, skipn_app, skipn_all2 by (rewrite length_app; simpl; lia).
    rewrite length_app. cbn [length app]. now rewrite Nat.sub_diag. }
  assert (Eb : bodyIndex = Z.of_nat (length J + 2)) by (unfold bodyIndex; lia).
  split.
  - assert (Ei : indexOf data (BYTES_LF ++ BYTES_LF) = Z.of_nat (length J))
      by exact (indexOf_divider cmd ls tail Hc Hls).
    assert (EJ : substring data 0 (Z.of_nat (length J)) = J).
    { rewrite substring_prefix. unfold data.
      rewrite firstn_app, Nat.sub_diag, firstn_all. cbn [firstn]. apply app_nil_r. }
    assert (Es : split LF J = cmd :: ls) by exact (split_join cmd ls Hc Hls).
    unfold unmarshallSingle. rewrite Ei, EJ, Es.
    cbn [hd tl]. fold hs. fold bodyIndex. f_equal.
    destruct (truthy (read (Obj.get hs content_length))); [reflexivity|].
    rewrite Eb, substring_from_skipn, Eskip. apply scan_body_take_while.
  - intro n. rewrite Eb, <- Nat2Z.inj_add.
    rewrite substring_firstn_skipn by lia. rewrite Eskip. f_equal. lia.
Qed.

Lemma get_in_keys (V : Type) (o : Obj.t V) (k : jsstring) (v : V) :
  Obj.get o k = Some v -> In k (Obj.keys o).
Proof.
  induction o as [|[k1 v1] o IH]; simpl; [discriminate|].
  destruct (str_eqb k1 k) eqn:E.
  - apply str_eqb_eq in E. now left.
  - intro H. right. now apply IH.
Qed.

Lemma get_not_in_keys (V : Type) (o : Obj.t V) (k : jsstring) :
  Obj.get o k = None -> ~ In k (Obj.keys o).
Proof.
  induction o as [|[k1 v1] o IH]; simpl; [tauto|].
  destruct (str_eqb k1 k) eqn:E; [discriminate|].
  intros H [F|F]; [|now apply IH].
  subst. now rewrite str_eqb_refl in E.
Qed.

Lemma not_in_app (c : N) (a b : jsstring) : ~ In c a -> ~ In c b -> ~ In c (a ++ b).
Proof. intros Ha Hb F. apply in_app_or in F as [F|F]; auto. Qed.

Lemma header_line_clean (hs : Obj.t jsval) (k : jsstring) :
  clean_headers hs -> In k (Obj.keys hs) ->
  exists s,
    Obj.get hs k = Some (VStr s)
    /\ header_name (header_line hs k) = k
    /\ header_value (header_line hs k) = s
    /\ ~ In LF (header_line hs k)
    /\ header_line hs k <> [].
Proof.
  intros Hc Hk. destruct (Hc k Hk) as ((Hlf & Hcol & Htrim) & s & Hs & Hslf & Hstrim).
  exists s. unfold header_line. rewrite Hs. cbn [read to_string].
  destruct (parsed_line k s Hcol) as [E1 E2]. rewrite E1, E2.
  repeat split; try assumption.
  - apply not_in_app; [exact Hlf|]. apply not_in_app; [|exact Hslf].
    unfold colon. simpl. intros [F|[]]. discriminate.
  - unfold colon. destruct k; discriminate.
Qed.

Lemma digits_not_space (ds : jsstring) :
  Forall (fun d => is_digit d = true) ds -> Forall (fun c => is_space c = false) ds.
Proof. apply Forall_impl. exact is_digit_not_space. Qed.

Lemma digits_no_lf (ds : jsstring) :
  Forall (fun d => is_digit d = true) ds -> ~ In LF ds.
Proof.
  intros H F. rewrite Forall_forall in H. specialize (H LF F). discriminate.
Qed.

Lemma content_length_line (n : nat) :
  let line := lit "content-length:" ++ number_to_string (Z.of_nat n) in
  header_name line = content_length
  /\ header_value line = number_to_string (Z.of_nat n)
  /\ ~ In LF line
  /\ line <> [].
Proof.
  intro line. destruct (number_to_string_spec n) as (ds & E & Hne & Hd & Hv).
  unfold line. rewrite E.
  change (lit "content-length:" ++ ds) with (content_length ++ colon ++ ds).
  destruct (parsed_line content_length ds) as [E1 E2].
  { unfold content_length. simpl. intuition discriminate. }
  rewrite E1, E2. repeat split.
  - unfold trim. now rewrite (strip_spaces_none ds (digits_not_space ds Hd)).
  - apply not_in_app; [|apply not_in_app; [|now apply digits_no_lf]].
    + unfold content_length. simpl. intuition discriminate.
    + unfold colon. simpl. intuition discriminate.
  - discriminate.
Qed.

Lemma find_header_line (hs : Obj.t jsval) (ks : list jsstring) (k : jsstring)
    (rest : list jsstring) :
  (forall k', In k' ks -> header_name (header_line hs k') = k') ->
  find (fun l => str_eqb (header_name l) k) (map (header_line hs) ks ++ rest)
  = if existsb (str_eqb k) ks then Some (header_line hs k)
    else find (fun l => str_eqb (header_name l) k) rest.
Proof.
  induction ks as [|k0 ks IH]; intro H; [reflexivity|].
  cbn [map app find existsb]. rewrite (H k0) by now left.
  destruct (str_eqb k0 k) eqn:E.
  - apply str_eqb_eq in E. subst. now rewrite str_eqb_refl.
  - rewrite (str_eqb_neq k k0) by (intros ->; now rewrite str_eqb_refl in E).
    cbn [orb]. apply IH. intros k' Hk'. apply H. now right.
Qed.

Lemma existsb_keys (V : Type) (o : Obj.t V) (k : jsstring) :
  existsb (str_eqb k) (Obj.keys o)
  = match Obj.get o k with Some _ => true | None => false end.
Proof.
  induction o as [|[k1 v1] o IH]; [reflexivity|].
  cbn [Obj.keys map fst existsb Obj.get].
  destruct (str_eqb k1 k) eqn:E.
  - apply str_eqb_eq in E. subst. now rewrite str_eqb_refl.
  - rewrite (str_eqb_neq k k1) by (intros ->; now rewrite str_eqb_refl in E).
    exact IH.
Qed.

(** The text [marshall] returns for clean headers without a content-length
    and an ASCII body. *)
Lemma marshall_wire (cmd : jsstring) (hs : Obj.t jsval) (bd : jsstring) :
  Obj.get hs content_length = None ->
  ascii_text bd ->
  let extra :=
    match added_content_length bd with
    | Some n => [lit "content-length:" ++ n]
    | None => []
    end in
  fst (marshall cmd hs bd)
  = Ret (join BYTES_LF (cmd :: map (header_line hs) (Obj.keys hs) ++ extra)
         ++ LF :: LF :: bd ++ [NUL]).
Proof.
  intros Hcl Hb extra.
  assert (Hs : Obj.get hs content_length <> Some (VBool false)) by (rewrite Hcl; discriminate).
  unfold marshall. destruct bd as [|c bd'].
  - rewrite toString_empty_body by exact Hs. cbn [fst bind].
    unfold extra. cbn [added_content_length]. rewrite app_nil_r.
    change ([cmd] ++ map (header_line hs) (Obj.keys hs) ++ [BYTES_LF])
      with ((cmd :: map (header_line hs) (Obj.keys hs)) ++ [BYTES_LF]).
    rewrite join_app by discriminate. cbn [join].
    rewrite <- !app_assoc. reflexivity.
  - rewrite (toString_with_byte_count cmd hs (c :: bd') (length (c :: bd')));
      [| exact Hs | discriminate | now apply ascii_code_units
       | now apply encoded_byte_count_ascii].
    cbn [fst bind]. unfold extra. cbn [added_content_length].
    set (n := number_to_string _).
    change ([cmd] ++ map (header_line hs) (Obj.keys hs)
            ++ [lit "content-length:" ++ n] ++ [BYTES_LF ++ c :: bd'])
      with (cmd :: map (header_line hs) (Obj.keys hs)
            ++ [lit "content-length:" ++ n] ++ [BYTES_LF ++ c :: bd']).
    rewrite app_comm_cons, app_assoc.
    rewrite join_app by (try discriminate; destruct (map _ _); discriminate).
    cbn [join]. rewrite <- !app_assoc. reflexivity.
Qed.

(** C1, as amended. Round trip: for a command without line feed, headers
    that hold no content-length and whose names and values are strings
    without line feed, without white space at either end and, for the
    names, without colon, and an ASCII body, [marshall] returns a text and
    [unmarshallSingle] reads from it a frame with the same command and the
    same body, whose headers bind every name as the original headers do,
    but for two: [content-length], bound to the length of the body when the
    body is not empty and unbound when it is, and [__proto__], which the
    parsed headers never bind. *)
Theorem marshall_unmarshallSingle
    (cmd : jsstring) (hs : Obj.t jsval) (bd : jsstring) :
  ~ In LF cmd ->
  clean_headers hs ->
  Obj.get hs content_length = None ->
  ascii_text bd ->
  exists wire,
    fst (marshall cmd hs bd) = Ret wire
    /\ command (unmarshallSingle wire) = cmd
    /\ body (unmarshallSingle wire) = bd
    /\ forall k,
         Obj.get (headers (unmarshallSingle wire)) k
         = if str_eqb k content_length
           then option_map VStr (added_content_length bd)
           else if str_eqb k Obj.proto_key then None
           else Obj.get hs k.
Proof.
  intros Hcmd Hclean Hcl Hascii.
  pose proof (marshall_wire cmd hs bd Hcl Hascii) as Hw. cbv zeta in Hw.
  set (extra := match added_content_length bd with
                | Some n => [lit "content-length:" ++ n]
                | None => []
                end) in *.
  set (ls := map (header_line hs) (Obj.keys hs) ++ extra) in *.
  eexists. split; [exact Hw|].
  assert (Hextra : Forall (fun x => ~ In LF x /\ x <> []) extra).
  { unfold extra, added_content_length. destruct bd; [constructor|].
    destruct (content_length_line (length (n :: bd))) as (_ & _ & H1 & H2).
    repeat constructor; assumption. }
  assert (Hls : Forall (fun x => ~ In LF x /\ x <> []) ls).
  { unfold ls. apply Forall_app. split; [|exact Hextra].
    apply Forall_forall. intros l Hl. apply in_map_iff in Hl as (k & <- & Hk).
    destruct (header_line_clean hs k Hclean Hk) as (s & _ & _ & _ & H1 & H2).
    now split. }
  destruct (unmarshallSingle_text cmd ls (bd ++ [NUL]) Hcmd Hls) as [Hu Hsub].
  cbv zeta in Hu, Hsub.
  set (parsed := fold_left parse_header (rev ls) Obj.empty) in *.
  assert (Hget : forall k,
             Obj.get parsed k
             = if str_eqb k content_length
               then option_map VStr (added_content_length bd)
               else if str_eqb k Obj.proto_key then None
               else Obj.get hs k).
  { intro k. unfold parsed. rewrite get_parsed_headers_any.
    destruct (str_eqb k Obj.proto_key) eqn:Ep.
    { apply str_eqb_eq in Ep. subst k. reflexivity. }
    unfold ls. rewrite find_header_line.
    2:{ intros k' Hk'.
        now destruct (header_line_clean hs k' Hclean Hk') as (s & _ & H1 & _). }
    rewrite existsb_keys. destruct (Obj.get hs k) as [v|] eqn:Hk.
    - destruct (header_line_clean hs k Hclean (get_in_keys _ hs k v Hk))
        as (s & Hs & _ & Hv & _).
      rewrite Hv. rewrite Hk in Hs. rewrite Hs.
      destruct (str_eqb k content_length) eqn:E; [|reflexivity].
      apply str_eqb_eq in E. subst k. congruence.
    - unfold extra, added_content_length. destruct bd as [|c bd'].
      + cbn [find Obj.get Obj.empty option_map]. now destruct (str_eqb k content_length).
      + destruct (content_length_line (length (c :: bd'))) as (H1 & H2 & _).
        cbn [find]. rewrite H1.
        destruct (str_eqb content_length k) eqn:E.
        * apply str_eqb_eq in E. subst k. now rewrite H2, str_eqb_refl.
        * rewrite (str_eqb_neq k content_length)
            by (intros ->; now rewrite str_eqb_refl in E).
          reflexivity. }
  assert (Hbody : body (unmarshallSingle
                          (join BYTES_LF (cmd :: ls) ++ LF :: LF :: bd ++ [NUL])) = bd).
  { rewrite Hu. cbn [body]. rewrite (Hget content_length), str_eqb_refl.
    unfold added_content_length. destruct bd as [|c bd'].
    - reflexivity.
    - cbn [option_map read to_string].
      destruct (number_to_string_spec (length (c :: bd'))) as (ds & E & Hne & Hd & Hv).
      rewrite E. destruct ds as [|d ds]; [contradiction|]. cbn [truthy].
      rewrite (parseInt_digits (d :: ds) Hne Hd), Hv. cbn [num_add to_integer].
      rewrite Hsub. rewrite firstn_app, Nat.sub_diag, firstn_all.
      cbn [firstn]. apply app_nil_r. }
  split; [|split].
  - rewrite Hu. reflexivity.
  - exact Hbody.
  - intro k. rewrite Hu. cbn [headers]. apply Hget.
Qed.

Lemma marshall_unmarshallSingle_witness :
  let hs := [(lit "destination", VStr (lit "/queue/a")); (lit "receipt", VStr (lit "r-1"))] in
  exists wire,
    fst (marshall (lit "SEND") hs (lit "hello")) = Ret wire
    /\ command (unmarshallSingle wire) = lit "SEND"
    /\ body (unmarshallSingle wire) = lit "hello"
    /\ Obj.get (headers (unmarshallSingle wire)) (lit "destination")
       = Some (VStr (lit "/queue/a"))
    /\ Obj.get (headers (unmarshallSingle wire)) content_length
       = Some (VStr (lit "5")).
Proof.
  intro hs.
  destruct (marshall_unmarshallSingle (lit "SEND") hs (lit "hello"))
    as (wire & Hw & Hc & Hb & Hh).
  - cbv. intuition discriminate.
  - intros k Hk. unfold hs in Hk. cbn [Obj.keys map fst In] in Hk.
    destruct Hk as [<-|[<-|[]]].
    + split; [|exists (lit "/queue/a"); split; [reflexivity|]];
        repeat split; try reflexivity; cbv; intuition discriminate.
    + split; [|exists (lit "r-1"); split; [reflexivity|]];
        repeat split; try reflexivity; cbv; intuition discriminate.
  - reflexivity.
  - repeat constructor.
  - exists wire. repeat split; try assumption.
    + now rewrite (Hh (lit "destination")).
    + now rewrite (Hh content_length).
Defined.

(** C1 as stated fails on headers: [unmarshallSingle] trims every value, so
    a value that begins with a space does not come back. *)
Lemma round_trip_trims_value :
  let hs := [(lit "a", VStr (lit " 1"))] in
  Obj.get hs content_length = None
  /\ exists wire,
       fst (marshall (lit "SEND") hs []) = Ret wire
       /\ Obj.get (headers (unmarshallSingle wire)) (lit "a") = Some (VStr (lit "1"))
       /\ Obj.get (headers (unmarshallSingle wire)) (lit "a") <> Obj.get hs (lit "a").
Proof.
  split; [reflexivity|]. eexists. split; [reflexivity|].
  split; [reflexivity | discriminate].
Qed.

(** C1 as stated fails on bodies too: the content-length written counts
    bytes and the one read counts characters, so a body with a character of
    two bytes comes back with the NULL terminator at its end. *)
Lemma round_trip_two_byte_character :
  exists wire,
    fst (marshall (lit "SEND") Obj.empty [233%N]) = Ret wire
    /\ body (unmarshallSingle wire) = [233%N; 0%N].
Proof.
  eexists. split; reflexivity.
Qed.

(** And on headers once more: an own property [__proto__] of the headers,
    clean as its name and value may be, is written on its line and is not
    read back. *)
Lemma round_trip_drops_proto :
  let hs := [(lit "__proto__", VStr (lit "x"))] in
  clean_headers hs
  /\ exists wire,
       fst (marshall (lit "SEND") hs []) = Ret wire
       /\ wire = lit "SEND" ++ [LF] ++ lit "__proto__:x" ++ [LF; LF; NUL]
       /\ headers (unmarshallSingle wire) = Obj.empty.
Proof.
  split.
  - intros k Hk. cbn [Obj.keys map fst In] in Hk. destruct Hk as [<-|[]].
    split; [|exists (lit "x"); split; [reflexivity|]];
      repeat split; try reflexivity; cbv; intuition discriminate.
  - eexists. repeat split.
Qed.

(** * More properties of the codec *)

(** ** [sizeOfUTF8] on every string *)

(** X1. [sizeOfUTF8] returns the UTF-8 byte count of a string that has one
    and raises [URIError] on a string with a surrogate that has no partner;
    it never raises anything else (the match of [/%..|./g] is never
    [null]). *)
Theorem sizeOfUTF8_total (s : jsstring) :
  code_units s ->
  sizeOfUTF8 s
  = match encoded_byte_count s with
    | Some n => Ret (Z.of_nat n)
    | None => Throw URIError
    end.
Proof.
  intro H. destruct (encoded_byte_count s) as [n|] eqn:E.
  - now apply sizeOfUTF8_encoded.
  - now apply sizeOfUTF8_unpaired.
Qed.

Lemma sizeOfUTF8_total_witness :
  sizeOfUTF8 [97%N; 233%N; 8364%N; 55357%N; 56832%N] = Ret 10%Z
  /\ sizeOfUTF8 [97%N; 56832%N] = Throw URIError.
Proof.
  split.
  - apply (sizeOfUTF8_total [97%N; 233%N; 8364%N; 55357%N; 56832%N]).
    repeat constructor.
  - apply (sizeOfUTF8_total [97%N; 56832%N]). repeat constructor.
Defined.

Lemma utf8_size_unit (c : N) : (c < 65536)%N -> utf8_size c <= 3.
Proof.
  intro H. unfold utf8_size.
  destruct (c <? 128)%N; [lia|]. destruct (c <? 2048)%N; [lia|].
  apply N.ltb_lt in H. rewrite H. lia.
Qed.

Lemma utf8_size_pair (hi lo : N) :
  is_high_surrogate hi = true -> is_low_surrogate lo = true ->
  utf8_size (pair_code_point hi lo) = 4.
Proof.
  intros H1 H2. pose proof (pair_code_point_bound hi lo H1 H2) as B.
  unfold utf8_size.
  destruct (N.ltb_spec (pair_code_point hi lo) 128); [lia|].
  destruct (N.ltb_spec (pair_code_point hi lo) 2048); [lia|].
  destruct (N.ltb_spec (pair_code_point hi lo) 65536); [lia|reflexivity].
Qed.

Lemma encoded_byte_count_bounds (s : jsstring) (n : nat) :
  code_units s -> encoded_byte_count s = Some n ->
  length s <= n <= 3 * length s.
Proof.
  unfold encoded_byte_count.
  remember (length s) as m eqn:Hm. revert s n Hm.
  induction m as [m IH] using lt_wf_ind. intros s n Hm Hs.
  destruct s as [|c r]; [intros [= <-]; simpl in *; lia|].
  inversion Hs as [|? ? Hc Hr]; subst. cbn [code_points].
  destruct (is_high_surrogate c) eqn:Hh.
  - destruct r as [|k r']; [discriminate|].
    destruct (is_low_surrogate k) eqn:Hk; [|discriminate].
    inversion Hr as [|? ? _ Hr']; subst.
    destruct (code_points r') as [cps|] eqn:E; [|discriminate].
    cbn [option_map map list_sum fold_right]. intros [= <-].
    specialize (IH (length r') ltac:(simpl; lia) r' (list_sum (map utf8_size cps)) eq_refl Hr').
    rewrite E in IH. specialize (IH eq_refl).
    rewrite (utf8_size_pair c k Hh Hk). cbn [length].
    change (fold_right Nat.add 0 (map utf8_size cps)) with (list_sum (map utf8_size cps)).
    lia.
  - destruct (is_low_surrogate c); [discriminate|].
    destruct (code_points r) as [cps|] eqn:E; [|discriminate].
    cbn [option_map map list_sum fold_right]. intros [= <-].
    specialize (IH (length r) ltac:(simpl; lia) r (list_sum (map utf8_size cps)) eq_refl Hr).
    rewrite E in IH. specialize (IH eq_refl).
    pose proof (utf8_size_pos c). pose proof (utf8_size_unit c Hc). cbn [length].
    change (fold_right Nat.add 0 (map utf8_size cps)) with (list_sum (map utf8_size cps)).
    lia.
Qed.

(** X2. The count [sizeOfUTF8] returns is never below the length of the
    string in code units and never above three times that length; so a
    content-length computed by [toString] is never smaller than the body
    is long. *)
Theorem sizeOfUTF8_bounds (s : jsstring) (z : Z) :
  code_units s ->
  sizeOfUTF8 s = Ret z ->
  (Z.of_nat (length s) <= z <= 3 * Z.of_nat (length s))%Z.
Proof.
  intros Hs. destruct (encoded_byte_count s) as [n|] eqn:E.
  - rewrite (sizeOfUTF8_encoded s n Hs E). intros [= <-].
    pose proof (encoded_byte_count_bounds s n Hs E). lia.
  - rewrite (sizeOfUTF8_unpaired s Hs E). discriminate.
Qed.

Lemma sizeOfUTF8_bounds_witness :
  (Z.of_nat (length [233%N; 8364%N]) <= 5 <= 3 * Z.of_nat (length [233%N; 8364%N]))%Z.
Proof.
  apply (sizeOfUTF8_bounds [233%N; 8364%N] 5).
  - repeat constructor.
  - reflexivity.
Defined.

(** ** [trim] and the parts of a header line *)

Lemma drop_while_split (p : N -> bool) (s : jsstring) :
  exists pre,
    s = pre ++ drop_while p s
    /\ Forall (fun c => p c = true) pre
    /\ (forall c r, drop_while p s = c :: r -> p c = false).
Proof.
  induction s as [|c s (pre & E & Hpre & Hhd)]; simpl.
  - exists []. repeat split; [constructor | discriminate].
  - destruct (p c) eqn:Hc.
    + exists (c :: pre). repeat split.
      * simpl. f_equal. exact E.
      * now constructor.
      * exact Hhd.
    + exists []. repeat split; [constructor|].
      intros c' r [= <- _]. exact Hc.
Qed.

(** X3. [trim] removes white space at the two ends and nothing else: the
    string is some white space, the trimmed string, some white space; the
    trimmed string, when not empty, begins and ends with a character that
    is not white space; and trimming twice is trimming once. *)
Theorem trim_spec (s : jsstring) :
  (exists a b,
      s = a ++ trim s ++ b
      /\ Forall (fun c => is_space c = true) a
      /\ Forall (fun c => is_space c = true) b)
  /\ (forall c r, trim s = c :: r -> is_space c = false)
  /\ (forall r c, trim s = r ++ [c] -> is_space c = false)
  /\ trim (trim s) = trim s.
Proof.
  unfold trim, strip_spaces.
  destruct (drop_while_split is_space s) as (a & Ea & Ha & Hhd).
  set (d := drop_while is_space s) in *.
  destruct (drop_while_split is_space (rev d)) as (b & Eb & Hb & Hlast).
  set (r := drop_while is_space (rev d)) in *.
  assert (Ed : d = rev r ++ rev b).
  { rewrite <- (rev_involutive d), Eb. apply rev_app_distr. }
  assert (Hfirst : forall c t, rev r = c :: t -> is_space c = false).
  { intros c t E. apply (Hhd c (t ++ rev b)). rewrite Ed, E. reflexivity. }
  assert (Hend : forall t c, rev r = t ++ [c] -> is_space c = false).
  { intros t c E. apply (Hlast c (rev t)).
    rewrite <- (rev_involutive r), E, rev_app_distr. reflexivity. }
  split; [|split; [|split]].
  - exists a, (rev b). split; [|split].
    + now rewrite Ea at 1; rewrite Ed.
    + exact Ha.
    + now apply Forall_rev.
  - exact Hfirst.
  - exact Hend.
  - assert (E1 : drop_while is_space (rev r) = rev r).
    { destruct (rev r) as [|c t] eqn:Er; [reflexivity|].
      simpl. now rewrite (Hfirst c t eq_refl). }
    rewrite E1, rev_involutive.
    assert (E2 : drop_while is_space r = r).
    { destruct r as [|c t] eqn:Er; [reflexivity|].
      simpl. now rewrite (Hlast c t eq_refl). }
    now rewrite E2.
Qed.

Lemma trim_spec_witness :
  exists a b,
    [32%N; 9%N] ++ lit "a b" ++ [10%N]
    = a ++ trim ([32%N; 9%N] ++ lit "a b" ++ [10%N]) ++ b
    /\ Forall (fun c => is_space c = true) a
    /\ Forall (fun c => is_space c = true) b.
Proof.
  exact (proj1 (trim_spec ([32%N; 9%N] ++ lit "a b" ++ [10%N]))).
Defined.

Lemma find_substr_absent (c : N) (s : jsstring) :
  ~ In c s -> find_substr [c] s = None.
Proof.
  induction s as [|x s IH]; intro H; [reflexivity|].
  cbn [find_substr starts_with].
  destruct (N.eqb_spec c x) as [->|_]; [exfalso; apply H; now left|].
  cbn [andb]. now rewrite IH by (intro F; apply H; now right).
Qed.

(** X4. A header line is cut at its first colon and each side is trimmed,
    to give the name and the value the header loop assigns; a line without
    colon assigns to the empty name the whole line, trimmed. *)
Theorem header_line_parts (hs : Obj.t jsval) (line : jsstring) :
  (forall k v, line = k ++ 58%N :: v -> ~ In 58%N k ->
     parse_header hs line = Obj.set hs (trim k) (VStr (trim v)))
  /\ (~ In 58%N line ->
      parse_header hs line = Obj.set hs [] (VStr (trim line))).
Proof.
  rewrite parse_header_eq. split.
  - intros k v -> Hk. destruct (parsed_line k v Hk) as [E1 E2].
    unfold colon in E1, E2. change (lit ":" ++ v) with (58%N :: v) in E1, E2.
    now rewrite E1, E2.
  - intro H. unfold header_name, header_value, indexOf, colon.
    change (lit ":") with [58%N]. rewrite (find_substr_absent 58%N line H).
    rewrite substring_to_nonpos by lia.
    rewrite substring_from_nonpos by lia. reflexivity.
Qed.

Lemma header_line_parts_witness :
  parse_header Obj.empty (lit " a : b:c ") = [(lit "a", VStr (lit "b:c"))]
  /\ parse_header Obj.empty (lit " abc ") = [([], VStr (lit "abc"))].
Proof.
  destruct (header_line_parts Obj.empty (lit " a : b:c ")) as [H1 _].
  destruct (header_line_parts Obj.empty (lit " abc ")) as [_ H2].
  rewrite (H1 (lit " a ") (lit " b:c ") eq_refl), H2.
  - split; reflexivity.
  - cbv. intuition discriminate.
  - cbv. intuition discriminate.
Defined.

(** ** The body of a parsed frame *)

Lemma find_none (k : jsstring) (ls : list jsstring) :
  (forall l, In l ls -> header_name l <> k) ->
  find (fun l => str_eqb (header_name l) k) ls = None.
Proof.
  induction ls as [|l ls IH]; intro H; [reflexivity|]. cbn [find].
  rewrite (str_eqb_neq (header_name l) k) by (apply H; now left).
  apply IH. intros x Hx. apply H. now right.
Qed.

Lemma find_first (k : jsstring) (before : list jsstring) (l : jsstring)
    (after : list jsstring) :
  (forall x, In x before -> header_name x <> k) ->
  header_name l = k ->
  find (fun l => str_eqb (header_name l) k) (before ++ l :: after) = Some l.
Proof.
  intros Hb Hl. induction before as [|x before IH]; cbn [app find].
  - now rewrite Hl, str_eqb_refl.
  - rewrite (str_eqb_neq (header_name x) k) by (apply Hb; now left).
    apply IH. intros y Hy. apply Hb. now right.
Qed.

Lemma take_while_no_nul (s : jsstring) : ~ In NUL (take_while not_nul s).
Proof.
  induction s as [|c s IH]; simpl; [tauto|].
  unfold not_nul at 1. destruct (N.eqb_spec c NUL) as [E|E]; simpl; [tauto|].
  intros [F|F]; [congruence | now apply IH].
Qed.

(** X5. Sentinel-delimited body: when no header line of a frame text is a
    content-length, the body [unmarshallSingle] returns is what follows the
    blank line up to the first NULL, or to the end when there is none; it
    holds no NULL. *)
Theorem body_until_null
    (cmd : jsstring) (ls : list jsstring) (tail : jsstring) :
  ~ In LF cmd ->
  Forall (fun x => ~ In LF x /\ x <> []) ls ->
  (forall l, In l ls -> header_name l <> content_length) ->
  let frame := unmarshallSingle (join BYTES_LF (cmd :: ls) ++ LF :: LF :: tail) in
  command frame = cmd
  /\ body frame = take_while not_nul tail
  /\ ~ In NUL (body frame).
Proof.
  intros Hc Hls Hno frame.
  destruct (unmarshallSingle_text cmd ls tail Hc Hls) as [Hu _]. cbv zeta in Hu.
  unfold frame. rewrite Hu. cbn [command body].
  rewrite get_parsed_headers by reflexivity. rewrite (find_none content_length ls Hno).
  cbn [Obj.get Obj.empty read truthy].
  repeat split. apply take_while_no_nul.
Qed.

Lemma body_until_null_witness :
  let frame :=
    unmarshallSingle
      (join BYTES_LF [lit "MESSAGE"; lit "a:1"] ++ LF :: LF :: lit "one" ++ NUL :: lit "two") in
  command frame = lit "MESSAGE" /\ body frame = lit "one".
Proof.
  destruct (body_until_null (lit "MESSAGE") [lit "a:1"] (lit "one" ++ NUL :: lit "two"))
    as (H1 & H2 & _).
  - cbv. intuition discriminate.
  - repeat constructor; cbv; intuition discriminate.
  - intros l [<-|[]]. discriminate.
  - split; [exact H1 | exact H2].
Defined.

(** X6. Length-delimited body: when the first content-length line of a
    frame text has a value that is not empty and that [parseInt] reads as
    [z >= 0], the body is the first [z] characters after the blank line,
    NULL characters included, or all of them when there are fewer. *)
Theorem body_by_content_length
    (cmd : jsstring) (before : list jsstring) (l : jsstring)
    (after : list jsstring) (tail : jsstring) (z : Z) :
  ~ In LF cmd ->
  Forall (fun x => ~ In LF x /\ x <> []) (before ++ l :: after) ->
  (forall x, In x before -> header_name x <> content_length) ->
  header_name l = content_length ->
  header_value l <> [] ->
  parseInt (header_value l) = Some z ->
  (0 <= z)%Z ->
  body (unmarshallSingle
          (join BYTES_LF (cmd :: before ++ l :: after) ++ LF :: LF :: tail))
  = firstn (Z.to_nat z) tail.
Proof.
  intros Hc Hls Hb Hl Hv Hp Hz.
  destruct (unmarshallSingle_text cmd (before ++ l :: after) tail Hc Hls) as [Hu Hsub].
  cbv zeta in Hu, Hsub. rewrite Hu. cbn [body].
  rewrite get_parsed_headers by reflexivity. rewrite (find_first content_length before l after Hb Hl).
  cbn [read to_string]. destruct (header_value l) as [|c v] eqn:E; [contradiction|].
  cbn [truthy]. rewrite Hp. cbn [num_add to_integer].
  rewrite <- (Z2Nat.id z Hz) at 1. apply Hsub.
Qed.

Lemma body_by_content_length_witness :
  body (unmarshallSingle
          (join BYTES_LF [lit "MESSAGE"; lit "content-length: 3"; lit "content-length:1"]
           ++ LF :: LF :: [97%N; 0%N; 98%N; 99%N; 0%N]))
  = [97%N; 0%N; 98%N].
Proof.
  apply (body_by_content_length (lit "MESSAGE") [] (lit "content-length: 3")
           [lit "content-length:1"] [97%N; 0%N; 98%N; 99%N; 0%N] 3).
  - cbv. intuition discriminate.
  - repeat constructor; cbv; intuition discriminate.
  - intros x [].
  - reflexivity.
  - discriminate.
  - reflexivity.
  - lia.
Defined.

Lemma substring_backwards (s : jsstring) (i : nat) :
  substring s (Z.of_nat i) 0 = firstn i s.
Proof.
  unfold substring. rewrite clamp_of_nat, (clamp_nonpos (length s) 0%Z) by lia.
  rewrite Nat.max_0_r, Nat.min_0_r, Nat.sub_0_r. cbn [skipn].
  destruct (Nat.le_gt_cases i (length s)) as [H|H].
  - now replace (Nat.min i (length s)) with i by lia.
  - replace (Nat.min i (length s)) with (length s) by lia.
    now rewrite !firstn_all2 by lia.
Qed.

(** X7. A content-length that is no number: when the first content-length
    line has a value that is not empty and that [parseInt] reads as [NaN],
    the end of the slice is [NaN], [substring] takes it for 0 and swaps its
    ends, and the body is the text before the body: the command, the header
    lines and the blank line. *)
Theorem body_with_NaN_content_length
    (cmd : jsstring) (before : list jsstring) (l : jsstring)
    (after : list jsstring) (tail : jsstring) :
  ~ In LF cmd ->
  Forall (fun x => ~ In LF x /\ x <> []) (before ++ l :: after) ->
  (forall x, In x before -> header_name x <> content_length) ->
  header_name l = content_length ->
  header_value l <> [] ->
  parseInt (header_value l) = None ->
  body (unmarshallSingle
          (join BYTES_LF (cmd :: before ++ l :: after) ++ LF :: LF :: tail))
  = join BYTES_LF (cmd :: before ++ l :: after) ++ [LF; LF].
Proof.
  intros Hc Hls Hb Hl Hv Hp.
  destruct (unmarshallSingle_text cmd (before ++ l :: after) tail Hc Hls) as [Hu _].
  cbv zeta in Hu. rewrite Hu. cbn [body].
  rewrite get_parsed_headers by reflexivity. rewrite (find_first content_length before l after Hb Hl).
  cbn [read to_string]. destruct (header_value l) as [|c v] eqn:E; [contradiction|].
  cbn [truthy]. rewrite Hp. cbn [num_add to_integer].
  set (J := join BYTES_LF (cmd :: before ++ l :: after)).
  replace (Z.of_nat (length J) + 2)%Z with (Z.of_nat (length J + 2)) by lia.
  rewrite substring_backwards.
  change (J ++ LF :: LF :: tail) with (J ++ [LF; LF] ++ tail).
  rewrite app_assoc, firstn_app.
  replace (length J + 2 - length (J ++ [LF; LF])) with 0
    by (rewrite length_app; simpl; lia).
  rewrite firstn_all2 by (rewrite length_app; simpl; lia).
  cbn [firstn]. apply app_nil_r.
Qed.

Lemma body_with_NaN_content_length_witness :
  body (unmarshallSingle
          (join BYTES_LF [lit "MESSAGE"; lit "content-length:abc"]
           ++ LF :: LF :: lit "hello"))
  = join BYTES_LF [lit "MESSAGE"; lit "content-length:abc"] ++ [LF; LF].
Proof.
  apply (body_with_NaN_content_length (lit "MESSAGE") [] (lit "content-length:abc")
           [] (lit "hello")).
  - cbv. intuition discriminate.
  - repeat constructor; cbv; intuition discriminate.
  - intros x [].
  - reflexivity.
  - discriminate.
  - reflexivity.
Defined.

(** ** What [marshall] returns and what it changes *)

(** X8. [marshall] raises only [URIError], and only for a body that is not
    empty, has a surrogate without its partner, and is not exempted by the
    sentinel; in every other case it returns a text that ends with the
    NULL. *)
Theorem marshall_raises_only_URIError
    (cmd : jsstring) (hs : Obj.t jsval) (bd : jsstring) :
  code_units bd ->
  match fst (marshall cmd hs bd) with
  | Throw e =>
      e = URIError
      /\ bd <> []
      /\ Obj.get hs content_length <> Some (VBool false)
      /\ encoded_byte_count bd = None
  | Ret text =>
      (exists t, text = t ++ BYTES_NULL)
      /\ (bd = []
          \/ Obj.get hs content_length = Some (VBool false)
          \/ exists n, encoded_byte_count bd = Some n)
  end.
Proof.
  intro Hu. unfold marshall.
  assert (Hdec : Obj.get hs content_length = Some (VBool false)
                 \/ Obj.get hs content_length <> Some (VBool false)).
  { destruct (Obj.get hs content_length) as [[|[|]|]|];
      (now left) || (right; discriminate). }
  destruct Hdec as [Hs|Hs].
  - rewrite (toString_sentinel cmd hs bd Hs). cbn [fst bind].
    split; [now eexists | now right; left].
  - destruct bd as [|c bd'].
    + rewrite (toString_empty_body cmd hs Hs). cbn [fst bind].
      split; [now eexists | now left].
    + rewrite (toString_plain cmd hs (c :: bd') Hs) by discriminate.
      destruct (encoded_byte_count (c :: bd')) as [n|] eqn:E.
      * rewrite (sizeOfUTF8_encoded (c :: bd') n Hu E). cbn [fst bind].
        split; [now eexists | right; right; now exists n].
      * rewrite (sizeOfUTF8_unpaired (c :: bd') Hu E). cbn [fst bind].
        repeat split; try assumption. discriminate.
Qed.

Lemma marshall_raises_only_URIError_witness :
  fst (marshall (lit "SEND") Obj.empty [55296%N]) = Throw URIError
  /\ exists t, fst (marshall (lit "SEND") [(content_length, VBool false)] [55296%N])
               = Ret (t ++ BYTES_NULL).
Proof.
  pose proof (marshall_raises_only_URIError (lit "SEND") Obj.empty [55296%N]) as H1.
  pose proof (marshall_raises_only_URIError (lit "SEND")
                [(content_length, VBool false)] [55296%N]) as H2.
  split.
  - destruct (fst (marshall (lit "SEND") Obj.empty [55296%N])) as [t|e] eqn:E.
    + discriminate E.
    + destruct H1 as (-> & _); [repeat constructor | reflexivity].
  - destruct (fst (marshall (lit "SEND") [(content_length, VBool false)] [55296%N]))
      as [t|e] eqn:E.
    + destruct H2 as ((t' & ->) & _); [repeat constructor|]. now exists t'.
    + discriminate E.
Defined.

(** X9. The only change [marshall] makes to the headers object of its
    caller is to delete the sentinel: without a sentinel the object is left
    as it was, and with one every other header keeps its value and the
    remaining keys keep their order. *)
Theorem marshall_changes_only_sentinel
    (cmd : jsstring) (hs : Obj.t jsval) (bd : jsstring) :
  let hs' := headers (snd (marshall cmd hs bd)) in
  (Obj.get hs content_length <> Some (VBool false) -> hs' = hs)
  /\ (forall k, k <> content_length -> Obj.get hs' k = Obj.get hs k)
  /\ Obj.keys hs'
     = (if is_false (read (Obj.get hs content_length))
        then filter (fun k => negb (str_eqb k content_length)) (Obj.keys hs)
        else Obj.keys hs).
Proof.
  intro hs'. unfold hs'. rewrite marshall_headers. split; [|split].
  - intro H. destruct (Obj.get hs content_length) as [[|[|]|]|]; try reflexivity.
    now contradiction H.
  - intros k Hk. destruct (is_false _); [|reflexivity].
    rewrite get_delete. now rewrite (str_eqb_neq content_length k) by congruence.
  - destruct (is_false _); [|reflexivity].
    unfold Obj.keys, Obj.delete. induction hs as [|[k v] hs IH]; [reflexivity|].
    cbn [filter map fst]. destruct (str_eqb k content_length); cbn [negb map fst];
      now rewrite IH.
Qed.

Lemma marshall_changes_only_sentinel_witness :
  let hs := [(lit "a", VStr (lit "1")); (content_length, VBool false);
             (lit "b", VStr (lit "2"))] in
  let hs' := headers (snd (marshall (lit "SEND") hs (lit "hi"))) in
  Obj.get hs' (lit "b") = Some (VStr (lit "2"))
  /\ Obj.keys hs' = [lit "a"; lit "b"].
Proof.
  intros hs hs'.
  destruct (marshall_changes_only_sentinel (lit "SEND") hs (lit "hi"))
    as (_ & H2 & H3).
  split.
  - apply (H2 (lit "b")). discriminate.
  - exact H3.
Defined.

(** ** What [unmarshall] returns *)

(** X11. [unmarshall] never returns a frame: on a text that holds a NULL,
    or is a lone line feed, it has a piece to parse, calls
    [unmarshallSingle] by a name that nothing binds and raises
    [ReferenceError]; on every other text it returns no frame and the
    whole text as the partial text. *)
Theorem unmarshall_returns_no_frame (datas : jsstring) :
  (In NUL datas \/ datas = BYTES_LF -> unmarshall datas = Throw ReferenceError)
  /\ (~ In NUL datas -> datas <> BYTES_LF ->
      unmarshall datas = Ret (mkUnmarshalled [] datas))
  /\ (forall u, unmarshall datas = Ret u -> frames u = [] /\ partial u = datas).
Proof.
  assert (H1 : In NUL datas \/ datas = BYTES_LF ->
               unmarshall datas = Throw ReferenceError).
  { intros [H| ->]; [now apply unmarshall_nul | apply unmarshall_lone_lf]. }
  split; [exact H1|]. split; [apply unmarshall_partial|].
  intros u Hu.
  destruct (in_dec N.eq_dec NUL datas) as [H|H].
  { rewrite H1 in Hu by now left. discriminate. }
  destruct (list_eq_dec N.eq_dec datas BYTES_LF) as [E|E].
  { rewrite H1 in Hu by now right. discriminate. }
  rewrite (unmarshall_partial datas H E) in Hu. injection Hu as <-. now split.
Qed.

Lemma unmarshall_returns_no_frame_witness :
  unmarshall (lit "SEND" ++ [LF; LF] ++ lit "hello" ++ [NUL]) = Throw ReferenceError
  /\ unmarshall (lit "SEND" ++ [LF; LF] ++ lit "hel")
     = Ret (mkUnmarshalled [] (lit "SEND" ++ [LF; LF] ++ lit "hel")).
Proof.
  split.
  - apply (unmarshall_returns_no_frame
             (lit "SEND" ++ [LF; LF] ++ lit "hello" ++ [NUL])).
    left. cbv. tauto.
  - apply (unmarshall_returns_no_frame (lit "SEND" ++ [LF; LF] ++ lit "hel")).
    + cbv. intuition discriminate.
    + discriminate.
Defined.

(** * More properties of the client *)

(** ** [_transmit] for any text and any frame size *)

Lemma last_cons_ne (A : Type) (a d : A) (l : list A) :
  l <> [] -> last (a :: l) d = last l d.
Proof. destruct l; [contradiction | reflexivity]. Qed.

Lemma removelast_cons_ne (A : Type) (a : A) (l : list A) :
  l <> [] -> removelast (a :: l) = a :: removelast l.
Proof. destruct l; [contradiction | reflexivity]. Qed.

(** The loop of [_transmit] with a positive frame size: the pieces it
    sends. *)
Lemma transmit_loop_chunks (fuel : nat) (out : jsstring) (this : Client) :
  (0 < maxWebSocketFrameSize this)%Z ->
  length out < fuel ->
  exists evs,
    transmit_loop fuel out this = Done tt (with_trace this (trace this ++ evs))
    /\ concat (sends evs) = out
    /\ sends evs <> []
    /\ Forall (fun c => Z.of_nat (length c) = maxWebSocketFrameSize this)
         (removelast (sends evs))
    /\ (Z.of_nat (length (last (sends evs) [])) <= maxWebSocketFrameSize this)%Z
    /\ (out <> [] -> last (sends evs) [] <> [])
    /\ invoked evs = [].
Proof.
  revert out this. induction fuel as [|fuel IH]; intros out this Hmax Hfuel; [lia|].
  destruct (Z.gtb_spec (Z.of_nat (length out)) (maxWebSocketFrameSize this)) as [H|H].
  - rewrite transmit_loop_more by lia.
    set (size := maxWebSocketFrameSize this) in *.
    set (this' := with_trace this _).
    destruct (IH (substring_from out size) this')
      as (evs & E & Hs & Hne & Hall & Hlast & Hnel & Hi).
    + exact Hmax.
    + rewrite substring_from_Z, length_skipn by lia. lia.
    + eexists. split; [|split; [|split; [|split; [|split; [|split]]]]].
      * rewrite E. unfold this'. cbn [with_trace trace].
        rewrite <- app_assoc. reflexivity.
      * rewrite sends_app. cbn [sends concat app]. rewrite Hs.
        apply substring_split. lia.
      * rewrite sends_app. cbn [sends app]. discriminate.
      * rewrite sends_app. cbn [sends app].
        rewrite removelast_cons_ne by exact Hne. constructor; [|exact Hall].
        rewrite substring_prefix_Z, length_firstn by lia. lia.
      * rewrite sends_app. cbn [sends app].
        rewrite last_cons_ne by exact Hne. exact Hlast.
      * intros _. rewrite sends_app. cbn [sends app].
        rewrite last_cons_ne by exact Hne. apply Hnel.
        rewrite substring_from_Z by lia. intro F.
        apply (f_equal (@length N)) in F. rewrite length_skipn in F.
        cbn [length] in F. lia.
      * rewrite invoked_app. cbn [invoked app]. exact Hi.
  - rewrite transmit_loop_last by lia. exists [Send out].
    cbn [sends removelast last concat invoked].
    repeat split; try (now constructor); try discriminate.
    + apply app_nil_r.
    + exact H.
    + auto.
Qed.

(** X12. Fragmentation in general: with a positive [maxWebSocketFrameSize]
    and fuel for as many turns as the text is long, [_transmit] returns
    after at least one call of [ws.send]; the payloads concatenated are the
    text [marshall] returned, each payload but the last is exactly as long
    as the frame size, the last is not empty and no longer than it; no
    function of the application is called, and the subscriptions and the
    counter are as they were. *)
Theorem transmit_chunks
    (fuel : nat) (cmd : jsstring) (hs : Obj.t jsval) (bd out : jsstring)
    (frame : Frame) (this : Client) :
  marshall cmd hs bd = (Ret out, frame) ->
  (0 < maxWebSocketFrameSize this)%Z ->
  length out < fuel ->
  exists this' chunks,
    _transmit fuel cmd hs bd this = Done (headers frame) this'
    /\ sends (trace this') = sends (trace this) ++ chunks
    /\ concat chunks = out
    /\ Forall (fun c => Z.of_nat (length c) = maxWebSocketFrameSize this)
         (removelast chunks)
    /\ (0 < Z.of_nat (length (last chunks [])) <= maxWebSocketFrameSize this)%Z
    /\ invoked (trace this') = invoked (trace this)
    /\ subscriptions this' = subscriptions this
    /\ counter this' = counter this.
Proof.
  intros Hm Hmax Hfuel.
  rewrite (_transmit_eq fuel cmd hs bd out frame this Hm).
  match goal with |- context [transmit_loop fuel out ?t] =>
    destruct (transmit_loop_chunks fuel out t Hmax Hfuel)
      as (evs & E & Hs & Hne & Hall & Hlast & Hnel & Hi); rewrite E
  end.
  eexists. exists (sends evs). split; [reflexivity|].
  cbn [with_trace trace subscriptions counter maxWebSocketFrameSize] in *.
  rewrite !sends_app, !invoked_app, Hi. cbn [sends invoked app].
  rewrite !app_nil_r.
  repeat split; try assumption.
  assert (Hout : out <> []).
  { destruct (marshall_text cmd hs bd out frame Hm) as (text & _ & ->).
    destruct text; discriminate. }
  specialize (Hnel Hout). destruct (last (sends evs) []); [contradiction|].
  cbn [length]. lia.
Qed.

Lemma transmit_chunks_witness :
  let this := mkClient 0 true 0 0 10 Obj.empty [] None None None None 0 [] in
  let wire := lit "SEND" ++ [LF] ++ lit "content-length:5" ++ [LF; LF]
              ++ lit "hello" ++ [NUL] in
  exists this' chunks,
    _transmit 100 (lit "SEND") Obj.empty (lit "hello") this = Done Obj.empty this'
    /\ sends (trace this') = chunks
    /\ concat chunks = wire
    /\ Forall (fun c => Z.of_nat (length c) = 10%Z) (removelast chunks).
Proof.
  intros this wire.
  assert (Hm : marshall (lit "SEND") Obj.empty (lit "hello")
               = (Ret wire, mkFrame (lit "SEND") Obj.empty (lit "hello")))
    by reflexivity.
  assert (Hmax : (0 < maxWebSocketFrameSize this)%Z) by reflexivity.
  assert (Hfuel : length wire < 100) by (vm_compute; lia).
  destruct (transmit_chunks 100 _ _ _ _ _ this Hm Hmax Hfuel)
    as (this' & chunks & E & Hs & Hc & Hall & _).
  exists this', chunks. repeat split; assumption.
Defined.

(** The loop of [_transmit] with a frame size that is not positive: every
    turn sends the empty string and keeps the whole text. *)
Lemma transmit_loop_stuck (fuel : nat) (out : jsstring) (this : Client) :
  (maxWebSocketFrameSize this <= 0)%Z ->
  out <> [] ->
  transmit_loop fuel out this = OutOfFuel.
Proof.
  revert this. induction fuel as [|fuel IH]; intros this Hmax Hout; [reflexivity|].
  rewrite transmit_loop_more.
  - rewrite (substring_from_nonpos out _ Hmax). now apply IH.
  - destruct out; [contradiction|]. cbn [length]. lia.
Qed.

(** X13. A frame size that is not positive: when [maxWebSocketFrameSize] is
    zero or negative, [_transmit] does not return, whatever the frame: the
    text is never shorter than one character, so every turn of the loop
    takes the branch that sends a piece, of no character, and the loop
    runs out of any fuel. *)
Theorem transmit_never_returns
    (cmd : jsstring) (hs : Obj.t jsval) (bd out : jsstring)
    (frame : Frame) (this : Client) :
  marshall cmd hs bd = (Ret out, frame) ->
  (maxWebSocketFrameSize this <= 0)%Z ->
  forall fuel, _transmit fuel cmd hs bd this = OutOfFuel.
Proof.
  intros Hm Hmax fuel.
  rewrite (_transmit_eq fuel cmd hs bd out frame this Hm).
  rewrite transmit_loop_stuck; [reflexivity | exact Hmax |].
  destruct (marshall_text cmd hs bd out frame Hm) as (text & _ & ->).
  destruct text; discriminate.
Qed.

Lemma transmit_never_returns_witness :
  let this := mkClient 0 true 0 0 0 Obj.empty [] None None None None 0 [] in
  _transmit 1000 (lit "SEND") Obj.empty (lit "hello") this = OutOfFuel.
Proof.
  intro this.
  assert (Hm : marshall (lit "SEND") Obj.empty (lit "hello")
               = (Ret (lit "SEND" ++ [LF] ++ lit "content-length:5" ++ [LF; LF]
                       ++ lit "hello" ++ [NUL]),
                  mkFrame (lit "SEND") Obj.empty (lit "hello")))
    by reflexivity.
  apply (transmit_never_returns _ _ _ _ _ this Hm).
  cbn. lia.
Defined.

(** ** What the message handler does with a message *)

(** A message that leaves the buffer with a piece to parse. *)
Lemma onmessage_raises
    (V1_1 V1_2 : jsval) (builtin : jsstring -> handler)
    (member : handler -> jsstring -> option callee)
    (run : handler -> Frame -> M unit) (cc ec : option handler)
    (now : Z) (data : jsstring) (this : Client) :
  data <> Byte_obj_LF ->
  unmarshall (partialData this ++ data) = Throw ReferenceError ->
  exists this',
    onmessage V1_1 V1_2 builtin member run cc ec now data this = Raised ReferenceError this'
    /\ serverActivity this' = now
    /\ trace this' = trace this ++ [Log (lit "<<< " ++ data)]
    /\ partialData this' = partialData this
    /\ subscriptions this' = subscriptions this
    /\ counter this' = counter this.
Proof.
  intros Hd Hu. unfold onmessage.
  unfold seq at 1. unfold set_serverActivity at 1.
  rewrite (str_eqb_neq data Byte_obj_LF Hd).
  unfold seq, debug, emit, the, lift. cbn [trace with_trace partialData].
  rewrite Hu. eexists. split; [reflexivity|]. repeat split.
Qed.

(** A message that leaves the buffer without one. *)
Lemma onmessage_buffers
    (V1_1 V1_2 : jsval) (builtin : jsstring -> handler)
    (member : handler -> jsstring -> option callee)
    (run : handler -> Frame -> M unit) (cc ec : option handler)
    (now : Z) (data : jsstring) (this : Client) :
  data <> Byte_obj_LF ->
  unmarshall (partialData this ++ data)
  = Ret (mkUnmarshalled [] (partialData this ++ data)) ->
  exists this',
    onmessage V1_1 V1_2 builtin member run cc ec now data this = Done tt this'
    /\ serverActivity this' = now
    /\ trace this' = trace this ++ [Log (lit "<<< " ++ data)]
    /\ partialData this' = partialData this ++ data
    /\ subscriptions this' = subscriptions this
    /\ counter this' = counter this.
Proof.
  intros Hd Hu. unfold onmessage.
  unfold seq at 1. unfold set_serverActivity at 1.
  rewrite (str_eqb_neq data Byte_obj_LF Hd).
  unfold seq, debug, emit, the, lift, set_partialData.
  cbn [trace with_trace partialData].
  rewrite Hu. cbn [frames partial for_each ret]. eexists.
  split; [reflexivity|]. repeat split.
Qed.

(** X14. What the message handler does, whatever the functions of the
    application do: it stamps the time of the message, and calls none of
    them.  A lone line feed is logged as a heartbeat and leaves the buffer
    alone.  Any other message is logged and put after the buffer; when the
    two together hold a NULL, or are a lone line feed, [unmarshall] raises
    [ReferenceError] before the buffer is assigned and before any frame is
    dispatched, and otherwise the buffer becomes the two together and the
    handler returns.  Nothing is written to the socket, and the
    subscriptions and the counter are as they were. *)
Theorem onmessage_never_dispatches
    (V1_1 V1_2 : jsval) (builtin : jsstring -> handler)
    (member : handler -> jsstring -> option callee)
    (run : handler -> Frame -> M unit) (cc ec : option handler)
    (now : Z) (data : jsstring) (this : Client) :
  let buffer := partialData this ++ data in
  exists this',
    final_state (onmessage V1_1 V1_2 builtin member run cc ec now data this) = Some this'
    /\ serverActivity this' = now
    /\ sends (trace this') = sends (trace this)
    /\ invoked (trace this') = invoked (trace this)
    /\ subscriptions this' = subscriptions this
    /\ counter this' = counter this
    /\ (data = Byte_obj_LF ->
        onmessage V1_1 V1_2 builtin member run cc ec now data this = Done tt this'
        /\ partialData this' = partialData this)
    /\ (data <> Byte_obj_LF -> In NUL buffer \/ buffer = BYTES_LF ->
        onmessage V1_1 V1_2 builtin member run cc ec now data this = Raised ReferenceError this'
        /\ partialData this' = partialData this)
    /\ (data <> Byte_obj_LF -> ~ In NUL buffer -> buffer <> BYTES_LF ->
        onmessage V1_1 V1_2 builtin member run cc ec now data this = Done tt this'
        /\ partialData this' = buffer).
Proof.
  intro buffer.
  destruct (list_eq_dec N.eq_dec data Byte_obj_LF) as [Ed|Ed].
  - subst data. eexists. split; [reflexivity|].
    cbn [serverActivity trace with_trace subscriptions counter partialData].
    rewrite sends_app, invoked_app. cbn [sends invoked]. rewrite !app_nil_r.
    do 5 (split; [reflexivity|]). split; [|split].
    + intros _. split; reflexivity.
    + intros F. now contradiction F.
    + intros F. now contradiction F.
  - assert (Hcases : (In NUL buffer \/ buffer = BYTES_LF)
                     \/ (~ In NUL buffer /\ buffer <> BYTES_LF)).
    { destruct (in_dec N.eq_dec NUL buffer) as [H|H]; [now left; left|].
      destruct (list_eq_dec N.eq_dec buffer BYTES_LF) as [E|E]; [now left; right|].
      now right. }
    destruct Hcases as [Hr|[Hn Hl]].
    + assert (Hu : unmarshall buffer = Throw ReferenceError).
      { destruct Hr as [H|H]; [now apply unmarshall_nul|].
        rewrite H. apply unmarshall_lone_lf. }
      destruct (onmessage_raises V1_1 V1_2 builtin member run cc ec now data this Ed Hu)
        as (this' & E & Ha & Ht & Hp & Hs & Hc).
      exists this'. rewrite E, Ht, sends_app, invoked_app.
      cbn [final_state sends invoked]. rewrite !app_nil_r.
      split; [reflexivity|]. split; [exact Ha|]. do 2 (split; [reflexivity|]).
      split; [exact Hs|]. split; [exact Hc|]. split; [|split].
      * intro F. now contradiction Ed.
      * intros _ _. now split.
      * intros _ Hn Hl. destruct Hr as [H|H]; [now contradiction Hn|].
        now contradiction Hl.
    + pose proof (unmarshall_partial buffer Hn Hl) as Hu.
      destruct (onmessage_buffers V1_1 V1_2 builtin member run cc ec now data this Ed Hu)
        as (this' & E & Ha & Ht & Hp & Hs & Hc).
      exists this'. rewrite E, Ht, sends_app, invoked_app.
      cbn [final_state sends invoked]. rewrite !app_nil_r.
      split; [reflexivity|]. split; [exact Ha|]. do 2 (split; [reflexivity|]).
      split; [exact Hs|]. split; [exact Hc|]. split; [|split].
      * intro F. now contradiction Ed.
      * intros _ [H|H]; [now contradiction Hn | now contradiction Hl].
      * intros _ _ _. now split.
Qed.

(** X15. A frame that arrives in two messages is never delivered: take a
    frame serialized by [marshall] whose command is not empty and does not
    begin with a line feed, and whose text has no NULL before the
    terminator, cut at any offset short of its length, and a client whose
    buffer is empty.  The handler, given the first piece, returns with the
    piece in the buffer; given the second piece next, it raises
    [ReferenceError] and leaves the first piece in the buffer.  No
    function of the application is called. *)
Theorem onmessage_fragmented
    (V1_1 V1_2 : jsval) (builtin : jsstring -> handler)
    (member : handler -> jsstring -> option callee)
    (run : handler -> Frame -> M unit) (cc ec : option handler)
    (now1 now2 : Z)
    (cmd : jsstring) (hs : Obj.t jsval) (bd wire : jsstring) (frame : Frame)
    (k : nat) (this : Client) :
  marshall cmd hs bd = (Ret wire, frame) ->
  cmd <> [] ->
  (forall r, cmd <> LF :: r) ->
  ~ In NUL (removelast wire) ->
  k < length wire ->
  partialData this = [] ->
  let chunk1 := firstn k wire in
  let chunk2 := skipn k wire in
  exists this1 this2,
    onmessage V1_1 V1_2 builtin member run cc ec now1 chunk1 this = Done tt this1
    /\ partialData this1 = chunk1
    /\ onmessage V1_1 V1_2 builtin member run cc ec now2 chunk2 this1 = Raised ReferenceError this2
    /\ partialData this2 = chunk1
    /\ invoked (trace this2) = invoked (trace this).
Proof.
  intros Hm Hcmd Hlf Hnul Hk Hp chunk1 chunk2.
  destruct (first_chunk cmd hs bd wire frame k Hm Hcmd Hlf Hnul Hk)
    as (H1 & H2 & H3 & H4).
  fold chunk1 in H1, H2. fold chunk2 in H3, H4.
  destruct (onmessage_buffers V1_1 V1_2 builtin member run cc ec now1 chunk1 this H2)
    as (this1 & E1 & _ & Ht1 & Hp1 & _).
  { rewrite Hp. cbn [app]. now apply unmarshall_partial. }
  rewrite Hp in Hp1. cbn [app] in Hp1.
  destruct (onmessage_raises V1_1 V1_2 builtin member run cc ec now2 chunk2 this1 H4)
    as (this2 & E2 & _ & Ht2 & Hp2 & _).
  { apply unmarshall_nul. apply in_or_app. now right. }
  exists this1, this2. rewrite Ht2, Ht1, !invoked_app. cbn [invoked].
  rewrite !app_nil_r. repeat split; try assumption. congruence.
Qed.


Lemma onmessage_never_dispatches_witness :
  let data := lit "MESSAGE" ++ [LF; LF] ++ lit "hi" ++ [NUL] in
  exists this',
    onmessage VUndefined VUndefined (fun _ => 0) (fun _ _ => None)
      (fun _ _ => ret tt) None None 5 data new_Client
    = Raised ReferenceError this'
    /\ serverActivity this' = 5%Z
    /\ invoked (trace this') = []
    /\ partialData this' = [].
Proof.
  intro data.
  destruct (onmessage_never_dispatches VUndefined VUndefined (fun _ => 0)
              (fun _ _ => None) (fun _ _ => ret tt) None None 5 data new_Client)
    as (this' & _ & Ha & _ & Hi & _ & _ & _ & Hr & _).
  destruct Hr as [E Hp].
  - discriminate.
  - left. cbv. tauto.
  - exists this'. now repeat split.
Defined.

Lemma onmessage_fragmented_witness :
  let this := mkClient 0 true 0 0 16384
                [(lit "sub-0", 7)] [] None None None None 0 [] in
  let wire :=
    join BYTES_LF [lit "MESSAGE"; lit "subscription:sub-0"; lit "content-length:2";
                   BYTES_LF ++ lit "hi"] ++ BYTES_NULL in
  exists this1 this2,
    onmessage VUndefined VUndefined (fun _ => 0) (fun _ _ => None)
      (fun _ _ => ret tt) None None 1 (firstn 12 wire) this = Done tt this1
    /\ onmessage VUndefined VUndefined (fun _ => 0) (fun _ _ => None)
         (fun _ _ => ret tt) None None 2 (skipn 12 wire) this1
       = Raised ReferenceError this2
    /\ partialData this2 = firstn 12 wire
    /\ invoked (trace this2) = [].
Proof.
  intros this wire.
  assert (Hm : marshall (lit "MESSAGE") [(lit "subscription", VStr (lit "sub-0"))] (lit "hi")
               = (Ret wire, mkFrame (lit "MESSAGE")
                              [(lit "subscription", VStr (lit "sub-0"))] (lit "hi")))
    by reflexivity.
  assert (Hc : lit "MESSAGE" <> []) by discriminate.
  assert (Hlf : forall r, lit "MESSAGE" <> LF :: r) by (intros r; discriminate).
  assert (Hnul : ~ In NUL (removelast wire)) by (cbv; intuition discriminate).
  assert (Hk : 12 < length wire) by (vm_compute; lia).
  destruct (onmessage_fragmented VUndefined VUndefined (fun _ => 0)
              (fun _ _ => None) (fun _ _ => ret tt) None None 1 2 _ _ _ wire _ 12
              this Hm Hc Hlf Hnul Hk eq_refl)
    as (this1 & this2 & H1 & _ & H2 & Hp & Hi).
  exists this1, this2. now repeat split.
Defined.

(** ** Identifiers minted from the counter *)

Lemma number_to_string_inj (a b : Z) :
  (0 <= a)%Z -> (0 <= b)%Z ->
  number_to_string a = number_to_string b -> a = b.
Proof.
  intros Ha Hb E.
  destruct (number_to_string_spec (Z.to_nat a)) as (da & Ea & _ & _ & Va).
  destruct (number_to_string_spec (Z.to_nat b)) as (db & Eb & _ & _ & Vb).
  rewrite Z2Nat.id in * by assumption. congruence.
Qed.

(** A frame without body is always serialized: [sizeOfUTF8], the one call
    of [toString] that can raise, is not reached. *)
Lemma marshall_no_body (cmd : jsstring) (hs : Obj.t jsval) :
  exists wire frame,
    marshall cmd hs [] = (Ret wire, frame)
    /\ text_length cmd hs [] = length wire.
Proof.
  assert (Hdec : Obj.get hs content_length = Some (VBool false)
                 \/ Obj.get hs content_length <> Some (VBool false)).
  { destruct (Obj.get hs content_length) as [[|[|]|]|];
      (now left) || (right; discriminate). }
  unfold text_length, marshall. destruct Hdec as [Hs|Hs].
  - rewrite (toString_sentinel cmd hs [] Hs). cbn [fst bind]. now do 2 eexists.
  - rewrite (toString_empty_body cmd hs Hs). cbn [fst bind]. now do 2 eexists.
Qed.

(** [_transmit] of a frame without body returns, given a positive frame
    size and fuel for the length of the text. *)
Lemma transmit_no_body (fuel : nat) (cmd : jsstring) (hs : Obj.t jsval)
    (this : Client) :
  (0 < maxWebSocketFrameSize this)%Z ->
  text_length cmd hs [] < fuel ->
  exists h this', _transmit fuel cmd hs [] this = Done h this'.
Proof.
  intros Hmax Hfuel.
  destruct (marshall_no_body cmd hs) as (wire & frame & Hm & Hl).
  rewrite Hl in Hfuel.
  rewrite (_transmit_eq fuel cmd hs [] wire frame this Hm).
  match goal with |- context [transmit_loop fuel wire ?t] =>
    destruct (transmit_loop_done fuel wire t Hmax Hfuel) as (evs & E & _);
      rewrite E
  end.
  now do 2 eexists.
Qed.

(** [subscribe] without an id in the headers: it returns, and what it
    returns. *)
Lemma subscribe_minted (fuel : nat) (destination : jsstring) (cb : handler)
    (hs : Obj.t jsval) (this : Client) :
  truthy (read (Obj.get hs (lit "id"))) = false ->
  (0 < maxWebSocketFrameSize this)%Z ->
  let id := lit "sub-" ++ number_to_string (counter this) in
  text_length (lit "SUBSCRIBE")
    (Obj.set (Obj.set hs (lit "id") (VStr id)) (lit "destination") (VStr destination))
    [] < fuel ->
  exists this1,
    subscribe fuel destination cb hs this = Done (VStr id) this1
    /\ counter this1 = (counter this + 1)%Z
    /\ maxWebSocketFrameSize this1 = maxWebSocketFrameSize this
    /\ subscriptions this1 = table_assign (subscriptions this) id cb.
Proof.
  intros Hid Hmax id Hfuel.
  set (hs2 := Obj.set (Obj.set hs (lit "id") (VStr id)) (lit "destination")
                (VStr destination)) in *.
  assert (E2 : Obj.get hs2 (lit "id") = Some (VStr id)).
  { unfold hs2. rewrite !get_set by reflexivity. reflexivity. }
  pose (t0 := mkClient (counter this + 1) (connected this)
                (heartbeat_outgoing this) (heartbeat_incoming this)
                (maxWebSocketFrameSize this)
                (table_assign (subscriptions this) id cb)
                (partialData this) (onreceive this) (onreceipt this)
                (pinger this) (ponger this) (serverActivity this) (trace this)).
  destruct (transmit_no_body fuel (lit "SUBSCRIBE") hs2 t0 Hmax Hfuel)
    as (h' & t' & E).
  pose proof E as E'. apply _transmit_inv in E' as (Hh & evs & Ht & _).
  assert (E3 : Obj.get h' (lit "id") = Some (VStr id)).
  { rewrite Hh, marshall_headers. destruct (is_false _); [|exact E2].
    rewrite get_delete. exact E2. }
  exists t'. split.
  - unfold subscribe. rewrite Hid. cbn [negb].
    unfold seq, the, set_counter, set_subscriptions, ret.
    cbn [counter connected heartbeat_outgoing heartbeat_incoming
         maxWebSocketFrameSize subscriptions partialData onreceive onreceipt
         pinger ponger serverActivity trace].
    fold id. fold hs2. rewrite E2. cbn [read to_string]. fold t0.
    rewrite E, E3. reflexivity.
  - rewrite Ht. cbn [subscriptions with_trace counter maxWebSocketFrameSize t0].
    repeat split.
Qed.

Lemma generated_id_plain (z : Z) : plain_id (lit "sub-" ++ number_to_string z).
Proof. split; reflexivity. Qed.

(** X16. Subscriptions without an id: on a client with a positive frame
    size and a counter that is not negative, [subscribe], given headers
    whose [id] is missing or falsy and fuel for the length of the frame,
    returns the id [sub-] followed by the counter and advances the
    counter; two such calls in a row return different ids, and after the
    second each callback is found in the table under its own id. *)
Theorem subscribe_fresh_ids
    (builtin : jsstring -> handler)
    (member : handler -> jsstring -> option callee)
    (fuel1 fuel2 : nat) (d1 d2 : jsstring) (cb1 cb2 : handler)
    (hs1 hs2 : Obj.t jsval) (this : Client) :
  (0 <= counter this)%Z ->
  (0 < maxWebSocketFrameSize this)%Z ->
  truthy (read (Obj.get hs1 (lit "id"))) = false ->
  truthy (read (Obj.get hs2 (lit "id"))) = false ->
  let id1 := lit "sub-" ++ number_to_string (counter this) in
  let id2 := lit "sub-" ++ number_to_string (counter this + 1) in
  text_length (lit "SUBSCRIBE")
    (Obj.set (Obj.set hs1 (lit "id") (VStr id1)) (lit "destination") (VStr d1))
    [] < fuel1 ->
  text_length (lit "SUBSCRIBE")
    (Obj.set (Obj.set hs2 (lit "id") (VStr id2)) (lit "destination") (VStr d2))
    [] < fuel2 ->
  exists this1 this2,
    subscribe fuel1 d1 cb1 hs1 this = Done (VStr id1) this1
    /\ subscribe fuel2 d2 cb2 hs2 this1 = Done (VStr id2) this2
    /\ counter this2 = (counter this + 2)%Z
    /\ id1 <> id2
    /\ lookup builtin member (subscriptions this2) id1 = Some (Fn cb1)
    /\ lookup builtin member (subscriptions this2) id2 = Some (Fn cb2).
Proof.
  intros Hc Hmax H1 H2 id1 id2 F1 F2.
  destruct (subscribe_minted fuel1 d1 cb1 hs1 this H1 Hmax F1)
    as (this1 & S1 & C1 & M1 & T1).
  fold id1 in S1, T1.
  assert (Hmax1 : (0 < maxWebSocketFrameSize this1)%Z) by (rewrite M1; exact Hmax).
  destruct (subscribe_minted fuel2 d2 cb2 hs2 this1 H2 Hmax1)
    as (this2 & S2 & C2 & M2 & T2).
  { rewrite C1. exact F2. }
  rewrite C1 in S2, T2. fold id2 in S2, T2.
  assert (Hne : id1 <> id2).
  { unfold id1, id2. intro F. apply app_inv_head in F.
    apply number_to_string_inj in F; lia. }
  exists this1, this2. split; [exact S1|]. split; [exact S2|].
  split; [lia|]. split; [exact Hne|]. split.
  - rewrite T2, T1. unfold lookup, table_assign.
    change (str_eqb id1 Obj.proto_key) with false. cbv iota.
    rewrite !get_put, str_eqb_refl.
    now rewrite (str_eqb_neq id2 id1) by congruence.
  - rewrite T2. apply lookup_assigned.
Qed.

Lemma subscribe_fresh_ids_witness :
  exists this1 this2,
    subscribe 100 (lit "/queue/a") 7 Obj.empty new_Client
    = Done (VStr (lit "sub-0")) this1
    /\ subscribe 100 (lit "/queue/b") 8 Obj.empty this1
       = Done (VStr (lit "sub-1")) this2
    /\ lookup (fun _ => 0) (fun _ _ => None) (subscriptions this2) (lit "sub-0")
       = Some (Fn 7)
    /\ lookup (fun _ => 0) (fun _ _ => None) (subscriptions this2) (lit "sub-1")
       = Some (Fn 8).
Proof.
  destruct (subscribe_fresh_ids (fun _ => 0) (fun _ _ => None) 100 100
              (lit "/queue/a") (lit "/queue/b") 7 8 Obj.empty Obj.empty new_Client)
    as (this1 & this2 & S1 & S2 & _ & _ & G1 & G2).
  - cbn. lia.
  - reflexivity.
  - reflexivity.
  - reflexivity.
  - vm_compute. lia.
  - vm_compute. lia.
  - exists this1, this2. split; [exact S1|]. split; [exact S2|].
    split; [exact G1 | exact G2].
Defined.

(** X17. A subscription receives its messages: once [subscribe] has
    returned an id, a MESSAGE frame whose [subscription] header reads as
    that id is handed to the callback of the subscription, together with
    its [message-id] and [subscription], whether or not the client has a
    default [onreceive]; the call is the last thing the handler does with
    the frame, so that it returns when the callback does. *)
Theorem subscribe_then_dispatch
    (V1_1 V1_2 : jsval) (builtin : jsstring -> handler)
    (member : handler -> jsstring -> option callee)
    (run : handler -> Frame -> M unit)
    (fuel : nat) (destination : jsstring) (cb : handler)
    (hs : Obj.t jsval) (this this1 : Client) (id : jsval)
    (cc ec : option handler) (frame : Frame) :
  subscribe fuel destination cb hs this = Done id this1 ->
  command frame = lit "MESSAGE" ->
  to_string (read (Obj.get (headers frame) (lit "subscription"))) = to_string id ->
  dispatch V1_1 V1_2 builtin member run cc ec frame this1
  = run cb frame
      (with_trace this1
         (trace this1
          ++ [InvokeMessage cb frame
                (read (Obj.get (headers frame) (lit "message-id")))
                (read (Obj.get (headers frame) (lit "subscription")))])).
Proof.
  intros Hsub Hc Hid. apply subscribe_table in Hsub as (Ht & _).
  unfold dispatch. rewrite Hc.
  change (str_eqb (lit "MESSAGE") (lit "CONNECTED")) with false.
  change (str_eqb (lit "MESSAGE") (lit "MESSAGE")) with true.
  cbv iota. unfold seq at 1 2. unfold the at 1 2.
  rewrite Hid, Ht, lookup_assigned. reflexivity.
Qed.

Lemma subscribe_then_dispatch_witness :
  let frame := mkFrame (lit "MESSAGE")
                 [(lit "subscription", VStr (lit "sub-0"));
                  (lit "message-id", VStr (lit "m-1"))] (lit "hi") in
  let s1 := subscribe 100 (lit "/queue/a") 7 Obj.empty new_Client in
  let this1 := match s1 with Done _ t => t | _ => new_Client end in
  s1 = Done (VStr (lit "sub-0")) this1
  /\ exists this2,
       dispatch VUndefined VUndefined (fun _ => 0) (fun _ _ => None)
         (fun _ _ => ret tt) None None frame this1 = Done tt this2
       /\ invoked (trace this2) = [7].
Proof.
  intros frame s1 this1.
  assert (S1 : s1 = Done (VStr (lit "sub-0")) this1) by reflexivity.
  split; [exact S1|]. eexists. split.
  - exact (subscribe_then_dispatch VUndefined VUndefined (fun _ => 0)
             (fun _ _ => None) (fun _ _ => ret tt) 100 _ 7 Obj.empty
             new_Client this1 _ None None frame S1 eq_refl eq_refl).
  - reflexivity.
Defined.

(** ** What is sent can be read back *)

(** The text [marshall] returns for headers without a content-length and a
    body of [n] encoded bytes. *)
Lemma marshall_wire_utf8 (cmd : jsstring) (hs : Obj.t jsval) (bd : jsstring) (n : nat) :
  Obj.get hs content_length = None ->
  code_units bd ->
  encoded_byte_count bd = Some n ->
  let extra :=
    match bd with
    | [] => []
    | _ => [lit "content-length:" ++ number_to_string (Z.of_nat n)]
    end in
  marshall cmd hs bd
  = (Ret ((join BYTES_LF (cmd :: map (header_line hs) (Obj.keys hs) ++ extra)
           ++ LF :: LF :: bd) ++ BYTES_NULL),
     mkFrame cmd hs bd).
Proof.
  intros Hcl Hu Hn extra.
  assert (Hs : Obj.get hs content_length <> Some (VBool false)) by (rewrite Hcl; discriminate).
  unfold marshall. destruct bd as [|c bd'].
  - rewrite toString_empty_body by exact Hs. cbn [bind].
    unfold extra. rewrite app_nil_r.
    change ([cmd] ++ map (header_line hs) (Obj.keys hs) ++ [BYTES_LF])
      with ((cmd :: map (header_line hs) (Obj.keys hs)) ++ [BYTES_LF]).
    rewrite join_app by discriminate. cbn [join].
    rewrite <- !app_assoc. reflexivity.
  - rewrite (toString_with_byte_count cmd hs (c :: bd') n);
      [| exact Hs | discriminate | exact Hu | exact Hn].
    cbn [bind]. unfold extra.
    set (line := lit "content-length:" ++ number_to_string (Z.of_nat n)).
    change ([cmd] ++ map (header_line hs) (Obj.keys hs)
            ++ [line] ++ [BYTES_LF ++ c :: bd'])
      with (cmd :: map (header_line hs) (Obj.keys hs)
            ++ [line] ++ [BYTES_LF ++ c :: bd']).
    rewrite app_comm_cons, app_assoc.
    rewrite join_app by (try discriminate; destruct (map _ _); discriminate).
    cbn [join]. rewrite <- !app_assoc. reflexivity.
Qed.

(** The frame [unmarshallSingle] reads from the text of a frame with clean
    headers and a content-length of [n], followed by anything. *)
Lemma wire_read_back (cmd : jsstring) (hs : Obj.t jsval) (bd junk : jsstring) (n : nat) :
  ~ In LF cmd ->
  clean_headers hs ->
  Obj.get hs content_length = None ->
  (junk = [] \/ exists r, junk = NUL :: r) ->
  let extra :=
    match bd with
    | [] => []
    | _ => [lit "content-length:" ++ number_to_string (Z.of_nat n)]
    end in
  let ls := map (header_line hs) (Obj.keys hs) ++ extra in
  exists parsed,
    unmarshallSingle (join BYTES_LF (cmd :: ls) ++ LF :: LF :: bd ++ junk)
    = mkFrame cmd parsed
        (match bd with [] => [] | _ => firstn n (bd ++ junk) end)
    /\ forall k,
         Obj.get parsed k
         = if str_eqb k content_length
           then match bd with
                | [] => None
                | _ => Some (VStr (number_to_string (Z.of_nat n)))
                end
           else if str_eqb k Obj.proto_key then None
           else Obj.get hs k.
Proof.
  intros Hcmd Hclean Hcl Hjunk extra ls.
  assert (Hextra : Forall (fun x => ~ In LF x /\ x <> []) extra).
  { unfold extra. destruct bd; [constructor|].
    destruct (content_length_line n) as (_ & _ & H1 & H2).
    repeat constructor; assumption. }
  assert (Hls : Forall (fun x => ~ In LF x /\ x <> []) ls).
  { unfold ls. apply Forall_app. split; [|exact Hextra].
    apply Forall_forall. intros l Hl. apply in_map_iff in Hl as (k & <- & Hk).
    destruct (header_line_clean hs k Hclean Hk) as (s & _ & _ & _ & H1 & H2).
    now split. }
  destruct (unmarshallSingle_text cmd ls (bd ++ junk) Hcmd Hls) as [Hu Hsub].
  cbv zeta in Hu, Hsub.
  set (parsed := fold_left parse_header (rev ls) Obj.empty) in *.
  assert (Hget : forall k,
             Obj.get parsed k
             = if str_eqb k content_length
               then match bd with
                    | [] => None
                    | _ => Some (VStr (number_to_string (Z.of_nat n)))
                    end
               else if str_eqb k Obj.proto_key then None
               else Obj.get hs k).
  { intro k. unfold parsed. rewrite get_parsed_headers_any.
    destruct (str_eqb k Obj.proto_key) eqn:Ep.
    { apply str_eqb_eq in Ep. subst k. reflexivity. }
    unfold ls. rewrite find_header_line.
    2:{ intros k' Hk'.
        now destruct (header_line_clean hs k' Hclean Hk') as (s & _ & H1 & _). }
    rewrite existsb_keys. destruct (Obj.get hs k) as [v|] eqn:Hk.
    - destruct (header_line_clean hs k Hclean (get_in_keys _ hs k v Hk))
        as (s & Hs & _ & Hv & _).
      rewrite Hv. rewrite Hk in Hs. rewrite Hs.
      destruct (str_eqb k content_length) eqn:E; [|reflexivity].
      apply str_eqb_eq in E. subst k. congruence.
    - unfold extra. destruct bd as [|c bd'].
      + cbn [find Obj.get Obj.empty option_map]. now destruct (str_eqb k content_length).
      + destruct (content_length_line n) as (H1 & H2 & _).
        cbn [find]. rewrite H1.
        destruct (str_eqb content_length k) eqn:E.
        * apply str_eqb_eq in E. subst k. now rewrite H2, str_eqb_refl.
        * rewrite (str_eqb_neq k content_length)
            by (intros ->; now rewrite str_eqb_refl in E).
          reflexivity. }
  exists parsed. split; [|exact Hget].
  rewrite Hu. f_equal.
  rewrite (Hget content_length), str_eqb_refl.
  destruct bd as [|c bd'].
  - cbn [read truthy app].
    destruct Hjunk as [-> | [r ->]]; reflexivity.
  - cbn [read to_string].
    destruct (number_to_string_spec n) as (ds & E & Hne & Hd & Hv).
    rewrite E. destruct ds as [|d ds]; [contradiction|]. cbn [truthy].
    rewrite (parseInt_digits (d :: ds) Hne Hd), Hv. cbn [num_add to_integer].
    apply Hsub.
Qed.

(** X19. [unmarshallSingle] on the whole text: [marshall] counts the
    content-length in bytes and [unmarshallSingle] takes as many
    characters, so read directly from the text [marshall] returns, NULL
    included, the body of a frame comes back as it was when it is empty or
    all ASCII, and with the NULL at its end as soon as one character takes
    more than one byte. *)
Theorem unmarshallSingle_keeps_terminator
    (cmd : jsstring) (hs : Obj.t jsval) (bd : jsstring) (n : nat) :
  ~ In LF cmd ->
  clean_headers hs ->
  Obj.get hs content_length = None ->
  code_units bd ->
  encoded_byte_count bd = Some n ->
  exists wire,
    fst (marshall cmd hs bd) = Ret wire
    /\ body (unmarshallSingle wire)
       = if length bd <? n then bd ++ [NUL] else bd.
Proof.
  intros Hlf Hclean Hcl Hcu Hn.
  pose proof (marshall_wire_utf8 cmd hs bd n Hcl Hcu Hn) as Hw. cbv zeta in Hw.
  destruct (wire_read_back cmd hs bd [NUL] n Hlf Hclean Hcl)
    as (parsed & Hu & _); [right; now exists []|].
  cbv zeta in Hu.
  eexists. rewrite Hw. split; [reflexivity|].
  change BYTES_NULL with [NUL]. rewrite <- app_assoc. cbn [app] in Hu |- *.
  rewrite Hu. cbn [body].
  pose proof (encoded_byte_count_bounds _ n Hcu Hn) as Hb.
  destruct bd as [|c bd'].
  - simpl in Hn. injection Hn as <-. reflexivity.
  - destruct (Nat.ltb_spec (length (c :: bd')) n) as [L|L].
    + apply firstn_all2. rewrite length_app. cbn [length] in *. lia.
    + rewrite firstn_app. replace (n - length (c :: bd')) with 0 by lia.
      cbn [firstn]. rewrite app_nil_r. apply firstn_all2. lia.
Qed.

Lemma unmarshallSingle_keeps_terminator_witness :
  exists wire,
    fst (marshall (lit "SEND") Obj.empty [104%N; 233%N]) = Ret wire
    /\ body (unmarshallSingle wire) = [104%N; 233%N; NUL].
Proof.
  apply (unmarshallSingle_keeps_terminator (lit "SEND") Obj.empty [104%N; 233%N] 3).
  - cbv. intuition discriminate.
  - intros k [].
  - reflexivity.
  - repeat constructor.
  - reflexivity.
Defined.

(** ** The frames the client sends *)

Lemma keys_set (o : Obj.t jsval) (k0 : jsstring) (v : jsval) (k : jsstring) :
  str_eqb k0 Obj.proto_key = false ->
  In k (Obj.keys (Obj.set o k0 v)) -> k = k0 \/ In k (Obj.keys o).
Proof.
  intros H0 H. destruct (Obj.get (Obj.set o k0 v) k) as [w|] eqn:E.
  - rewrite get_set in E by exact H0. destruct (str_eqb k0 k) eqn:Ek.
    + left. symmetry. now apply str_eqb_eq.
    + right. now apply (get_in_keys _ o k w).
  - now apply get_not_in_keys in E.
Qed.

Lemma clean_headers_set (hs : Obj.t jsval) (k0 s : jsstring) :
  str_eqb k0 Obj.proto_key = false ->
  clean_headers hs -> clean_name k0 -> clean_value s ->
  clean_headers (Obj.set hs k0 (VStr s)).
Proof.
  intros H0 H Hk Hs k Hin. rewrite get_set by exact H0.
  destruct (str_eqb k0 k) eqn:E.
  - apply str_eqb_eq in E. subst k. split; [exact Hk|]. now exists s.
  - apply keys_set in Hin as [->|Hin]; [now rewrite str_eqb_refl in E | | exact H0].
    now apply H.
Qed.

(** [_transmit], and then [unmarshallSingle] on what was sent. *)
Lemma transmit_read_back (cmd : jsstring) (hs : Obj.t jsval) (bd : jsstring) (n : nat) :
  ~ In LF cmd ->
  clean_headers hs ->
  Obj.get hs content_length = None ->
  code_units bd ->
  encoded_byte_count bd = Some n ->
  exists wire parsed,
    (forall fuel this,
        (0 < maxWebSocketFrameSize this)%Z ->
        length wire < fuel ->
        exists this' chunks,
          _transmit fuel cmd hs bd this = Done hs this'
          /\ sends (trace this') = sends (trace this) ++ chunks
          /\ concat chunks = wire)
    /\ unmarshallSingle wire
       = mkFrame cmd parsed (if length bd <? n then bd ++ [NUL] else bd)
    /\ forall k,
         Obj.get parsed k
         = if str_eqb k content_length
           then match bd with
                | [] => None
                | _ => Some (VStr (number_to_string (Z.of_nat n)))
                end
           else if str_eqb k Obj.proto_key then None
           else Obj.get hs k.
Proof.
  intros Hlf Hclean Hcl Hcu Hn.
  pose proof (marshall_wire_utf8 cmd hs bd n Hcl Hcu Hn) as Hm. cbv zeta in Hm.
  destruct (wire_read_back cmd hs bd [NUL] n Hlf Hclean Hcl)
    as (parsed & Hu & Hget); [right; now exists []|].
  cbv zeta in Hu.
  eexists. exists parsed. split; [|split; [|exact Hget]].
  - intros fuel this Hmax Hfuel.
    rewrite (_transmit_eq fuel cmd hs bd _ _ this Hm).
    match goal with |- context [transmit_loop fuel ?w ?t] =>
      destruct (transmit_loop_done fuel w t Hmax Hfuel) as (evs & E & Hs & _);
        rewrite E
    end.
    eexists. exists (sends evs). split; [reflexivity|].
    cbn [with_trace trace]. rewrite !sends_app. cbn [sends app].
    rewrite app_nil_r. split; [reflexivity | exact Hs].
  - change BYTES_NULL with [NUL]. rewrite <- app_assoc. cbn [app] in Hu |- *.
    rewrite Hu. f_equal.
    pose proof (encoded_byte_count_bounds _ n Hcu Hn) as Hb.
    destruct bd as [|c bd'].
    + simpl in Hn. injection Hn as <-. reflexivity.
    + destruct (Nat.ltb_spec (length (c :: bd')) n) as [L|L].
      * apply firstn_all2. rewrite length_app. cbn [length] in *. lia.
      * rewrite firstn_app. replace (n - length (c :: bd')) with 0 by lia.
        cbn [firstn]. rewrite app_nil_r. apply firstn_all2. lia.
Qed.

(** X20. What [send] puts on the socket: for a destination and headers that
    are clean strings, the headers without content-length, and a body of
    well-formed UTF-16, [send] on a client with a positive frame size
    returns once the text of the frame is sent, in one or more pieces.
    [Frame.unmarshallSingle] reads from that text a SEND frame whose
    [destination] is the one given to [send], replacing any that the
    headers held, and whose other headers are those given, a header
    [__proto__] apart, which is not read back; its body is the body sent,
    followed by the NULL when a character of it takes more than one
    byte. *)
Theorem send_read_back
    (destination : jsstring) (hs : Obj.t jsval) (bd : jsstring) (n : nat) :
  clean_value destination ->
  clean_headers hs ->
  Obj.get hs content_length = None ->
  code_units bd ->
  encoded_byte_count bd = Some n ->
  exists wire parsed,
    (forall fuel this,
        (0 < maxWebSocketFrameSize this)%Z ->
        length wire < fuel ->
        exists this' chunks,
          send fuel destination hs bd this
          = Done (Obj.set hs (lit "destination") (VStr destination)) this'
          /\ sends (trace this') = sends (trace this) ++ chunks
          /\ concat chunks = wire)
    /\ unmarshallSingle wire
       = mkFrame (lit "SEND") parsed (if length bd <? n then bd ++ [NUL] else bd)
    /\ Obj.get parsed (lit "destination") = Some (VStr destination)
    /\ forall k,
         k <> lit "destination" -> k <> content_length -> k <> Obj.proto_key ->
         Obj.get parsed k = Obj.get hs k.
Proof.
  intros Hd Hclean Hcl Hcu Hn.
  set (hs' := Obj.set hs (lit "destination") (VStr destination)).
  assert (Hname : clean_name (lit "destination")).
  { repeat split; try reflexivity; cbv; intuition discriminate. }
  destruct (transmit_read_back (lit "SEND") hs' bd n)
    as (wire & parsed & Ht & Hu & Hget).
  - cbv. intuition discriminate.
  - now apply clean_headers_set.
  - unfold hs'. rewrite get_set by reflexivity. exact Hcl.
  - exact Hcu.
  - exact Hn.
  - exists wire, parsed. split; [exact Ht|]. split; [exact Hu|]. split.
    + rewrite Hget. unfold hs'. now rewrite get_set by reflexivity.
    + intros k Hk1 Hk2 Hk3.
      rewrite Hget, (str_eqb_neq k content_length Hk2),
        (str_eqb_neq k Obj.proto_key Hk3).
      unfold hs'. rewrite get_set by reflexivity.
      now rewrite (str_eqb_neq (lit "destination") k) by congruence.
Qed.

Lemma send_read_back_witness :
  let hs := [(lit "destination", VStr (lit "/queue/old")); (lit "priority", VStr (lit "9"))] in
  exists wire parsed,
    unmarshallSingle wire = mkFrame (lit "SEND") parsed (lit "hello")
    /\ Obj.get parsed (lit "destination") = Some (VStr (lit "/queue/a"))
    /\ Obj.get parsed (lit "priority") = Some (VStr (lit "9"))
    /\ exists this' chunks,
         send (S (length wire)) (lit "/queue/a") hs (lit "hello") new_Client
         = Done [(lit "destination", VStr (lit "/queue/a")); (lit "priority", VStr (lit "9"))]
             this'
         /\ sends (trace this') = chunks
         /\ concat chunks = wire.
Proof.
  intro hs.
  destruct (send_read_back (lit "/queue/a") hs (lit "hello") 5)
    as (wire & parsed & Ht & Hu & Hd & Hk).
  - split; [cbv; intuition discriminate | reflexivity].
  - intros k Hin. unfold hs in Hin. cbn [Obj.keys map fst In] in Hin.
    destruct Hin as [<-|[<-|[]]].
    + split; [|exists (lit "/queue/old"); split; [reflexivity|]];
        repeat split; try reflexivity; cbv; intuition discriminate.
    + split; [|exists (lit "9"); split; [reflexivity|]];
        repeat split; try reflexivity; cbv; intuition discriminate.
  - reflexivity.
  - repeat constructor.
  - reflexivity.
  - exists wire, parsed. split; [exact Hu|]. split; [exact Hd|]. split.
    + rewrite Hk by discriminate. reflexivity.
    + destruct (Ht (S (length wire)) new_Client eq_refl (Nat.lt_succ_diag_r _))
        as (t & chunks & E & Hs & Hc).
      exists t, chunks. now repeat split.
Defined.

(** X21. What [ack] and [nack] put on the socket: for a message id, a
    subscription and headers that are clean strings, the headers without
    content-length, the call returns once the text of the frame is sent,
    and [Frame.unmarshallSingle] reads from that text a frame without
    body, ACK for [ack] and NACK for [nack], whose [message-id] and
    [subscription] are the ones given as arguments, replacing any that the
    headers held, and whose other headers are those given, a header
    [__proto__] apart. *)
Theorem ack_nack_read_back
    (refuse : bool) (messageID subscription : jsstring) (hs : Obj.t jsval) :
  clean_value messageID ->
  clean_value subscription ->
  clean_headers hs ->
  Obj.get hs content_length = None ->
  exists wire parsed,
    (forall fuel this,
        (0 < maxWebSocketFrameSize this)%Z ->
        length wire < fuel ->
        exists this' chunks,
          (if refuse then nack else ack)
            fuel (VStr messageID) (VStr subscription) hs this
          = Done (Obj.set (Obj.set hs (lit "message-id") (VStr messageID))
                    (lit "subscription") (VStr subscription)) this'
          /\ sends (trace this') = sends (trace this) ++ chunks
          /\ concat chunks = wire)
    /\ unmarshallSingle wire
       = mkFrame (if refuse then lit "NACK" else lit "ACK") parsed []
    /\ Obj.get parsed (lit "message-id") = Some (VStr messageID)
    /\ Obj.get parsed (lit "subscription") = Some (VStr subscription)
    /\ forall k,
         k <> lit "message-id" -> k <> lit "subscription" -> k <> Obj.proto_key ->
         Obj.get parsed k = Obj.get hs k.
Proof.
  intros Hm Hs Hclean Hcl.
  set (hs' := Obj.set (Obj.set hs (lit "message-id") (VStr messageID))
                (lit "subscription") (VStr subscription)).
  assert (Hn1 : clean_name (lit "message-id")).
  { repeat split; try reflexivity; cbv; intuition discriminate. }
  assert (Hn2 : clean_name (lit "subscription")).
  { repeat split; try reflexivity; cbv; intuition discriminate. }
  destruct (transmit_read_back (if refuse then lit "NACK" else lit "ACK") hs' [] 0)
    as (wire & parsed & Ht & Hu & Hget).
  - destruct refuse; cbv; intuition discriminate.
  - unfold hs'. apply clean_headers_set; [reflexivity | | exact Hn2 | exact Hs].
    now apply clean_headers_set.
  - unfold hs'. rewrite !get_set by reflexivity. exact Hcl.
  - constructor.
  - reflexivity.
  - exists wire, parsed. split; [|split; [exact Hu|split; [|split]]].
    + intros fuel this Hmax Hfuel.
      destruct (Ht fuel this Hmax Hfuel) as (t & chunks & E & H1 & H2).
      exists t, chunks. split; [|now split].
      destruct refuse; exact E.
    + rewrite Hget. unfold hs'. now rewrite !get_set by reflexivity.
    + rewrite Hget. unfold hs'. now rewrite !get_set by reflexivity.
    + intros k Hk1 Hk2 Hk3. rewrite Hget, (str_eqb_neq k Obj.proto_key Hk3).
      unfold hs'. rewrite !get_set by reflexivity.
      rewrite (str_eqb_neq (lit "subscription") k) by congruence.
      rewrite (str_eqb_neq (lit "message-id") k) by congruence.
      destruct (str_eqb k content_length) eqn:E; [|reflexivity].
      apply str_eqb_eq in E. subst k. now rewrite Hcl.
Qed.

Lemma ack_nack_read_back_witness :
  let hs := [(lit "message-id", VStr (lit "old"))] in
  exists wire parsed,
    unmarshallSingle wire = mkFrame (lit "ACK") parsed []
    /\ Obj.get parsed (lit "message-id") = Some (VStr (lit "m-7"))
    /\ Obj.get parsed (lit "subscription") = Some (VStr (lit "sub-0"))
    /\ exists this' chunks,
         ack (S (length wire)) (VStr (lit "m-7")) (VStr (lit "sub-0")) hs new_Client
         = Done [(lit "message-id", VStr (lit "m-7"));
                 (lit "subscription", VStr (lit "sub-0"))] this'
         /\ sends (trace this') = chunks
         /\ concat chunks = wire.
Proof.
  intro hs.
  destruct (ack_nack_read_back false (lit "m-7") (lit "sub-0") hs)
    as (wire & parsed & Ht & Hu & Hm & Hs & _).
  - split; [cbv; intuition discriminate | reflexivity].
  - split; [cbv; intuition discriminate | reflexivity].
  - intros k Hin. unfold hs in Hin. cbn [Obj.keys map fst In] in Hin.
    destruct Hin as [<-|[]].
    split; [|exists (lit "old"); split; [reflexivity|]];
      repeat split; try reflexivity; cbv; intuition discriminate.
  - reflexivity.
  - exists wire, parsed. split; [exact Hu|]. split; [exact Hm|]. split; [exact Hs|].
    destruct (Ht (S (length wire)) new_Client eq_refl (Nat.lt_succ_diag_r _))
      as (t & chunks & E & H1 & H2).
    exists t, chunks. now repeat split.
Defined.

(** X22. Transaction ids: [begin] without an argument names the transaction
    [tx-] followed by the counter, which it advances; [begin] with an
    argument keeps the name and the counter.  Either way it returns the
    name after sending, on a client with a positive frame size, the BEGIN
    frame with that name as its [transaction] header and nothing else, and
    it leaves the subscriptions as they were. *)
Theorem begin_mints (fuel : nat) (transaction : jsval) (this : Client) :
  (0 < maxWebSocketFrameSize this)%Z ->
  let tx := match transaction with
            | VUndefined => VStr (lit "tx-" ++ number_to_string (counter this))
            | _ => transaction
            end in
  let wire := lit "BEGIN" ++ [LF] ++ lit "transaction:" ++ to_string tx
              ++ [LF; LF; NUL] in
  length wire < fuel ->
  exists this' chunks,
    begin fuel transaction this = Done tx this'
    /\ counter this'
       = match transaction with
         | VUndefined => (counter this + 1)%Z
         | _ => counter this
         end
    /\ subscriptions this' = subscriptions this
    /\ sends (trace this') = sends (trace this) ++ chunks
    /\ concat chunks = wire.
Proof.
  intros Hmax tx wire Hfuel.
  assert (Hm : marshall (lit "BEGIN") (Obj.set Obj.empty (lit "transaction") tx) []
               = (Ret wire, mkFrame (lit "BEGIN") [(lit "transaction", tx)] [])).
  { unfold wire. unfold marshall, toString.
    cbn [command headers body Obj.set Obj.empty Obj.has Obj.array_index].
    cbn. rewrite <- !app_assoc. reflexivity. }
  assert (Hrun : forall t, (0 < maxWebSocketFrameSize t)%Z ->
            exists t' chunks,
              (_transmit fuel (lit "BEGIN")
                 (Obj.set Obj.empty (lit "transaction") tx) [] ;;; ret tx) t
              = Done tx t'
              /\ counter t' = counter t
              /\ subscriptions t' = subscriptions t
              /\ sends (trace t') = sends (trace t) ++ chunks
              /\ concat chunks = wire).
  { intros t Ht. unfold seq.
    rewrite (_transmit_eq fuel _ _ _ wire _ t Hm).
    match goal with |- context [transmit_loop fuel wire ?u] =>
      destruct (transmit_loop_done fuel wire u Ht Hfuel) as (evs & E & Hs & _);
        rewrite E
    end.
    eexists. exists (sends evs). split; [reflexivity|].
    cbn [with_trace trace counter subscriptions]. rewrite !sends_app.
    cbn [sends app]. rewrite app_nil_r. now repeat split. }
  unfold begin. destruct transaction as [|b|s].
  - unfold seq at 1 2 3. unfold the at 1, set_counter at 1, ret at 1.
    match goal with |- context [seq ?m ?k ?t] =>
      destruct (Hrun t Hmax) as (t' & chunks & E & Hc & Hsub & Hs & Hw)
    end.
    exists t', chunks. split; [exact E|].
    cbn [counter subscriptions trace] in *. now repeat split.
  - unfold seq at 1. unfold ret at 1.
    destruct (Hrun this Hmax) as (t' & chunks & E & Hc & Hsub & Hs & Hw).
    exists t', chunks. now repeat split.
  - unfold seq at 1. unfold ret at 1.
    destruct (Hrun this Hmax) as (t' & chunks & E & Hc & Hsub & Hs & Hw).
    exists t', chunks. now repeat split.
Qed.

Lemma begin_mints_witness :
  exists this' chunks,
    begin 100 VUndefined new_Client = Done (VStr (lit "tx-0")) this'
    /\ counter this' = 1%Z
    /\ sends (trace this') = chunks
    /\ concat chunks
       = lit "BEGIN" ++ [LF] ++ lit "transaction:tx-0" ++ [LF; LF; NUL].
Proof.
  destruct (begin_mints 100 VUndefined new_Client)
    as (this' & chunks & E & Hc & _ & Hs & Hw).
  - reflexivity.
  - vm_compute. lia.
  - exists this', chunks. now repeat split.
Defined.

(** ** The CONNECTED frame *)

(** X24. A CONNECTED frame, with the two supported versions different as
    they are: the handler logs the server, marks the client connected
    and, whatever the [version] and [heart-beat] headers say, starts
    neither timer; it then calls the connect callback with the frame, if
    there is one, as the last thing it does with the frame. *)
Theorem dispatch_connected
    (V1_1 V1_2 : jsval) (builtin : jsstring -> handler)
    (member : handler -> jsstring -> option callee)
    (run : handler -> Frame -> M unit)
    (cc ec : option handler) (frame : Frame) (this : Client) :
  V1_1 <> V1_2 ->
  command frame = lit "CONNECTED" ->
  exists ready,
    connected ready = true
    /\ pinger ready = pinger this
    /\ ponger ready = ponger this
    /\ trace ready
       = trace this
         ++ [Log (lit "connected to server "
                  ++ to_string (read (Obj.get (headers frame) (lit "server"))))]
    /\ dispatch V1_1 V1_2 builtin member run cc ec frame this
       = match cc with
         | Some f => run f frame (with_trace ready (trace ready ++ [Invoke f frame]))
         | None => Done tt ready
         end.
Proof.
  intros Hv Hc. unfold dispatch. rewrite Hc.
  change (str_eqb (lit "CONNECTED") (lit "CONNECTED")) with true. cbv iota.
  assert (Hs : forall hs t, _setupHeartbeat V1_1 V1_2 hs t = Done tt t).
  { intros hs t. unfold _setupHeartbeat.
    destruct (strict_neq (read (Obj.get hs (lit "version"))) V1_1) eqn:E1;
      [reflexivity|].
    destruct (strict_neq (read (Obj.get hs (lit "version"))) V1_2) eqn:E2;
      [reflexivity|].
    apply strict_neq_false in E1, E2. congruence. }
  unfold seq at 1 2 3. unfold debug at 1, emit at 1, set_connected at 1.
  rewrite Hs. eexists. split; [|split; [|split; [|split]]].
  5:{ destruct cc as [f|]; [|reflexivity].
      unfold call, seq, emit. reflexivity. }
  all: reflexivity.
Qed.

Lemma dispatch_connected_witness :
  let frame := mkFrame (lit "CONNECTED")
                 [(lit "version", VStr (lit "1.1"));
                  (lit "heart-beat", VStr (lit "3000,3000"))] [] in
  exists this',
    dispatch (VStr (lit "1.1")) (VStr (lit "1.2")) (fun _ => 0) (fun _ _ => None)
      (fun _ _ => ret tt) (Some 3) None frame new_Client
    = Done tt this'
    /\ connected this' = true
    /\ invoked (trace this') = [3]
    /\ pinger this' = None
    /\ ponger this' = None.
Proof.
  intro frame.
  destruct (dispatch_connected (VStr (lit "1.1")) (VStr (lit "1.2")) (fun _ => 0)
              (fun _ _ => None) (fun _ _ => ret tt) (Some 3) None frame new_Client)
    as (ready & Hc & Hp1 & Hp2 & Ht & E).
  - discriminate.
  - reflexivity.
  - eexists. split; [exact E|]. cbn [ret connected pinger ponger with_trace trace].
    rewrite Ht. repeat split; assumption.
Defined.

(** ** Transactions *)

(** A frame that carries a transaction name and nothing else. *)
Lemma transmit_transaction (fuel : nat) (cmd : jsstring) (tx : jsval) (t : Client) :
  (0 < maxWebSocketFrameSize t)%Z ->
  let wire := cmd ++ [LF] ++ lit "transaction:" ++ to_string tx ++ [LF; LF; NUL] in
  length wire < fuel ->
  exists t' chunks,
    _transmit fuel cmd (Obj.set Obj.empty (lit "transaction") tx) [] t
    = Done [(lit "transaction", tx)] t'
    /\ counter t' = counter t
    /\ subscriptions t' = subscriptions t
    /\ maxWebSocketFrameSize t' = maxWebSocketFrameSize t
    /\ sends (trace t') = sends (trace t) ++ chunks
    /\ concat chunks = wire.
Proof.
  intros Ht wire Hfuel.
  assert (Hm : marshall cmd (Obj.set Obj.empty (lit "transaction") tx) []
               = (Ret wire, mkFrame cmd [(lit "transaction", tx)] [])).
  { unfold wire. unfold marshall, toString.
    cbn [command headers body Obj.set Obj.empty Obj.has Obj.array_index].
    cbn. change BYTES_NULL with [NUL].
    repeat (rewrite <- app_assoc; cbn [app]). reflexivity. }
  rewrite (_transmit_eq fuel _ _ _ wire _ t Hm).
  match goal with |- context [transmit_loop fuel wire ?u] =>
    destruct (transmit_loop_done fuel wire u Ht Hfuel) as (evs & E & Hs & _);
      rewrite E
  end.
  eexists. exists (sends evs). split; [reflexivity|].
  cbn [with_trace trace counter subscriptions maxWebSocketFrameSize headers].
  rewrite !sends_app. cbn [sends app]. rewrite app_nil_r. now repeat split.
Qed.

(** X25. A transaction from start to end: [begin] without an argument and
    then [commit], or [abort], of the name [begin] returned send two
    frames, on a client with a positive frame size: BEGIN and then COMMIT,
    or ABORT, each with the one header [transaction], both naming [tx-]
    followed by the counter as it was before; the counter has advanced by
    one. *)
Theorem begin_then_finish (undo : bool) (fuel : nat) (this : Client) :
  (0 < maxWebSocketFrameSize this)%Z ->
  let name := lit "tx-" ++ number_to_string (counter this) in
  let tail := [LF] ++ lit "transaction:" ++ name ++ [LF; LF; NUL] in
  length (lit "COMMIT" ++ tail) < fuel ->
  exists this1 this2 chunks1 chunks2,
    begin fuel VUndefined this = Done (VStr name) this1
    /\ (if undo then abort else commit) fuel (VStr name) this1 = Done tt this2
    /\ sends (trace this2) = sends (trace this) ++ chunks1 ++ chunks2
    /\ concat chunks1 = lit "BEGIN" ++ tail
    /\ concat chunks2 = (if undo then lit "ABORT" else lit "COMMIT") ++ tail
    /\ counter this2 = (counter this + 1)%Z.
Proof.
  intros Hmax name tail Hfuel.
  assert (Hlen : forall cmd, length cmd <= 6 ->
            length (cmd ++ [LF] ++ lit "transaction:" ++ to_string (VStr name)
                    ++ [LF; LF; NUL]) < fuel).
  { intros cmd Hc. unfold tail in Hfuel. cbn [to_string].
    rewrite !length_app in *. cbn [length lit] in *. simpl length in *. lia. }
  pose (t0 := mkClient (counter this + 1) (connected this)
                (heartbeat_outgoing this) (heartbeat_incoming this)
                (maxWebSocketFrameSize this) (subscriptions this)
                (partialData this) (onreceive this) (onreceipt this)
                (pinger this) (ponger this) (serverActivity this) (trace this)).
  destruct (transmit_transaction fuel (lit "BEGIN") (VStr name) t0 Hmax
              (Hlen (lit "BEGIN") ltac:(vm_compute; lia)))
    as (t1 & chunks1 & E1 & Hc1 & Hs1 & Hm1 & Hsend1 & Hw1).
  assert (Hmax1 : (0 < maxWebSocketFrameSize t1)%Z) by (rewrite Hm1; exact Hmax).
  destruct (transmit_transaction fuel (if undo then lit "ABORT" else lit "COMMIT")
              (VStr name) t1 Hmax1
              (Hlen (if undo then lit "ABORT" else lit "COMMIT")
                 ltac:(destruct undo; vm_compute; lia)))
    as (t2 & chunks2 & E2 & Hc2 & Hs2 & Hm2 & Hsend2 & Hw2).
  exists t1, t2, chunks1, chunks2. split; [|split].
  - unfold begin, seq, the, set_counter, ret. fold t0. fold name.
    now rewrite E1.
  - destruct undo; unfold abort, commit, seq; rewrite E2; reflexivity.
  - cbn [counter trace t0] in *. rewrite Hsend2, Hsend1, <- app_assoc.
    repeat split; try assumption. lia.
Qed.

Lemma begin_then_finish_witness :
  exists this1 this2,
    begin 100 VUndefined new_Client = Done (VStr (lit "tx-0")) this1
    /\ abort 100 (VStr (lit "tx-0")) this1 = Done tt this2
    /\ concat (sends (trace this2))
       = lit "BEGIN" ++ [LF] ++ lit "transaction:tx-0" ++ [LF; LF; NUL]
         ++ lit "ABORT" ++ [LF] ++ lit "transaction:tx-0" ++ [LF; LF; NUL]
    /\ counter this2 = 1%Z.
Proof.
  destruct (begin_then_finish true 100 new_Client)
    as (this1 & this2 & c1 & c2 & E1 & E2 & Hs & H1 & H2 & Hc).
  - reflexivity.
  - vm_compute. lia.
  - exists this1, this2. split; [exact E1|]. split; [exact E2|].
    split; [|exact Hc].
    rewrite Hs. cbn [new_Client trace sends app]. rewrite concat_app, H1, H2.
    reflexivity.
Defined.
